(** * getk: fetching candlesticks into one table per symbol

    A shallow embedding of the two programs of the repository:
    - the sequential fetcher ([Module Sequential], the file with
      [EnsureTable] inside the symbol loop), and
    - the concurrent pipeline ([Module Pipeline], the file with
      [safeTableName], the ticker and the worker pool),
    and of what they load their configuration with: [ParseDates] and
    [LoadLongportAccount] of package [appconfig], [DSN] of package [dbconn].

    Go values are modelled as follows.  A [string] is its sequence of bytes;
    [int] and [int64] are [Z] with the 64-bit wrap-around written out where
    the code computes with them; a slice is a [list]; a nil-able pointer is an
    [option]; an [error] result is an [option error] ([None] is [nil]); a
    run-time panic is the [Panic] constructor of the [Go] monad.

    What the programs take from libraries and from the Go runtime as data
    is a parameter: the conversion of decimals ([DecimalLib]), the Unicode
    tables behind [strings.ToLower] ([strings.Unicode]), and the size the
    runtime allows for the buffer of a channel ([max_chan_bytes]). *)

From stdpp Require Import gmap strings list fin_maps.
From Stdlib Require Import ZArith Lia Ascii.
From Stdlib Require DecimalString DecimalPos DecimalZ.

Open Scope string_scope.
Open Scope list_scope.
Open Scope Z_scope.

(** ** Panics *)

(** How a run can end other than by returning. *)
Inductive Crash : Type :=
| IndexOutOfRange      (* s[i] with i >= len(s) *)
| NilDereference       (* a method called through a nil pointer *)
| Deadlock             (* a send on a full channel that nobody receives from *)
| MakeChanSize         (* make(chan T, n): size out of range *)
| NonPositiveInterval  (* time.NewTicker(d) with d <= 0 *)
| NegativeWaitGroupCounter   (* wg.Add(n) leaving a negative counter *)
| WaitGroupCounterLost.      (* wg.Add(n) with n beyond the 32 bits of the counter *)

Inductive Go (A : Type) : Type :=
| Return (a : A)
| Panic (why : Crash).
Arguments Return {A} a.
Arguments Panic {A} why.

Definition go_bind {A B} (m : Go A) (k : A -> Go B) : Go B :=
  match m with
  | Return a => k a
  | Panic why => Panic why
  end.

Notation "'let!' x ':=' m 'in' k" := (go_bind m (fun x => k))
  (at level 10, x name, m at level 100, k at level 200).

(** [s[i]] on a slice: out of range is a run-time panic. *)
Definition index {A} (s : list A) (i : nat) : Go A :=
  match s !! i with
  | Some a => Return a
  | None => Panic IndexOutOfRange
  end.

(** ** The two functions of package [strings] that the programs call *)

Module strings.

(** [strings.Split(s, sep)] for a one-byte separator, the only way the
    programs call it: the pieces of [s] between the occurrences of [sep].
    A string without the separator gives the one-element slice [[s]]. *)
Fixpoint Split (s : string) (sep : ascii) : list string :=
  match s with
  | EmptyString => [EmptyString]
  | String c rest =>
      if Ascii.eqb c sep then EmptyString :: Split rest sep
      else match Split rest sep with
           | piece :: pieces => String c piece :: pieces
           | [] => [String c EmptyString]
           end
  end.

Definition lower_byte (c : ascii) : ascii :=
  let n := nat_of_ascii c in
  if (Nat.leb 65 n && Nat.leb n 90)%bool then ascii_of_nat (n + 32) else c.

(** What [strings.ToLower] takes from package [unicode]:
    [strings.Map(unicode.ToLower, s)], the lower-casing of the runes of a
    string through the Unicode tables of the Go library. *)
Class Unicode : Type := {
  Map_ToLower : string -> string
}.

(** The first loop of [strings.ToLower]: no byte of [s] is [utf8.RuneSelf]
    (128) or above. *)
Fixpoint isASCII (s : string) : bool :=
  match s with
  | EmptyString => true
  | String c rest => Nat.ltb (nat_of_ascii c) 128 && isASCII rest
  end.

(** The second loop of [strings.ToLower], for ASCII text: the bytes
    'A'..'Z' are shifted to 'a'..'z' and the others copied.  (Without an
    upper-case letter the code returns [s] itself, which is what the loop
    would build.) *)
Fixpoint lower_bytes (s : string) : string :=
  match s with
  | EmptyString => EmptyString
  | String c rest => String (lower_byte c) (lower_bytes rest)
  end.

(** [strings.ToLower]: the byte loop for ASCII text, the Unicode mapping
    for any other. *)
Definition ToLower `{Unicode} (s : string) : string :=
  if isASCII s then lower_bytes s else Map_ToLower s.

End strings.

(** [contains_byte s c]: the byte [c] occurs in [s]. *)
Fixpoint contains_byte (s : string) (c : ascii) : bool :=
  match s with
  | EmptyString => false
  | String c' rest => Ascii.eqb c' c || contains_byte rest c
  end.

Definition dot : ascii := "."%char.

(** ** Integers, instants and durations *)

(** The value of a 64-bit two's-complement integer ([int], [int64] and
    [time.Duration] on the platforms Go 1.25 supports with 64-bit [int]). *)
Definition wrap64 (z : Z) : Z := (z + 2 ^ 63) mod 2 ^ 64 - 2 ^ 63.

Definition mul64 (x y : Z) : Z := wrap64 (x * y).
Definition add64 (x y : Z) : Z := wrap64 (x + y).

(** [x << n] on [int] for a count [0 <= n] (a count of 64 or more gives 0;
    Go panics on a negative count, which the retry loop never produces:
    it shifts by [attempt - 1] with [1 <= attempt]). *)
Definition shl64 (x n : Z) : Z := wrap64 (Z.shiftl x n).

(** A [time.Time] at second precision, as seconds since the Unix epoch. *)
Definition Time : Type := Z.

(** [time.Unix(sec, 0)]. *)
Definition time_Unix (sec : Z) : Time := sec.

(** [time.Date(t.Year(), t.Month(), t.Day(), h, m, s, 0, time.UTC)] for a
    [t] in UTC: the given wall-clock time on the day of [t]. *)
Definition on_day_of (t : Time) (h m s : Z) : Time :=
  86400 * (t / 86400) + (3600 * h + 60 * m + s).

(** A [time.Duration], in nanoseconds. *)
Definition Duration : Type := Z.
Definition Millisecond : Duration := 1000000.

(** [d.Milliseconds()]. *)
Definition Milliseconds (d : Duration) : Z := Z.quot d 1000000.

(** ** Numbers of the quote SDK

    The SDK hands prices over as [*decimal.Decimal]; the programs turn them
    into [float64] with [InexactFloat64].  Neither is code of this
    repository: the decimal type and its conversion are taken as given. *)
Class DecimalLib : Type := {
  Decimal : Type;
  float64 : Type;
  InexactFloat64 : Decimal -> float64;
  float64_zero : float64            (* the literal 0.0 *)
}.

Definition error : Type := string.

(** ** Data of the programs *)

Inductive Period : Type :=
| PeriodOneMinute | PeriodFiveMinute | PeriodFifteenMinute | PeriodThirtyMinute.

Inductive AdjustType : Type :=
| AdjustTypeNo | AdjustTypeForward.

Module quote.
Section Types.
Context `{DecimalLib}.

(** A raw point of the quote service ([quote.Candlestick]): the prices
    and the turnover are pointers and may be nil. *)
Record Candlestick : Type := {
  Close : option Decimal;
  Open : option Decimal;
  Low : option Decimal;
  High : option Decimal;
  Volume : Z;
  Turnover : option Decimal;
  Timestamp : Z
}.

End Types.
End quote.

Section Data.
Context `{DecimalLib}.

(** [type Candlestick struct], the same in both programs. *)
Record Candlestick : Type := {
  Symbol : string;
  Timestamp : Time;
  Open : float64;
  Close : float64;
  High : float64;
  Low : float64;
  Volume : Z;
  Turnover : float64
}.

(** A row of a symbol's table: the seven columns of the CREATE TABLE
    statement, in the order of the INSERT statement's parameters. *)
Record Row : Type := {
  col_timestamp : Time;
  col_open : float64;
  col_close : float64;
  col_high : float64;
  col_low : float64;
  col_volume : Z;
  col_turnover : float64
}.

(** The SQL statements the programs send, by table name. *)
Inductive Statement : Type :=
| CreateTableIfNotExists (table : string)
| PrepareInsert (table : string)
| PrepareExists (table : string)
| ExecInsert (table : string) (r : Row)
| QueryExists (table : string) (ts : Time).

(** The lines the programs print, by their format string. *)
Inductive Line : Type :=
| LBanner (symbols dates total : Z)
| LCreateTableFailed (err : error)
| LInsertFailed (err : error)                     (* log: Insert failed *)
| LExistenceCheckFailed (err : error)             (* log: Existence check failed *)
| LProgress (cur total workerID : Z) (symbol : string) (date : Time)
| LRetry (workerID attempt maxAttempts : Z) (err : error) (waitMS : Z)
| LFailed (workerID : Z) (err : error)
| LDbInsertFailed (workerID : Z) (err : error)
| LDone (workerID records : Z)
| LSummary (success fail total : Z)
| LSeqStartSymbol (symbol : string)
| LSeqProgress (cur total : Z) (symbol : string) (date : Time)
| LSeqFetchFailed (err : error)
| LSeqDbInsertFailed (err : error)
| LSeqDone (records : Z)
| LSeqSymbolDone (symbol : string)
| LAllSaved
| LSeqTotal (total : Z).

(** What a run does to the outside, in the order it happens. *)
Inductive Event : Type :=
| Print (l : Line)
| LimiterTick                                    (* <-limiter.C returned *)
| Sleep (d : Duration)                           (* time.Sleep(d) *)
| Call (symbol : string) (start end_ : Time)     (* HistoryCandlesticksByDate *)
| Sql (s : Statement).

(** Modelled from the spec: the relational store client ([database/sql]
    over a PostgreSQL server) is not code of this repository.  Following
    section 6 of the spec, the store keeps one table per name, each a list
    of rows in insertion order; a table is created empty by
    "CREATE TABLE IF NOT EXISTS", which leaves an existing table alone;
    "INSERT ... ON CONFLICT (timestamp) DO NOTHING" adds the row unless a
    row with the same timestamp is there; a statement on a missing table is
    an error.  Any statement may also fail for a reason of the store's own
    (connection loss, a name the server rejects): [faults] is the script of
    those failures, one entry consumed by each statement sent, an exhausted
    script meaning no failure. *)
Record World : Type := {
  tables : gmap string (list Row);
  faults : list bool;
  calls : nat;                 (* remote calls made so far *)
  trace : list Event
}.

(** Modelled from the spec: the quote service client is not code of this
    repository.  A context answers the [n]-th call it receives, by the
    call's arguments, with raw points or an error. *)
Definition QuoteContext : Type :=
  nat -> string -> Period -> AdjustType -> Time -> Time ->
  list quote.Candlestick + error.

(** Computations: they read and change the world, and may panic. *)
Definition M (A : Type) : Type := World -> Go (A * World).

Definition ret {A} (a : A) : M A := fun w => Return (a, w).

Definition bind {A B} (m : M A) (k : A -> M B) : M B :=
  fun w =>
    match m w with
    | Return (a, w') => k a w'
    | Panic why => Panic why
    end.

Definition lift {A} (g : Go A) : M A :=
  fun w =>
    match g with
    | Return a => Return (a, w)
    | Panic why => Panic why
    end.

(** The world after the event [e]. *)
Definition logged (e : Event) (w : World) : World :=
  {| tables := tables w; faults := faults w;
     calls := calls w; trace := trace w ++ [e] |}.

Definition emit (e : Event) : M unit := fun w => Return (tt, logged e w).

Definition Printf (l : Line) : M unit := emit (Print l).

End Data.

Notation "'let*' x ':=' m 'in' k" := (bind m (fun x => k))
  (at level 10, x name, m at level 100, k at level 200).
Notation "m ';;' k" := (bind m (fun _ => k))
  (at level 100, k at level 200, right associativity).

(** ** The store client

    The operations of [*sql.DB] and [*sql.Stmt] that the programs call, on
    the store described at [World].  The handle [db] is the world itself. *)

Section Store.
Context `{DecimalLib}.

Definition set_tables (t : gmap string (list Row)) (w : World) : World :=
  {| tables := t; faults := faults w; calls := calls w; trace := trace w |}.

Definition set_faults (f : list bool) (w : World) : World :=
  {| tables := tables w; faults := f; calls := calls w; trace := trace w |}.

(** Whether the store fails the next statement it receives. *)
Definition failing (w : World) : bool :=
  match faults w with f :: _ => f | [] => false end.

(** The world after the statement [s] was sent. *)
Definition sent (s : Statement) (w : World) : World :=
  {| tables := tables w; faults := tail (faults w);
     calls := calls w; trace := trace w ++ [Sql s] |}.

(** Sends a statement: it is recorded, and the next entry of the failure
    script tells whether the store fails it. *)
Definition send_statement (s : Statement) : M bool :=
  fun w => Return (failing w, sent s w).

Definition store_failure : error := "store: statement failed".
Definition no_such_table : error := "store: relation does not exist".

(** [has_timestamp ts rows]: some row of [rows] has the key [ts]. *)
Definition has_timestamp (ts : Time) (rows : list Row) : bool :=
  existsb (fun r => Z.eqb (col_timestamp r) ts) rows.

(** The effect of INSERT ... ON CONFLICT (timestamp) DO NOTHING on the
    rows of a table. *)
Definition on_conflict_do_nothing (r : Row) (rows : list Row) : list Row :=
  if has_timestamp (col_timestamp r) rows then rows else rows ++ [r].

(** [db.Exec] of the CREATE TABLE IF NOT EXISTS statement. *)
Definition db_Exec_create (table : string) : M (option error) :=
  let* failed := send_statement (CreateTableIfNotExists table) in
  if failed then ret (Some store_failure)
  else fun w =>
    match tables w !! table with
    | Some _ => Return (None, w)
    | None => Return (None, set_tables (<[table := []]> (tables w)) w)
    end.

(** [db.Prepare] of a statement on [table]: the server parses it, and
    rejects it when the table is missing. *)
Definition db_Prepare (s : Statement) (table : string) : M (option error) :=
  let* failed := send_statement s in
  if failed then ret (Some store_failure)
  else fun w =>
    match tables w !! table with
    | Some _ => Return (None, w)
    | None => Return (Some no_such_table, w)
    end.

(** [insertStmt.Exec] of INSERT ... ON CONFLICT (timestamp) DO NOTHING. *)
Definition stmt_Exec_insert (table : string) (r : Row) : M (option error) :=
  let* failed := send_statement (ExecInsert table r) in
  if failed then ret (Some store_failure)
  else fun w =>
    match tables w !! table with
    | Some rows =>
        Return (None, set_tables (<[table := on_conflict_do_nothing r rows]> (tables w)) w)
    | None => Return (Some no_such_table, w)
    end.

(** [existsStmt.QueryRow(ts).Scan(&exists)] of
    SELECT EXISTS(SELECT 1 FROM table WHERE timestamp = $1). *)
Definition stmt_QueryRow_exists (table : string) (ts : Time) : M (bool + error) :=
  let* failed := send_statement (QueryExists table ts) in
  if failed then ret (inr store_failure)
  else fun w =>
    match tables w !! table with
    | Some rows => Return (inl (has_timestamp ts rows), w)
    | None => Return (inr no_such_table, w)
    end.

(** The parameters of the INSERT statement, from a record. *)
Definition row_of (c : Candlestick) : Row :=
  {| col_timestamp := Timestamp c; col_open := Open c; col_close := Close c;
     col_high := High c; col_low := Low c; col_volume := Volume c;
     col_turnover := Turnover c |}.

(** The world after one more call of the quote service. *)
Definition called (symbol : string) (start end_ : Time) (w : World) : World :=
  {| tables := tables w; faults := faults w; calls := S (calls w);
     trace := trace w ++ [Call symbol start end_] |}.

(** [accCtx.HistoryCandlesticksByDate(ctx, symbol, period, adjust, &start, &end)]. *)
Definition HistoryCandlesticksByDate (qctx : QuoteContext) (symbol : string)
    (period : Period) (adjustType : AdjustType) (start end_ : Time)
    : M (list quote.Candlestick + error) :=
  fun w =>
    Return (qctx (calls w) symbol period adjustType start end_,
            called symbol start end_ w).

(** [for _, x := range xs { s = body(x, s) }]. *)
Fixpoint range {A S : Type} (xs : list A) (body : A -> S -> M S) (s : S) : M S :=
  match xs with
  | [] => ret s
  | x :: xs' => let* s' := body x s in range xs' body s'
  end.

(** The same loop for code that touches nothing outside but may panic. *)
Fixpoint range_go {A S : Type} (xs : list A) (body : A -> S -> Go S) (s : S) : Go S :=
  match xs with
  | [] => Return s
  | x :: xs' => let! s' := body x s in range_go xs' body s'
  end.

(** [len(xs)] as an [int]. *)
Definition len {A} (xs : list A) : Z := Z.of_nat (length xs).

Definition getPeriodFromConfig (periodStr : string) : Period :=
  if String.eqb periodStr "OneMinute" then PeriodOneMinute
  else if String.eqb periodStr "FiveMinute" then PeriodFiveMinute
  else if String.eqb periodStr "FifteenMinute" then PeriodFifteenMinute
  else if String.eqb periodStr "ThirtyMinute" then PeriodThirtyMinute
  else PeriodOneMinute.

Definition getAdjustTypeFromConfig (adjustStr : string) : AdjustType :=
  if String.eqb adjustStr "No" then AdjustTypeNo
  else if String.eqb adjustStr "ForwardAdjust" then AdjustTypeForward
  else AdjustTypeNo.

End Store.

(** ** The sequential program *)

Module Sequential.
Section Program.
Context `{DecimalLib}.
Context {unicode : strings.Unicode}.

(** The table name both functions of this program derive:
    [strings.ToLower(strings.Split(symbol, ".")[0])]. *)
Definition tableName (symbol : string) : Go string :=
  let! tableName := index (strings.Split symbol dot) 0 in
  Return (strings.ToLower tableName).

(** The body of the loop over the records. *)
Definition insert_one (tableName : string) (c : Candlestick) (_ : unit) : M unit :=
  let* found := stmt_QueryRow_exists tableName (Timestamp c) in
  match found with
  | inr e => Printf (LExistenceCheckFailed e)       (* continue *)
  | inl true => ret tt                              (* continue *)
  | inl false =>
      let* err := stmt_Exec_insert tableName (row_of c) in
      match err with
      | Some e => Printf (LInsertFailed e)
      | None => ret tt
      end
  end.

Definition InsertCandlesticks (symbol : string) (candlesticks : list Candlestick)
    : M (option error) :=
  let* tableName := lift (tableName symbol) in
  let* err := db_Prepare (PrepareExists tableName) tableName in
  match err with
  | Some e => ret (Some e)
  | None =>
      let* err := db_Prepare (PrepareInsert tableName) tableName in
      match err with
      | Some e => ret (Some e)
      | None =>
          range candlesticks (insert_one tableName) tt ;;
          ret None
      end
  end.

Definition EnsureTable (symbol : string) : M (option error) :=
  let* tableName := lift (tableName symbol) in
  db_Exec_create tableName.

(** [p.InexactFloat64()] through a pointer: nil panics. *)
Definition deref_float (p : option Decimal) : Go float64 :=
  match p with
  | Some d => Return (InexactFloat64 d)
  | None => Panic NilDereference
  end.

(** The conversion loop of [main]; it reads every price and the turnover
    without a nil check. *)
Definition convert (symbol : string) (candlesticks : list quote.Candlestick)
    : Go (list Candlestick) :=
  range_go candlesticks (fun c records =>
    let! open := deref_float (quote.Open c) in
    let! close := deref_float (quote.Close c) in
    let! high := deref_float (quote.High c) in
    let! low := deref_float (quote.Low c) in
    let! turnover := deref_float (quote.Turnover c) in
    Return (records ++ [{| Symbol := symbol;
                           Timestamp := time_Unix (quote.Timestamp c);
                           Open := open; Close := close; High := high; Low := low;
                           Volume := quote.Volume c; Turnover := turnover |}])) [].

(** The body of the date loop, for one date; [currentTask] is threaded. *)
Definition one_date (qctx : QuoteContext) (period : Period) (adjustType : AdjustType)
    (totalTasks : Z) (symbol : string) (date : Time) (currentTask : Z) : M Z :=
  let currentTask := add64 currentTask 1 in
  Printf (LSeqProgress currentTask totalTasks symbol date) ;;
  let start := on_day_of date 0 0 0 in
  let end_ := on_day_of date 23 59 59 in
  let* r := HistoryCandlesticksByDate qctx symbol period adjustType start end_ in
  match r with
  | inr e => Printf (LSeqFetchFailed e) ;; ret currentTask          (* continue *)
  | inl candlesticks =>
      let* records := lift (convert symbol candlesticks) in
      let* err := InsertCandlesticks symbol records in
      match err with
      | Some e => Printf (LSeqDbInsertFailed e) ;; ret currentTask  (* continue *)
      | None => Printf (LSeqDone (len records)) ;; ret currentTask
      end
  end.

(** The body of the symbol loop. *)
Definition one_symbol (qctx : QuoteContext) (period : Period) (adjustType : AdjustType)
    (totalTasks : Z) (dates : list Time) (symbol : string) (currentTask : Z) : M Z :=
  Printf (LSeqStartSymbol symbol) ;;
  let* err := EnsureTable symbol in
  match err with
  | Some e => Printf (LCreateTableFailed e) ;; ret currentTask      (* continue *)
  | None =>
      let* currentTask :=
        range dates (one_date qctx period adjustType totalTasks symbol) currentTask in
      Printf (LSeqSymbolDone symbol) ;; ret currentTask
  end.

(** [main], from the point where the configuration is loaded and the
    store and quote contexts are open (a failure before that point ends
    the process through [log.Fatal]). *)
Definition main (symbols : list string) (dates : list Time)
    (periodStr adjustStr : string) (qctx : QuoteContext) : M unit :=
  let period := getPeriodFromConfig periodStr in
  let adjustType := getAdjustTypeFromConfig adjustStr in
  Printf (LBanner (len symbols) (len dates) (mul64 (len symbols) (len dates))) ;;
  let totalTasks := mul64 (len symbols) (len dates) in
  let currentTask := 0 in
  let* _ := range symbols (one_symbol qctx period adjustType totalTasks dates) currentTask in
  Printf LAllSaved ;;
  Printf (LSeqTotal totalTasks).

End Program.
End Sequential.

(** ** The limiter and the pool of the pipeline's [main] *)

Definition Second : Duration := 1000000000.

(** [interval] of [main], the period of the limiter's ticker:
    [time.Second / time.Duration(rps)], after the fallback for [rps]. *)
Definition main_interval (acc_RPS : Z) : Duration :=
  let rps := acc_RPS in
  let rps := if rps <=? 0 then 10 else rps in
  Z.quot Second rps.

(** [threads] of [main], the number of workers it starts. *)
Definition main_threads (acc_Threads : Z) : Z :=
  let threads := acc_Threads in
  if threads <=? 0 then 5 else threads.

(** [time.NewTicker(d)] of the Go library: it panics unless [d] is
    positive. *)
Definition time_NewTicker (d : Duration) : Go unit :=
  if d <=? 0 then Panic NonPositiveInterval else Return tt.

(** The value of a 32-bit two's-complement integer. *)
Definition wrap32 (z : Z) : Z := (z + 2 ^ 31) mod 2 ^ 32 - 2 ^ 31.

(** [wg.Add(delta)] on a fresh [sync.WaitGroup] of the Go library, before
    [delta] workers are started that each end with [wg.Done()].  The
    counter of a WaitGroup has 32 bits.  [Add] panics when the counter it
    leaves is negative.  When the counter is not negative but has lost
    bits of [delta], fewer workers are counted than are started: [wg.Wait]
    returns before the workers are done and a [wg.Done] finds the counter
    at zero, and the run is not described further. *)
Definition wg_Add (delta : Z) : Go unit :=
  let v := wrap32 delta in
  if v <? 0 then Panic NegativeWaitGroupCounter
  else if v =? delta then Return tt
  else Panic WaitGroupCounterLost.

(** ** The concurrent pipeline *)

Module Pipeline.
Section Program.
Context `{DecimalLib}.
Context {unicode : strings.Unicode}.

(** What the Go runtime of the platform allows for the buffer of a
    channel, in bytes: its [maxAlloc - hchanSize] (below 2^48 on the 64-bit
    platforms). *)
Variable max_chan_bytes : Z.

Record job : Type := { symbol : string; date : Time }.

Record RetryConfig : Type := {
  MaxAttempts : Z;
  BaseDelayMS : Z;
  MaxDelayMS : Z
}.

Definition safeTableName (symbol : string) : Go string :=
  let! base := index (strings.Split symbol dot) 0 in
  let! region := index (strings.Split symbol dot) 1 in
  let name := strings.ToLower base in
  let regionName := strings.ToLower region in
  Return (name +:+ "_" +:+ regionName).

Definition EnsureTable (symbol : string) : M (option error) :=
  let* tableName := lift (safeTableName symbol) in
  db_Exec_create tableName.

(** The body of the loop over the records. *)
Definition insert_one (tableName : string) (c : Candlestick) (_ : unit) : M unit :=
  let* err := stmt_Exec_insert tableName (row_of c) in
  match err with
  | Some e => Printf (LInsertFailed e)
  | None => ret tt
  end.

Definition InsertCandlesticks (symbol : string) (candlesticks : list Candlestick)
    : M (option error) :=
  let* tableName := lift (safeTableName symbol) in
  let* err := db_Prepare (PrepareInsert tableName) tableName in
  match err with
  | Some e => ret (Some e)
  | None =>
      range candlesticks (insert_one tableName) tt ;;
      ret None
  end.

(** [retryCfg] of [main]. *)
Definition retryCfg : RetryConfig :=
  {| MaxAttempts := 3; BaseDelayMS := 500; MaxDelayMS := 2000 |}.

(** The wait before the retry that follows a failed attempt, in
    milliseconds: the variable [base] of the retry branch. *)
Definition backoff_base (cfg : RetryConfig) (attempt : Z) : Z :=
  let base := mul64 (BaseDelayMS cfg) (shl64 1 (attempt - 1)) in
  if base >? MaxDelayMS cfg then MaxDelayMS cfg else base.

(** [time.Duration(base) * time.Millisecond]. *)
Definition backoff (cfg : RetryConfig) (attempt : Z) : Duration :=
  mul64 (backoff_base cfg attempt) Millisecond.

(** The transform loop of the worker: one record per raw point that has
    its four prices, in the order of the points. *)
Definition transform_step (symbol : string) (c : quote.Candlestick)
    (records : list Candlestick) : list Candlestick :=
  match quote.Open c, quote.Close c, quote.High c, quote.Low c with
  | Some open, Some close, Some high, Some low =>
      let turnover :=
        match quote.Turnover c with
        | Some t => InexactFloat64 t
        | None => float64_zero
        end in
      records ++ [{| Symbol := symbol;
                     Timestamp := time_Unix (quote.Timestamp c);
                     Open := InexactFloat64 open;
                     Close := InexactFloat64 close;
                     High := InexactFloat64 high;
                     Low := InexactFloat64 low;
                     Volume := quote.Volume c;
                     Turnover := turnover |}]
  | _, _, _, _ => records                                     (* continue *)
  end.

Definition transform (symbol : string) (candlesticks : list quote.Candlestick)
    : list Candlestick :=
  fold_left (fun records c => transform_step symbol c records) candlesticks [].

(** The three counters of [main] that the workers share; they are only
    changed through [atomic.AddInt64]. *)
Record Counters : Type := {
  currentTask : Z;
  successCount : Z;
  failCount : Z
}.

Definition add_currentTask (c : Counters) : Counters :=
  {| currentTask := add64 (currentTask c) 1;
     successCount := successCount c; failCount := failCount c |}.

Definition add_successCount (c : Counters) : Counters :=
  {| currentTask := currentTask c;
     successCount := add64 (successCount c) 1; failCount := failCount c |}.

Definition add_failCount (c : Counters) : Counters :=
  {| currentTask := currentTask c;
     successCount := successCount c; failCount := add64 (failCount c) 1 |}.

Section Worker.
Variables (accCtx : QuoteContext) (period : Period) (adjustType : AdjustType).
Variables (cfg : RetryConfig) (totalTasks : Z).

(** The retry loop [for attempt := 1; attempt <= cfg.MaxAttempts;
    attempt++] from the value [attempt] on; [remaining] is the number of
    values of [attempt] still to try, [MaxAttempts - attempt + 1].  Every
    [break] ends the loop with the counters it has updated. *)
Fixpoint attempts (workerID : Z) (j : job) (start end_ : Time)
    (remaining : nat) (attempt : Z) (c : Counters) : M Counters :=
  match remaining with
  | O => ret c
  | S remaining' =>
      let* r := HistoryCandlesticksByDate accCtx (symbol j) period adjustType
                  start end_ in
      match r with
      | inr err =>
          if attempt <? MaxAttempts cfg then
            let d := backoff cfg attempt in
            Printf (LRetry workerID attempt (MaxAttempts cfg) err (Milliseconds d)) ;;
            emit (Sleep d) ;;
            attempts workerID j start end_ remaining' (attempt + 1) c  (* continue *)
          else
            let c := add_failCount c in
            Printf (LFailed workerID err) ;;
            ret c                                                     (* break *)
      | inl candlesticks =>
          let records := transform (symbol j) candlesticks in
          let* err := InsertCandlesticks (symbol j) records in
          match err with
          | Some e =>
              Printf (LDbInsertFailed workerID e) ;;
              ret (add_failCount c)                                   (* break *)
          | None =>
              Printf (LDone workerID (len records)) ;;
              ret (add_successCount c)                                (* break *)
          end
      end
  end.

(** The body of a worker's [for j := range jobs], for one job. *)
Definition process (workerID : Z) (j : job) (c : Counters) : M Counters :=
  emit LimiterTick ;;
  let c := add_currentTask c in
  Printf (LProgress (currentTask c) totalTasks workerID (symbol j) (date j)) ;;
  let start := on_day_of (date j) 0 0 0 in
  let end_ := on_day_of (date j) 23 59 59 in
  attempts workerID j start end_ (Z.to_nat (MaxAttempts cfg)) 1 c.

(** The loop [for j := range jobs] of the worker [workerID], over the jobs
    it receives from the channel, in the order it receives them. *)
Definition worker (workerID : Z) (received : list job) (c : Counters) : M Counters :=
  range received (process workerID) c.

(** The pool draining the closed channel, in one of its schedules.  Jobs
    leave the channel in the order they were sent; the [k]-th of them is
    taken by the worker [sched k mod threads + 1], for an arbitrary [sched],
    and its body runs to the end before the next job starts.  The real
    workers run the bodies of different jobs at the same time: the order in
    which the events of different jobs follow each other, and the number a
    remote call gets, are those of this schedule only.  What is proved of
    [pool] and of [main] is about what does not depend on that order: how
    often the limiter is passed and the service called, what the counters
    add up to, and whether a run changes the tables. *)
Fixpoint pool (threads : Z) (sched : nat -> Z) (k : nat) (queue : list job)
    (c : Counters) : M Counters :=
  match queue with
  | [] => ret c
  | j :: queue' =>
      let* c' := process (sched k mod threads + 1) j c in
      pool threads sched (S k) queue' c'
  end.

End Worker.

(** A buffered channel of jobs before any receiver runs: the buffer and
    its capacity.  A send on a full buffer would wait for ever. *)
Record chan : Type := { buf : list job; cap : Z }.

(** The size of a [job] in bytes on the 64-bit platforms: a string (a
    pointer and a length) and a [time.Time] (two 64-bit words and a
    pointer). *)
Definition sizeof_job : Z := 40.

(** [make(chan job, n)]: the runtime panics (makechan: size out of range)
    for a negative size, and for a buffer whose size in bytes overflows a
    machine word or is above what it allows. *)
Definition make_chan (n : Z) : Go chan :=
  let mem := sizeof_job * n in
  if (n <? 0) || (2 ^ 64 <=? mem) || (max_chan_bytes <? mem) then Panic MakeChanSize
  else Return {| buf := []; cap := n |}.

Definition send (ch : chan) (j : job) : Go chan :=
  if len (buf ch) <? cap ch then Return {| buf := buf ch ++ [j]; cap := cap ch |}
  else Panic Deadlock.

(** The two loops that fill the channel. *)
Definition fill (symbols : list string) (dates : list Time) (jobs : chan) : Go chan :=
  range_go symbols (fun symbol jobs =>
    range_go dates (fun date jobs =>
      send jobs {| symbol := symbol; date := date |}) jobs) jobs.

(** The body of the loop that creates the tables: a failure is printed,
    and nothing else is done about it. *)
Definition ensure_one (symbol : string) (_ : unit) : M unit :=
  let* err := EnsureTable symbol in
  match err with
  | Some e => Printf (LCreateTableFailed e)
  | None => ret tt
  end.

(** [main], from the point where the configuration is loaded and the store
    is open; the account (its [Threads] and [RPS]) and the quote context,
    which the program sets up after the tables, are taken as arguments (a
    failure to load either ends the process through [log.Fatalf]).  The
    result is the final value of the counters, which the last line prints. *)
Definition main (symbols : list string) (dates : list Time)
    (periodStr adjustStr : string) (acc_Threads acc_RPS : Z)
    (accCtx : QuoteContext) (sched : nat -> Z) : M Counters :=
  let period := getPeriodFromConfig periodStr in
  let adjustType := getAdjustTypeFromConfig adjustStr in
  Printf (LBanner (len symbols) (len dates) (mul64 (len symbols) (len dates))) ;;
  range symbols ensure_one tt ;;
  let totalTasks := mul64 (len symbols) (len dates) in
  let* jobs := lift (let! jobs := make_chan totalTasks in
                     fill symbols dates jobs) in
  let interval := main_interval acc_RPS in
  lift (time_NewTicker interval) ;;
  let threads := main_threads acc_Threads in
  lift (wg_Add threads) ;;
  let* c := pool accCtx period adjustType retryCfg totalTasks threads sched 0
              (buf jobs)
              {| currentTask := 0; successCount := 0; failCount := 0 |} in
  Printf LAllSaved ;;
  Printf (LSummary (successCount c) (failCount c) totalTasks) ;;
  ret c.

End Program.
End Pipeline.

(** ** Vocabulary of the specifications *)

Section Vocabulary.
Context `{DecimalLib}.
Context {unicode : strings.Unicode}.

(** [total m w Q]: from the world [w] the computation [m] returns (it does
    not panic), with a result and a world that satisfy [Q]. *)
Definition total {A} (m : M A) (w : World) (Q : A -> World -> Prop) : Prop :=
  exists a w', m w = Return (a, w') /\ Q a w'.

Definition is_tick (e : Event) : bool :=
  match e with LimiterTick => true | _ => false end.

Definition is_call (e : Event) : bool :=
  match e with Call _ _ _ => true | _ => false end.

(** The limiter admissions and the remote calls among some events. *)
Definition admissions (evs : list Event) : nat := length (List.filter is_tick evs).
Definition fetches (evs : list Event) : nat := length (List.filter is_call evs).

(** The waits among some events, in order. *)
Definition sleeps (evs : list Event) : list Duration :=
  omap (fun e => match e with Sleep d => Some d | _ => None end) evs.

(** The statements sent to the store among some events, in order. *)
Definition statements (evs : list Event) : list Statement :=
  omap (fun e => match e with Sql s => Some s | _ => None end) evs.

(** The lines printed among some events, in order. *)
Definition printed (evs : list Event) : list Line :=
  omap (fun e => match e with Print l => Some l | _ => None end) evs.

(** Events of the store client and of the log only. *)
Definition store_event (e : Event) : bool :=
  match e with Print _ | Sql _ => true | _ => false end.

(** Every table keeps the primary-key constraint: no two rows of a table
    have the same timestamp. *)
Definition unique_timestamps (t : gmap string (list Row)) : Prop :=
  forall name rows, t !! name = Some rows -> NoDup (col_timestamp <$> rows).

(** Every row of every table of [t] is still there, unchanged and at the
    same place, in [t']. *)
Definition rows_kept (t t' : gmap string (list Row)) : Prop :=
  forall name rows, t !! name = Some rows ->
    exists rows', t' !! name = Some rows' /\ rows `prefix_of` rows'.

(** The rows of a table after the insert statement has run, without
    failure, for each of some records in order. *)
Definition insert_all (cs : list Candlestick) (rows : list Row) : list Row :=
  fold_left (fun rows c => on_conflict_do_nothing (row_of c) rows) cs rows.

(** The failures, among the entries of a failure script that the next [n]
    statements consume. *)
Definition failures (n : nat) (script : list bool) : list bool :=
  filter (fun f => f = true) (take n script).

(** Whether preparing a statement on [table] fails in the world [w]: the
    store fails the statement, or the table is missing. *)
Definition prepare_fails (table : string) (w : World) : bool :=
  failing w || match tables w !! table with Some _ => false | None => true end.

(** What idempotence of an insert function [Insert] means at a symbol
    whose table is [table], from a world [w]: the function returns; run
    again on the same records, under any failure script, it returns and
    leaves every table as the first run left it; the tables still have
    one row per timestamp and every row they had before; when the table
    was there the first run reports no error and the table holds its old
    rows followed by the records with new timestamps; and a second run
    that the store does not fail reports what the first reported and logs
    nothing. *)
Definition idempotent_insert
    (Insert : string -> list Candlestick -> M (option error))
    (table symbol : string) (cs : list Candlestick) (w : World)
    (script : list bool) : Prop :=
  exists r1 w1 r2 w2 evs,
    Insert symbol cs w = Return (r1, w1) /\
    Insert symbol cs (set_faults script w1) = Return (r2, w2) /\
    tables w2 = tables w1 /\
    unique_timestamps (tables w1) /\
    rows_kept (tables w) (tables w1) /\
    (forall rows, tables w !! table = Some rows ->
       r1 = None /\ tables w1 = <[table := insert_all cs rows]> (tables w)) /\
    trace w2 = trace w1 ++ evs /\
    (script = [] -> r2 = r1 /\ printed evs = []).

(** What the proofs of idempotence need from an insert function, for a
    symbol whose table is [table]: it returns; it changes at most that
    table, by adding rows after the ones it has, keeping the timestamps
    distinct; when the store fails no statement, it adds exactly the
    records with new timestamps and logs nothing; and when every record's
    timestamp is there already, it adds nothing. *)
Definition insert_contract
    (Insert : string -> list Candlestick -> M (option error))
    (table symbol : string) : Prop :=
  forall cs w,
    total (Insert symbol cs) w (fun r w' =>
      exists evs,
        trace w' = trace w ++ evs /\
        (faults w = [] -> faults w' = [] /\ printed evs = []) /\
        match tables w !! table with
        | None => tables w' = tables w /\ (faults w = [] -> r = Some no_such_table)
        | Some rows =>
            exists rows',
              tables w' = <[table := rows']> (tables w) /\
              rows `prefix_of` rows' /\
              (NoDup (col_timestamp <$> rows) -> NoDup (col_timestamp <$> rows')) /\
              (faults w = [] -> r = None /\ rows' = insert_all cs rows) /\
              ((forall c, c ∈ cs -> has_timestamp (Timestamp c) rows = true) ->
               rows' = rows)
        end).

(** The reading of section 4.3 of the spec in which every attempt passes
    the limiter: the events of a job have as many admissions as remote
    calls. *)
Definition admission_before_each_attempt : Prop :=
  forall (accCtx : QuoteContext) (period : Period) (adjustType : AdjustType)
         (totalTasks workerID : Z) (j : Pipeline.job) (c c' : Pipeline.Counters)
         (w w' : World) (evs : list Event),
    Pipeline.process accCtx period adjustType Pipeline.retryCfg totalTasks workerID j c w
      = Return (c', w') ->
    trace w' = trace w ++ evs ->
    admissions evs = fetches evs.

(** What inserting the records [cs] into the table [t] may do to the
    store between the worlds [w] and [w']: only that table changes, by
    rows added after the ones it has, with distinct timestamps kept; a store
    that fails nothing adds exactly the records with new timestamps; and
    nothing is added when every timestamp is there already. *)
Definition table_grows (t : string) (cs : list Candlestick) (w w' : World) : Prop :=
  (faults w = [] -> faults w' = []) /\
  match tables w !! t with
  | None => tables w' = tables w
  | Some rows =>
      exists rows',
        tables w' = <[t := rows']> (tables w) /\
        rows `prefix_of` rows' /\
        (NoDup (col_timestamp <$> rows) -> NoDup (col_timestamp <$> rows')) /\
        (faults w = [] -> rows' = insert_all cs rows) /\
        ((forall c, c ∈ cs -> has_timestamp (Timestamp c) rows = true) -> rows' = rows)
  end.

(** A quote service whose answers do not depend on the calls made before:
    the same remote data at every attempt and every run. *)
Definition stable (accCtx : QuoteContext) : Prop :=
  forall n m symbol period adjustType start end_,
    accCtx n symbol period adjustType start end_ =
    accCtx m symbol period adjustType start end_.

(** The records of the job [j] are stored in [tbls]: when the service
    answers the job with points, the table of its symbol is there and has a
    row for the timestamp of every record made from the points. *)
Definition job_stored (accCtx : QuoteContext) (period : Period)
    (adjustType : AdjustType) (tbls : gmap string (list Row)) (j : Pipeline.job)
    : Prop :=
  forall pts t,
    accCtx 0%nat (Pipeline.symbol j) period adjustType
      (on_day_of (Pipeline.date j) 0 0 0) (on_day_of (Pipeline.date j) 23 59 59)
      = inl pts ->
    Pipeline.safeTableName (Pipeline.symbol j) = Return t ->
    exists rows,
      tbls !! t = Some rows /\
      forall c, c ∈ Pipeline.transform (Pipeline.symbol j) pts ->
                has_timestamp (Timestamp c) rows = true.

(** The tables of all the symbols [symbols] are there. *)
Definition tables_exist (symbols : list string) (tbls : gmap string (list Row)) : Prop :=
  forall s t, s ∈ symbols -> Pipeline.safeTableName s = Return t -> is_Some (tbls !! t).

Definition failed_fetch (r : list quote.Candlestick + error) : bool :=
  match r with inr _ => true | inl _ => false end.

(** A raw point has its four prices. *)
Definition complete (c : quote.Candlestick) : bool :=
  bool_decide (is_Some (quote.Open c)) && bool_decide (is_Some (quote.Close c)) &&
  bool_decide (is_Some (quote.High c)) && bool_decide (is_Some (quote.Low c)).

(** The record the spec asks for from a raw point (section 4.4): none when
    a price is absent; otherwise the prices converted, the turnover
    converted or zero when absent, the volume as it is and the timestamp
    as an instant. *)
Definition record_of_point (symbol : string) (c : quote.Candlestick)
    : option Candlestick :=
  o ← quote.Open c; cl ← quote.Close c; h ← quote.High c; l ← quote.Low c;
  Some {| Symbol := symbol;
          Timestamp := time_Unix (quote.Timestamp c);
          Open := InexactFloat64 o; Close := InexactFloat64 cl;
          High := InexactFloat64 h; Low := InexactFloat64 l;
          Volume := quote.Volume c;
          Turnover := from_option InexactFloat64 float64_zero (quote.Turnover c) |}.

(** The cross product the spec asks for (section 4.1): every symbol with
    every date, symbols outermost. *)
Definition cross_product (symbols : list string) (dates : list Time)
    : list Pipeline.job :=
  s ← symbols; d ← dates; [ {| Pipeline.symbol := s; Pipeline.date := d |} ].

End Vocabulary.

(** ** Further vocabulary *)

Section MoreVocabulary.
Context `{DecimalLib}.
Context {unicode : strings.Unicode}.

(** A raw point has its four prices and its turnover. *)
Definition has_all_values (c : quote.Candlestick) : bool :=
  complete c && bool_decide (is_Some (quote.Turnover c)).

(** A quote service that never answers with a point that lacks a price or
    the turnover. *)
Definition answers_have_all_values (qctx : QuoteContext) : Prop :=
  forall n symbol period adjustType start end_ pts,
    qctx n symbol period adjustType start end_ = inl pts ->
    forallb has_all_values pts = true.

(** A computation that makes no remote call: it returns, and the number of
    calls made so far is as before. *)
Definition makes_no_call {A} (m : M A) : Prop :=
  forall w, total m w (fun _ w' => calls w' = calls w).


(** What a run of an insert function on the records [cs] may do to the
    tables, for the table name [t]: no other table is touched, no table
    appears or disappears, and the table [t] keeps its rows and gains, after
    them, rows of the records only, in the order of the records and at most
    one per record. *)
Definition adds_only (t : string) (cs : list Candlestick)
    (tbls tbls' : gmap string (list Row)) : Prop :=
  (forall name, name <> t -> tbls' !! name = tbls !! name) /\
  match tbls !! t with
  | None => tbls' !! t = None
  | Some rows =>
      exists extra,
        tbls' !! t = Some (rows ++ extra) /\ extra `sublist_of` (row_of <$> cs)
  end.


(** [n] jobs fit in a channel of a platform that allows [max_chan_bytes]
    bytes for its buffer (a number of bytes is a machine word). *)
Definition fits_chan (max_chan_bytes n : Z) : Prop :=
  Pipeline.sizeof_job * n <= max_chan_bytes < 2 ^ 64.

(** The configuration lets [main] of the pipeline reach its workers: every
    symbol has a dot, the jobs fit in a channel, the rate gives the ticker
    a positive period, and the WaitGroup can count the workers. *)
Definition main_starts (max_chan_bytes : Z) (symbols : list string)
    (dates : list Time) (acc_Threads acc_RPS : Z) : Prop :=
  Forall (fun s => contains_byte s dot = true) symbols /\
  fits_chan max_chan_bytes (len symbols * len dates) /\
  acc_RPS <= 1000000000 /\
  main_threads acc_Threads < 2 ^ 31.

End MoreVocabulary.

(** ** Package [appconfig] *)

Module appconfig.

(** [type Config struct], the content of config.yaml; the two fields of
    [Settings] are flattened. *)
Record Config : Type := {
  Symbols : list string;
  Dates : list string;
  Settings_Period : string;
  Settings_AdjustType : string
}.

Section ParseDates.

(** [time.Parse("2006-01-02", dateStr)] of the Go library: an instant or
    an error. *)
Variable Parse : string -> Time + error.

(** The loop of [ParseDates] over the strings still to read, with the
    dates appended so far; a string that does not parse ends the function
    with a nil slice and the wrapped error. *)
Fixpoint parse_from (dateStrs : list string) (dates : list Time)
    : list Time * option error :=
  match dateStrs with
  | [] => (dates, None)
  | dateStr :: rest =>
      match Parse dateStr with
      | inr err => ([], Some ("解析日期 " +:+ dateStr +:+ " 失败: " +:+ err))
      | inl date => parse_from rest (dates ++ [date])
      end
  end.

Definition ParseDates (c : Config) : list Time * option error :=
  parse_from (Dates c) [].

End ParseDates.

(** [type AccountConfig struct]. *)
Record AccountConfig : Type := {
  Name : string;
  AppKey : string;
  AppSecret : string;
  AccessToken : string;
  Region : string;
  Threads : Z;
  RPS : Z;
  TimeoutMS : Z
}.

(** [type longportYAML struct], the content of longport.yaml. *)
Record longportYAML : Type := {
  Longport_AppKey : string;
  Longport_AppSecret : string;
  Longport_AccessToken : string;
  Longport_Region : string;
  Longport_Threads : Z;
  Longport_RPS : Z;
  Longport_TimeoutMS : Z
}.

(** [var out AccountConfig]: the zero value. *)
Definition zero_AccountConfig : AccountConfig :=
  {| Name := EmptyString; AppKey := EmptyString; AppSecret := EmptyString;
     AccessToken := EmptyString; Region := EmptyString;
     Threads := 0; RPS := 0; TimeoutMS := 0 |}.

Section LoadLongportAccount.

(** [os.ReadFile] and [yaml.Unmarshal] into a zero [longportYAML], of the
    libraries. *)
Variable ReadFile : string -> string + error.
Variable Unmarshal : string -> longportYAML + error.

Definition LoadLongportAccount (path : string) : AccountConfig * option error :=
  let out := zero_AccountConfig in
  match ReadFile path with
  | inr err => (out, Some err)
  | inl data =>
      match Unmarshal data with
      | inr err => (out, Some err)
      | inl cfg =>
          let threads := Longport_Threads cfg in
          let threads := if threads <=? 0 then 5 else threads in
          let rps := Longport_RPS cfg in
          let rps := if rps <=? 0 then 10 else rps in
          let timeout := Longport_TimeoutMS cfg in
          let timeout := if timeout <=? 0 then 10000 else timeout in
          ({| Name := "default";
              AppKey := Longport_AppKey cfg;
              AppSecret := Longport_AppSecret cfg;
              AccessToken := Longport_AccessToken cfg;
              Region := Longport_Region cfg;
              Threads := threads;
              RPS := rps;
              TimeoutMS := timeout |}, None)
      end
  end.

End LoadLongportAccount.

End appconfig.

(** ** Package [dbconn] *)

Module dbconn.

Record Config : Type := {
  Host : string;
  Port : Z;
  User : string;
  Password : string;
  Name : string;
  SSLMode : string
}.

(** The verb [%d] of [fmt.Sprintf] on an [int]: its decimal digits, after
    a minus sign when it is negative. *)
Definition fmt_d (n : Z) : string :=
  DecimalString.NilZero.string_of_int (Z.to_int n).

(** [DSN]: the verb [%s] copies its string as it is. *)
Definition DSN (cfg : Config) : string :=
  "user=" +:+ User cfg +:+ " password=" +:+ Password cfg +:+
  " dbname=" +:+ Name cfg +:+ " host=" +:+ Host cfg +:+
  " port=" +:+ fmt_d (Port cfg) +:+ " sslmode=" +:+ SSLMode cfg.

End dbconn.

(** No field of a database configuration contains a space. *)
Definition space_free (cfg : dbconn.Config) : bool :=
  negb (contains_byte (dbconn.User cfg) " "%char) &&
  negb (contains_byte (dbconn.Password cfg) " "%char) &&
  negb (contains_byte (dbconn.Name cfg) " "%char) &&
  negb (contains_byte (dbconn.Host cfg) " "%char) &&
  negb (contains_byte (dbconn.SSLMode cfg) " "%char).

(** ** Data for the examples *)

(** A decimal library in which decimals and floats are integers and the
    conversion keeps the number. *)
Definition plain_decimals : DecimalLib :=
  {| Decimal := Z; float64 := Z; InexactFloat64 := fun d => d; float64_zero := 0 |}.

(** A Unicode library that leaves text with a non-ASCII byte as it is. *)
Definition plain_unicode : strings.Unicode :=
  {| strings.Map_ToLower := fun s => s |}.

(** What the runtime allows for a channel is below 2^48 bytes on the
    64-bit platforms, where its [maxAlloc] is 2^48; the examples take this
    bound.  (A smaller limit accepts fewer sizes, and gives the same runs
    for the sizes it accepts.) *)
Definition chan_bytes_bound : Z := 2 ^ 48.

(** A store without tables, that fails no statement. *)
Definition empty_store : @World plain_decimals :=
  {| tables := ∅; faults := []; calls := 0; trace := [] |}.

(** A store with the empty table of AAPL.US. *)
Definition aapl_store : @World plain_decimals :=
  {| tables := {[ "aapl_us" := [] ]}; faults := []; calls := 0; trace := [] |}.

(** A store without tables that fails the first statement it receives. *)
Definition failing_store : @World plain_decimals :=
  {| tables := ∅; faults := [true]; calls := 0; trace := [] |}.

(** 2025-10-15, 00:00:00 UTC. *)
Definition oct_15 : Time := 1760486400.

Definition two_days : list Time := [oct_15; oct_15 + 86400].

(** 2^22 symbols and 2^21 dates. *)
Definition many_symbols : list string := replicate (Z.to_nat (2 ^ 22)) "AAPL.US".
Definition many_dates : list Time := replicate (Z.to_nat (2 ^ 21)) oct_15.

Definition aapl_job : Pipeline.job :=
  {| Pipeline.symbol := "AAPL.US"; Pipeline.date := oct_15 |}.

Definition no_counts : Pipeline.Counters :=
  {| Pipeline.currentTask := 0; Pipeline.successCount := 0; Pipeline.failCount := 0 |}.

(** A raw point, from its open, close, high and low, its volume, its
    turnover and its timestamp. *)
Definition point (o c h l : option Z) (v : Z) (t : option Z) (ts : Z)
    : @quote.Candlestick plain_decimals :=
  @quote.Build_Candlestick plain_decimals c o l h v t ts.

(** Two complete points, and between them one without its high. *)
Definition three_points : list (@quote.Candlestick plain_decimals) :=
  [ point (Some 100) (Some 101) (Some 102) (Some 99) 5000 (Some 505000) 1760535000;
    point (Some 101) (Some 103) None (Some 100) 4000 (Some 408000) 1760535060;
    point (Some 103) (Some 102) (Some 104) (Some 101) 3000 None 1760535120 ].

(** A quote service whose first answer is an error and which then answers
    with the three points. *)
Definition fails_once : @QuoteContext plain_decimals :=
  fun n _ _ _ _ _ =>
    match n with
    | O => inr "timeout"
    | S _ => inl three_points
    end.

(** A quote service that always answers with an error. *)
Definition always_fails : @QuoteContext plain_decimals :=
  fun _ _ _ _ _ _ => inr "timeout".

(** A quote service that always answers with the three points. *)
Definition answers : @QuoteContext plain_decimals :=
  fun _ _ _ _ _ _ => inl three_points.

(** A record of AAPL.US. *)
Definition record (ts : Time) (o c h l : Z) (v : Z) (t : Z)
    : @Candlestick plain_decimals :=
  @Build_Candlestick plain_decimals "AAPL.US" ts o c h l v t.

(** Two records with the same timestamp, and a third. *)
Definition three_records : list (@Candlestick plain_decimals) :=
  [ record 1760535000 100 101 102 99 5000 505000;
    record 1760535000 1 1 1 1 1 1;
    record 1760535120 103 102 104 101 3000 0 ].

(** A quote service that always answers with one point that has all its
    values. *)
Definition answers_in_full : @QuoteContext plain_decimals :=
  fun _ _ _ _ _ _ =>
    inl [ point (Some 100) (Some 101) (Some 102) (Some 99) 5000 (Some 505000) 1760535000 ].

(** The database configuration of the example in package [dbconn]. *)
Definition local_db : dbconn.Config :=
  {| dbconn.Host := "127.0.0.1"; dbconn.Port := 5432; dbconn.User := "postgres";
     dbconn.Password := "secret"; dbconn.Name := "stocks";
     dbconn.SSLMode := "disable" |}.

(** * Properties *)

(** ** Splitting a symbol *)

Lemma Split_cons (s : string) (sep : ascii) :
  exists piece pieces, strings.Split s sep = piece :: pieces.
Proof.
  induction s as [|c rest IH]; simpl; [by eauto|].
  destruct (Ascii.eqb c sep); [by eauto|].
  destruct IH as (piece & pieces & ->). by eauto.
Qed.

Lemma Split_without_sep (s : string) (sep : ascii) :
  contains_byte s sep = false -> strings.Split s sep = [s].
Proof.
  induction s as [|c rest IH]; simpl; [done|].
  destruct (Ascii.eqb c sep); simpl; [done|].
  intros Hrest. by rewrite (IH Hrest).
Qed.

Lemma Split_with_sep (s : string) (sep : ascii) :
  contains_byte s sep = true ->
  exists base region pieces, strings.Split s sep = base :: region :: pieces.
Proof.
  induction s as [|c rest IH]; simpl; [done|].
  destruct (Ascii.eqb c sep); simpl.
  - intros _. destruct (Split_cons rest sep) as (piece & pieces & ->). by eauto.
  - intros Hrest. destruct (IH Hrest) as (base & region & pieces & ->). by eauto.
Qed.

Lemma Split_append (base rest : string) (sep : ascii) :
  contains_byte base sep = false ->
  strings.Split (base +:+ String sep rest) sep = base :: strings.Split rest sep.
Proof.
  induction base as [|c base IH]; simpl.
  - intros _. by rewrite Ascii.eqb_refl.
  - destruct (Ascii.eqb c sep); simpl; [done|].
    intros Hbase. by rewrite (IH Hbase).
Qed.

Lemma Sequential_tableName_returns `{strings.Unicode} (symbol : string) :
  exists name, Sequential.tableName symbol = Return name.
Proof.
  unfold Sequential.tableName, index.
  destruct (Split_cons symbol dot) as (piece & pieces & ->). simpl. by eauto.
Qed.

Lemma safeTableName_returns `{strings.Unicode} (symbol : string) :
  contains_byte symbol dot = true ->
  exists name, Pipeline.safeTableName symbol = Return name.
Proof.
  intros Hdot. unfold Pipeline.safeTableName, index.
  destruct (Split_with_sep symbol dot Hdot) as (base & region & pieces & ->).
  simpl. by eauto.
Qed.

Lemma safeTableName_panics `{strings.Unicode} (symbol : string) :
  contains_byte symbol dot = false ->
  Pipeline.safeTableName symbol = Panic IndexOutOfRange.
Proof.
  intros Hdot. unfold Pipeline.safeTableName, index.
  by rewrite (Split_without_sep symbol dot Hdot).
Qed.

Section Facts.
Context `{DecimalLib}.
Context {unicode : strings.Unicode}.

(** C10.  A symbol without a '.' makes [safeTableName] panic with an index
    out of range, and with it [EnsureTable] and [InsertCandlesticks] of the
    pipeline, whatever the world; a symbol with a '.' gets a table name.
    So the derivation returns exactly on the symbols that contain a dot. *)
Theorem safeTableName_total_only_with_dot (symbol : string) :
  if contains_byte symbol dot
  then exists name, Pipeline.safeTableName symbol = Return name
  else Pipeline.safeTableName symbol = Panic IndexOutOfRange /\
       (forall w, Pipeline.EnsureTable symbol w = Panic IndexOutOfRange) /\
       (forall candlesticks w,
          Pipeline.InsertCandlesticks symbol candlesticks w = Panic IndexOutOfRange).
Proof.
  destruct (contains_byte symbol dot) eqn:Hdot.
  - by apply safeTableName_returns.
  - pose proof (safeTableName_panics symbol Hdot) as Hpanic.
    split; [done|]. split.
    + intros w. unfold Pipeline.EnsureTable, bind, lift. by rewrite Hpanic.
    + intros cs w. unfold Pipeline.InsertCandlesticks, bind, lift. by rewrite Hpanic.
Qed.

(** In the pipeline, a symbol made of a base and a region without dots,
    joined by one, gets the lower-cased base, an underscore and the
    lower-cased region. *)
Lemma safeTableName_base_region (base region : string) :
  contains_byte base dot = false ->
  contains_byte region dot = false ->
  Pipeline.safeTableName (base +:+ "." +:+ region) =
    Return (strings.ToLower base +:+ "_" +:+ strings.ToLower region).
Proof.
  intros Hbase Hregion. unfold Pipeline.safeTableName.
  change ("." +:+ region) with (String dot region).
  rewrite (Split_append base region dot Hbase).
  by rewrite (Split_without_sep region dot Hregion).
Qed.

(** In the sequential program the same symbol gets the lower-cased base
    alone. *)
Lemma Sequential_tableName_base_region (base region : string) :
  contains_byte base dot = false ->
  Sequential.tableName (base +:+ "." +:+ region) = Return (strings.ToLower base).
Proof.
  intros Hbase. unfold Sequential.tableName.
  change ("." +:+ region) with (String dot region).
  by rewrite (Split_append base region dot Hbase).
Qed.

(** ** The transform stage *)

Lemma transform_step_spec (symbol : string) (c : quote.Candlestick)
    (records : list Candlestick) :
  Pipeline.transform_step symbol c records =
    records ++ option_list (record_of_point symbol c).
Proof.
  unfold Pipeline.transform_step, record_of_point.
  destruct (quote.Open c), (quote.Close c), (quote.High c), (quote.Low c);
    simpl; by rewrite ?app_nil_r.
Qed.

Lemma transform_fold (symbol : string) (candlesticks : list quote.Candlestick)
    (records : list Candlestick) :
  fold_left (fun records c => Pipeline.transform_step symbol c records)
    candlesticks records =
  records ++ omap (record_of_point symbol) candlesticks.
Proof.
  revert records. induction candlesticks as [|c cs IH]; intros records; simpl.
  - by rewrite app_nil_r.
  - rewrite IH, transform_step_spec, <- app_assoc. f_equal.
    by destruct (record_of_point symbol c).
Qed.

Lemma record_of_point_complete (symbol : string) (c : quote.Candlestick) :
  complete c = true <-> is_Some (record_of_point symbol c).
Proof.
  unfold complete, record_of_point.
  destruct (quote.Open c), (quote.Close c), (quote.High c), (quote.Low c); simpl;
    split; intros Hx; try done; try (by eexists); by destruct Hx.
Qed.

Lemma omap_length_filter (symbol : string) (candlesticks : list quote.Candlestick) :
  length (omap (record_of_point symbol) candlesticks) =
  length (filter (fun c => complete c = true) candlesticks).
Proof.
  induction candlesticks as [|c cs IH]; [done|].
  rewrite filter_cons. cbn [omap list_omap].
  destruct (record_of_point_complete symbol c) as [Hto Hfrom].
  destruct (record_of_point symbol c) as [r|] eqn:Hr.
  - rewrite decide_True by (apply Hfrom; by eexists). simpl. by rewrite IH.
  - rewrite decide_False; [done|].
    intros Hc. destruct (Hto Hc) as [r Hr']. done.
Qed.

(** C2.  The transform of the worker is the spec's filter and conversion:
    it yields, in order, the record of every raw point that has its four
    prices and nothing for the others (so as many records as complete
    points); a point is dropped exactly when a price is absent; and a
    produced record carries the symbol, the timestamp as an instant, the
    volume as it is, the converted prices, and the converted turnover or
    zero when the source has none. *)
Theorem transform_filters_and_converts (symbol : string)
    (candlesticks : list quote.Candlestick) :
  Pipeline.transform symbol candlesticks = omap (record_of_point symbol) candlesticks /\
  length (Pipeline.transform symbol candlesticks) =
    length (filter (fun c => complete c = true) candlesticks) /\
  (forall c, complete c = false <-> record_of_point symbol c = None) /\
  (forall c r, record_of_point symbol c = Some r ->
     Symbol r = symbol /\
     Timestamp r = time_Unix (quote.Timestamp c) /\
     Volume r = quote.Volume c /\
     Turnover r = match quote.Turnover c with
                  | Some t => InexactFloat64 t
                  | None => float64_zero
                  end) /\
  (forall c r, record_of_point symbol c = Some r ->
     InexactFloat64 <$> quote.Open c = Some (Open r) /\
     InexactFloat64 <$> quote.Close c = Some (Close r) /\
     InexactFloat64 <$> quote.High c = Some (High r) /\
     InexactFloat64 <$> quote.Low c = Some (Low r)).
Proof.
  assert (Htr : Pipeline.transform symbol candlesticks =
                omap (record_of_point symbol) candlesticks).
  { unfold Pipeline.transform. by rewrite transform_fold. }
  split; [done|]. split; [rewrite Htr; apply omap_length_filter|].
  split; [|split].
  - intros c. pose proof (record_of_point_complete symbol c) as [Hto Hfrom].
    destruct (record_of_point symbol c) as [r|] eqn:Hr.
    + split; [|done]. intros Hc. rewrite Hfrom in Hc; [done|by eexists].
    + split; [done|]. intros _. destruct (complete c); [|done].
      destruct Hto as [r Hr']; done.
  - intros c r. unfold record_of_point.
    destruct (quote.Open c), (quote.Close c), (quote.High c), (quote.Low c);
      simpl; intros [= <-]; simpl.
    by destruct (quote.Turnover c).
  - intros c r. unfold record_of_point.
    destruct (quote.Open c), (quote.Close c), (quote.High c), (quote.Low c);
      simpl; by intros [= <-].
Qed.

(** ** The task set *)

Lemma wrap64_small (z : Z) : - 2 ^ 63 <= z < 2 ^ 63 -> wrap64 z = z.
Proof.
  intros Hz. unfold wrap64.
  rewrite Z.mod_small; lia.
Qed.

Lemma cross_product_cons (s : string) (symbols : list string) (dates : list Time) :
  cross_product (s :: symbols) dates =
    ((fun d => {| Pipeline.symbol := s; Pipeline.date := d |}) <$> dates) ++
    cross_product symbols dates.
Proof.
  unfold cross_product. cbn [mbind list_bind]. f_equal.
Qed.

Lemma cross_product_length (symbols : list string) (dates : list Time) :
  length (cross_product symbols dates) = (length symbols * length dates)%nat.
Proof.
  induction symbols as [|s ss IH]; [done|].
  rewrite cross_product_cons, length_app, length_fmap, IH. simpl. lia.
Qed.

Lemma cross_product_lookup (symbols : list string) (dates : list Time)
    (i j : nat) (s : string) (d : Time) :
  symbols !! i = Some s -> dates !! j = Some d ->
  cross_product symbols dates !! (i * length dates + j)%nat =
    Some {| Pipeline.symbol := s; Pipeline.date := d |}.
Proof.
  revert i. induction symbols as [|s' ss IH]; intros i Hs Hd; [done|].
  rewrite cross_product_cons. destruct i as [|i]; simpl in Hs.
  - injection Hs as ->. simpl. rewrite lookup_app_l.
    + by rewrite list_lookup_fmap, Hd.
    + rewrite length_fmap. by apply lookup_lt_Some in Hd.
  - rewrite lookup_app_r; rewrite length_fmap; [|lia].
    replace (S i * length dates + j - length dates)%nat
      with (i * length dates + j)%nat by lia.
    by apply IH.
Qed.

Lemma cross_product_elem (symbols : list string) (dates : list Time)
    (jb : Pipeline.job) :
  jb ∈ cross_product symbols dates <->
  Pipeline.symbol jb ∈ symbols /\ Pipeline.date jb ∈ dates.
Proof.
  induction symbols as [|s ss IH].
  - split; [intros Hx | intros [Hx _]]; by apply elem_of_nil in Hx.
  - rewrite cross_product_cons, elem_of_app, list_elem_of_fmap, IH, elem_of_cons.
    split.
    + intros [(d & -> & Hd)|[Hs Hd]]; simpl; auto.
    + intros [[Heq|Hs] Hd]; [left|right; done].
      exists (Pipeline.date jb). split; [|done].
      destruct jb; simpl in *. by subst.
Qed.

Lemma cross_product_NoDup (symbols : list string) (dates : list Time) :
  NoDup symbols -> NoDup dates -> NoDup (cross_product symbols dates).
Proof.
  intros Hs Hd. induction Hs as [|s ss Hnotin Hss IH]; [by apply NoDup_nil|].
  rewrite cross_product_cons. apply NoDup_app. split; [|split; [|done]].
  - apply NoDup_fmap_2; [|done]. by intros d1 d2 [= ->].
  - intros jb (d & -> & _)%list_elem_of_fmap [Hin _]%cross_product_elem.
    by apply Hnotin.
Qed.

Lemma send_dates (s : string) (dates : list Time) (ch : Pipeline.chan) :
  len (Pipeline.buf ch) + len dates <= Pipeline.cap ch ->
  range_go dates
    (fun date jobs => Pipeline.send jobs {| Pipeline.symbol := s; Pipeline.date := date |})
    ch =
  Return {| Pipeline.buf := Pipeline.buf ch ++
              ((fun d => {| Pipeline.symbol := s; Pipeline.date := d |}) <$> dates);
            Pipeline.cap := Pipeline.cap ch |}.
Proof.
  revert ch. induction dates as [|d ds IH]; intros ch Hroom.
  - simpl. rewrite app_nil_r. by destruct ch.
  - unfold len in *. simpl length in Hroom. cbn [range_go].
    unfold Pipeline.send at 1. unfold len.
    destruct (Z.ltb_spec (Z.of_nat (length (Pipeline.buf ch))) (Pipeline.cap ch));
      [|lia].
    cbn [go_bind]. rewrite IH.
    + cbn [Pipeline.buf Pipeline.cap fmap list_fmap]. by rewrite <- app_assoc.
    + unfold len. cbn [Pipeline.buf Pipeline.cap]. rewrite length_app. simpl. lia.
Qed.

Lemma fill_spec (symbols : list string) (dates : list Time) (ch : Pipeline.chan) :
  len (Pipeline.buf ch) + len symbols * len dates <= Pipeline.cap ch ->
  Pipeline.fill symbols dates ch =
  Return {| Pipeline.buf := Pipeline.buf ch ++ cross_product symbols dates;
            Pipeline.cap := Pipeline.cap ch |}.
Proof.
  unfold Pipeline.fill. revert ch.
  induction symbols as [|s ss IH]; intros ch Hroom.
  - simpl. rewrite app_nil_r. by destruct ch.
  - cbn [range_go]. unfold len in *. simpl length in Hroom.
    rewrite send_dates by (unfold len; nia).
    cbn [go_bind]. rewrite IH.
    + rewrite cross_product_cons. cbn [Pipeline.buf Pipeline.cap].
      by rewrite <- app_assoc.
    + cbn [Pipeline.buf Pipeline.cap]. rewrite length_app, length_fmap. nia.
Qed.

Lemma fits_chan_int (max_chan_bytes n : Z) :
  0 <= n -> fits_chan max_chan_bytes n -> n < 2 ^ 63.
Proof. unfold fits_chan, Pipeline.sizeof_job. lia. Qed.

Lemma make_and_fill (max_chan_bytes : Z) (symbols : list string) (dates : list Time) :
  fits_chan max_chan_bytes (len symbols * len dates) ->
  (let! jobs := Pipeline.make_chan max_chan_bytes (mul64 (len symbols) (len dates)) in
   Pipeline.fill symbols dates jobs) =
    Return {| Pipeline.buf := cross_product symbols dates;
              Pipeline.cap := len symbols * len dates |}.
Proof.
  intros Hfits.
  assert (Hpos : 0 <= len symbols * len dates) by (unfold len; nia).
  pose proof (fits_chan_int _ _ Hpos Hfits) as Hint.
  unfold mul64. rewrite wrap64_small by lia.
  unfold Pipeline.make_chan. unfold fits_chan in Hfits. cbv zeta.
  destruct (Z.ltb_spec (len symbols * len dates) 0); [lia|].
  destruct (Z.leb_spec (2 ^ 64) (Pipeline.sizeof_job * (len symbols * len dates)));
    [lia|].
  destruct (Z.ltb_spec max_chan_bytes (Pipeline.sizeof_job * (len symbols * len dates)));
    [lia|].
  cbn [orb go_bind]. rewrite fill_spec; [done|].
  simpl. unfold len at 1. simpl. lia.
Qed.

(** Beyond what the platform allows for a channel, no task set is built:
    making the channel panics. *)
Lemma make_chan_out_of_range (max_chan_bytes : Z) (symbols : list string)
    (dates : list Time) :
  len symbols * len dates < 2 ^ 63 ->
  max_chan_bytes < Pipeline.sizeof_job * (len symbols * len dates) ->
  (let! jobs := Pipeline.make_chan max_chan_bytes (mul64 (len symbols) (len dates)) in
   Pipeline.fill symbols dates jobs) = Panic MakeChanSize.
Proof.
  intros Hint Hbig.
  assert (Hpos : 0 <= len symbols * len dates) by (unfold len; nia).
  unfold mul64. rewrite wrap64_small by lia.
  unfold Pipeline.make_chan. cbv zeta.
  destruct (Z.ltb_spec max_chan_bytes (Pipeline.sizeof_job * (len symbols * len dates)));
    [|lia].
  by rewrite !orb_true_r.
Qed.

(** C6, as the code has it.  When the jobs fit in a channel of the
    platform (40 bytes a job, within what the runtime allows for a
    channel), the channel is made and filled without blocking, and it then
    holds the cross product: [length symbols * length dates] jobs, the pair
    of the [i]-th symbol and [j]-th date at position [i * length dates + j],
    so that every pair of positions has its job once; a job is there
    exactly when its symbol and its date are configured, and distinct
    symbols and dates give distinct jobs.  Empty lists give the empty
    channel. *)
Theorem task_set_is_cross_product (max_chan_bytes : Z) (symbols : list string)
    (dates : list Time) :
  fits_chan max_chan_bytes (len symbols * len dates) ->
  (let! jobs := Pipeline.make_chan max_chan_bytes (mul64 (len symbols) (len dates)) in
   Pipeline.fill symbols dates jobs) =
    Return {| Pipeline.buf := cross_product symbols dates;
              Pipeline.cap := len symbols * len dates |} /\
  length (cross_product symbols dates) = (length symbols * length dates)%nat /\
  (forall i j s d, symbols !! i = Some s -> dates !! j = Some d ->
     cross_product symbols dates !! (i * length dates + j)%nat =
       Some {| Pipeline.symbol := s; Pipeline.date := d |}) /\
  (forall jb, jb ∈ cross_product symbols dates <->
     Pipeline.symbol jb ∈ symbols /\ Pipeline.date jb ∈ dates) /\
  (NoDup symbols -> NoDup dates -> NoDup (cross_product symbols dates)).
Proof.
  intros Hfits.
  split; [by apply make_and_fill|].
  split; [apply cross_product_length|].
  split; [intros i j s d; apply cross_product_lookup|].
  split; [apply cross_product_elem|apply cross_product_NoDup].
Qed.

(** ** Rules for [total] *)

Lemma total_ret {A} (a : A) (w : World) (Q : A -> World -> Prop) :
  Q a w -> total (ret a) w Q.
Proof. intros HQ. by exists a, w. Qed.

Lemma total_bind {A B} (m : M A) (k : A -> M B) (w : World)
    (Q : B -> World -> Prop) :
  total m w (fun a w' => total (k a) w' Q) -> total (bind m k) w Q.
Proof.
  intros (a & w' & Hm & b & w'' & Hk & HQ).
  exists b, w''. unfold bind. by rewrite Hm.
Qed.

Lemma total_mono {A} (m : M A) (w : World) (Q Q' : A -> World -> Prop) :
  total m w Q -> (forall a w', Q a w' -> Q' a w') -> total m w Q'.
Proof. intros (a & w' & Hm & HQ) Himp. exists a, w'. auto. Qed.

Lemma total_run {A} (m : M A) (w w' : World) (a : A) (Q : A -> World -> Prop) :
  total m w Q -> m w = Return (a, w') -> Q a w'.
Proof. intros (a0 & w0 & Hm & HQ) Hrun. rewrite Hm in Hrun. by injection Hrun as <- <-. Qed.

Lemma total_eq {A} (m : M A) (w w' : World) (a : A) (Q : A -> World -> Prop) :
  m w = Return (a, w') -> Q a w' -> total m w Q.
Proof. intros Hm HQ. by exists a, w'. Qed.

Lemma total_conj {A} (m : M A) (w : World) (Q Q' : A -> World -> Prop) :
  total m w Q -> total m w Q' -> total m w (fun a w' => Q a w' /\ Q' a w').
Proof.
  intros (a & w' & Hm & HQ) (a0 & w0 & Hm0 & HQ').
  rewrite Hm in Hm0. injection Hm0 as <- <-. by exists a, w'.
Qed.

Lemma bind_eq {A B} (m : M A) (k : A -> M B) (w w' : World) (a : A) :
  m w = Return (a, w') -> bind m k w = k a w'.
Proof. intros Hm. unfold bind. by rewrite Hm. Qed.

Lemma bind_inv {A B} (m : M A) (k : A -> M B) (w w'' : World) (b : B) :
  bind m k w = Return (b, w'') ->
  exists a w', m w = Return (a, w') /\ k a w' = Return (b, w'').
Proof.
  unfold bind. destruct (m w) as [[a w']|why]; [|done]. by eauto.
Qed.

(** ** The store client, as equations *)

Lemma db_Prepare_eq (s : Statement) (table : string) (w : World) :
  db_Prepare s table w =
    Return (if failing w then Some store_failure
            else match tables w !! table with
                 | Some _ => None
                 | None => Some no_such_table
                 end,
            sent s w).
Proof.
  unfold db_Prepare, bind, send_statement, ret.
  destruct (failing w); [done|].
  change (tables (sent s w)) with (tables w).
  by destruct (tables w !! table).
Qed.

Lemma db_Exec_create_eq (table : string) (w : World) :
  db_Exec_create table w =
    Return (if failing w then Some store_failure else None,
            if failing w then sent (CreateTableIfNotExists table) w
            else match tables w !! table with
                 | Some _ => sent (CreateTableIfNotExists table) w
                 | None => set_tables (<[table := []]> (tables w))
                             (sent (CreateTableIfNotExists table) w)
                 end).
Proof.
  unfold db_Exec_create, bind, send_statement, ret.
  destruct (failing w); [done|].
  change (tables (sent (CreateTableIfNotExists table) w)) with (tables w).
  by destruct (tables w !! table).
Qed.

Lemma stmt_Exec_insert_eq (table : string) (r : Row) (w : World) :
  stmt_Exec_insert table r w =
    Return (if failing w then Some store_failure
            else match tables w !! table with
                 | Some _ => None
                 | None => Some no_such_table
                 end,
            if failing w then sent (ExecInsert table r) w
            else match tables w !! table with
                 | Some rows =>
                     set_tables (<[table := on_conflict_do_nothing r rows]> (tables w))
                       (sent (ExecInsert table r) w)
                 | None => sent (ExecInsert table r) w
                 end).
Proof.
  unfold stmt_Exec_insert, bind, send_statement, ret.
  destruct (failing w); [done|].
  change (tables (sent (ExecInsert table r) w)) with (tables w).
  by destruct (tables w !! table).
Qed.

Lemma stmt_QueryRow_exists_eq (table : string) (ts : Time) (w : World) :
  stmt_QueryRow_exists table ts w =
    Return (if failing w then inr store_failure
            else match tables w !! table with
                 | Some rows => inl (has_timestamp ts rows)
                 | None => inr no_such_table
                 end,
            sent (QueryExists table ts) w).
Proof.
  unfold stmt_QueryRow_exists, bind, send_statement, ret.
  destruct (failing w); [done|].
  change (tables (sent (QueryExists table ts) w)) with (tables w).
  by destruct (tables w !! table).
Qed.

(** ** Rows and the conflict rule *)

Lemma has_timestamp_elem (ts : Time) (rows : list Row) :
  has_timestamp ts rows = true <-> ts ∈ col_timestamp <$> rows.
Proof.
  unfold has_timestamp. rewrite existsb_exists, list_elem_of_fmap.
  split.
  - intros (r & Hin & Heq%Z.eqb_eq). exists r. split; [done|].
    by apply list_elem_of_In.
  - intros (r & -> & Hin). exists r. split; [by apply list_elem_of_In|].
    apply Z.eqb_refl.
Qed.

Lemma on_conflict_present (r : Row) (rows : list Row) :
  has_timestamp (col_timestamp r) rows = true ->
  on_conflict_do_nothing r rows = rows.
Proof. intros Hin. unfold on_conflict_do_nothing. by rewrite Hin. Qed.

Lemma on_conflict_prefix (r : Row) (rows : list Row) :
  rows `prefix_of` on_conflict_do_nothing r rows.
Proof.
  unfold on_conflict_do_nothing.
  destruct (has_timestamp (col_timestamp r) rows); [done|].
  by apply prefix_app_r.
Qed.

Lemma on_conflict_has (ts : Time) (r : Row) (rows : list Row) :
  has_timestamp ts rows = true ->
  has_timestamp ts (on_conflict_do_nothing r rows) = true.
Proof.
  rewrite !has_timestamp_elem. intros Hin.
  destruct (on_conflict_prefix r rows) as [more ->].
  rewrite fmap_app, elem_of_app. by left.
Qed.

Lemma on_conflict_has_own (r : Row) (rows : list Row) :
  has_timestamp (col_timestamp r) (on_conflict_do_nothing r rows) = true.
Proof.
  unfold on_conflict_do_nothing.
  destruct (has_timestamp (col_timestamp r) rows) eqn:Hin; [done|].
  apply has_timestamp_elem. rewrite fmap_app, elem_of_app. right.
  apply list_elem_of_fmap. exists r. split; [done|]. apply list_elem_of_here.
Qed.

Lemma on_conflict_NoDup (r : Row) (rows : list Row) :
  NoDup (col_timestamp <$> rows) ->
  NoDup (col_timestamp <$> on_conflict_do_nothing r rows).
Proof.
  intros Hrows. unfold on_conflict_do_nothing.
  destruct (has_timestamp (col_timestamp r) rows) eqn:Hin; [done|].
  rewrite fmap_app. apply NoDup_app. split; [done|]. split.
  - intros ts Hts Hr. simpl in Hr. apply list_elem_of_singleton in Hr. subst ts.
    apply has_timestamp_elem in Hts. congruence.
  - simpl. apply NoDup_singleton.
Qed.

Lemma insert_all_prefix (cs : list Candlestick) (rows : list Row) :
  rows `prefix_of` insert_all cs rows.
Proof.
  revert rows. induction cs as [|c cs IH]; intros rows; [done|].
  simpl. etrans; [apply (on_conflict_prefix (row_of c))|apply IH].
Qed.

Lemma insert_all_NoDup (cs : list Candlestick) (rows : list Row) :
  NoDup (col_timestamp <$> rows) -> NoDup (col_timestamp <$> insert_all cs rows).
Proof.
  revert rows. induction cs as [|c cs IH]; intros rows Hrows; [done|].
  simpl. apply IH. by apply on_conflict_NoDup.
Qed.

Lemma insert_all_keeps (ts : Time) (cs : list Candlestick) (rows : list Row) :
  has_timestamp ts rows = true -> has_timestamp ts (insert_all cs rows) = true.
Proof.
  revert rows. induction cs as [|c cs IH]; intros rows Hin; [done|].
  simpl. apply IH. by apply on_conflict_has.
Qed.

Lemma insert_all_has (cs : list Candlestick) (rows : list Row) (c : Candlestick) :
  c ∈ cs -> has_timestamp (Timestamp c) (insert_all cs rows) = true.
Proof.
  revert rows. induction cs as [|c' cs IH]; intros rows Hc.
  - by apply elem_of_nil in Hc.
  - apply elem_of_cons in Hc as [->|Hc]; simpl.
    + apply insert_all_keeps. apply (on_conflict_has_own (row_of c')).
    + by apply IH.
Qed.

Lemma insert_all_again (cs : list Candlestick) (rows : list Row) :
  (forall c, c ∈ cs -> has_timestamp (Timestamp c) rows = true) ->
  insert_all cs rows = rows.
Proof.
  induction cs as [|c cs' IH]; intros Hall; [done|].
  simpl. rewrite (on_conflict_present (row_of c)).
  - apply IH. intros c' Hc'. apply Hall. by apply list_elem_of_further.
  - apply (Hall c). apply list_elem_of_here.
Qed.

(** ** Events *)

Lemma statements_app (evs evs' : list Event) :
  statements (evs ++ evs') = statements evs ++ statements evs'.
Proof. apply omap_app. Qed.

Lemma printed_app (evs evs' : list Event) :
  printed (evs ++ evs') = printed evs ++ printed evs'.
Proof. apply omap_app. Qed.

Lemma sleeps_app (evs evs' : list Event) :
  sleeps (evs ++ evs') = sleeps evs ++ sleeps evs'.
Proof. apply omap_app. Qed.

Lemma admissions_app (evs evs' : list Event) :
  admissions (evs ++ evs') = (admissions evs + admissions evs')%nat.
Proof. unfold admissions. by rewrite List.filter_app, length_app. Qed.

Lemma fetches_app (evs evs' : list Event) :
  fetches (evs ++ evs') = (fetches evs + fetches evs')%nat.
Proof. unfold fetches. by rewrite List.filter_app, length_app. Qed.

Lemma store_events_silent (evs : list Event) :
  Forall (fun e => store_event e = true) evs ->
  admissions evs = 0%nat /\ fetches evs = 0%nat /\ sleeps evs = [].
Proof.
  induction 1 as [|e evs He _ (IHa & IHf & IHs)]; [done|].
  change (e :: evs) with ([e] ++ evs).
  rewrite admissions_app, fetches_app, sleeps_app, IHa, IHf, IHs.
  by destruct e.
Qed.

Lemma failures_nil (n : nat) : failures n [] = [].
Proof. unfold failures. by rewrite take_nil. Qed.

Lemma failures_cons (n : nat) (f : bool) (script : list bool) :
  failures (S n) (f :: script) =
  (if f then [true] else []) ++ failures n script.
Proof.
  unfold failures. simpl. rewrite filter_cons.
  destruct f; [by rewrite decide_True|by rewrite decide_False].
Qed.

(** ** The insert loop of the pipeline *)

Lemma insert_one_step (t : string) (c : Candlestick) (w : World) (rows : list Row) :
  tables w !! t = Some rows ->
  total (Pipeline.insert_one t c tt) w (fun _ w' =>
    calls w' = calls w /\
    faults w' = tail (faults w) /\
    tables w' = (if failing w then tables w
                 else <[t := on_conflict_do_nothing (row_of c) rows]> (tables w)) /\
    trace w' = trace w ++ Sql (ExecInsert t (row_of c)) ::
                 (if failing w then [Print (LInsertFailed store_failure)] else [])).
Proof.
  intros Htable. unfold Pipeline.insert_one, total.
  rewrite (bind_eq _ _ _ _ _ (stmt_Exec_insert_eq t (row_of c) w)), Htable.
  destruct (failing w); eexists _, _; (split; [reflexivity|]); simpl.
  - by rewrite <- app_assoc.
  - done.
Qed.

Lemma insert_loop (t : string) (cs : list Candlestick) (w : World) (rows : list Row) :
  tables w !! t = Some rows ->
  total (range cs (Pipeline.insert_one t) tt) w (fun _ w' =>
    calls w' = calls w /\
    faults w' = drop (length cs) (faults w) /\
    (exists rows',
       tables w' = <[t := rows']> (tables w) /\
       rows `prefix_of` rows' /\
       (NoDup (col_timestamp <$> rows) -> NoDup (col_timestamp <$> rows')) /\
       (faults w = [] -> rows' = insert_all cs rows) /\
       ((forall c, c ∈ cs -> has_timestamp (Timestamp c) rows = true) ->
        rows' = rows)) /\
    exists evs,
      trace w' = trace w ++ evs /\
      Forall (fun e => store_event e = true) evs /\
      statements evs = (fun c => ExecInsert t (row_of c)) <$> cs /\
      printed evs = (fun _ => LInsertFailed store_failure) <$>
                      failures (length cs) (faults w)).
Proof.
  revert w rows. induction cs as [|c cs IH]; intros w rows Htable.
  - apply total_ret. split; [done|]. split; [by rewrite drop_0|]. split.
    + exists rows. rewrite insert_id by done. by repeat split.
    + exists []. rewrite app_nil_r. by repeat split.
  - cbn [range]. apply total_bind.
    eapply total_mono; [apply (insert_one_step t c w rows Htable)|].
    intros [] w1 (Hcalls1 & Hfaults1 & Htables1 & Htrace1).
    set (rows1 := if failing w then rows else on_conflict_do_nothing (row_of c) rows).
    assert (Htable1 : tables w1 !! t = Some rows1).
    { rewrite Htables1. unfold rows1. destruct (failing w); [done|].
      by rewrite lookup_insert_eq. }
    assert (Hpre1 : rows `prefix_of` rows1).
    { unfold rows1. destruct (failing w); [done|]. apply on_conflict_prefix. }
    eapply total_mono; [apply (IH w1 rows1 Htable1)|].
    intros [] w' (Hcalls & Hfaults & (rows' & Htables & Hpre & Hdup & Hclean & Hsame)
                  & evs & Htrace & Hstore & Hstmts & Hprints).
    split; [congruence|]. split.
    { rewrite Hfaults, Hfaults1. destruct (faults w); [|done].
      simpl. by rewrite !drop_nil. }
    split.
    { exists rows'. split; [|split; [|split; [|split]]].
      - rewrite Htables, Htables1. destruct (failing w); [done|].
        by rewrite insert_insert_eq.
      - by etrans.
      - intros Hrows. apply Hdup. unfold rows1.
        destruct (failing w); [done|]. by apply on_conflict_NoDup.
      - intros Hnone. rewrite Hclean by (by rewrite Hfaults1, Hnone).
        unfold rows1, failing. by rewrite Hnone.
      - intros Hall.
        assert (Hrows1 : rows1 = rows).
        { unfold rows1. destruct (failing w); [done|].
          apply on_conflict_present, (Hall c), list_elem_of_here. }
        transitivity rows1; [|done]. apply Hsame. intros c' Hc'.
        rewrite Hrows1. apply Hall. by apply list_elem_of_further. }
    exists (Sql (ExecInsert t (row_of c)) ::
              (if failing w then [Print (LInsertFailed store_failure)] else []) ++ evs).
    split; [|split; [|split]].
    + rewrite Htrace, Htrace1, <- app_assoc. by destruct (failing w).
    + apply Forall_cons. split; [done|]. apply Forall_app. split; [|done].
      destruct (failing w); [|done]. by apply Forall_singleton.
    + change (statements (?e :: ?l)) with (statements ([e] ++ l)).
      rewrite !statements_app, Hstmts. by destruct (failing w).
    + change (printed (?e :: ?l)) with (printed ([e] ++ l)).
      rewrite !printed_app, Hprints, Hfaults1. unfold failing.
      destruct (faults w) as [|f fs].
      * simpl. by rewrite !failures_nil.
      * simpl length. rewrite failures_cons, fmap_app. by destruct f.
Qed.

Lemma prepare_fails_false (t : string) (w : World) :
  prepare_fails t w = false ->
  failing w = false /\ exists rows, tables w !! t = Some rows.
Proof.
  unfold prepare_fails. destruct (failing w); [done|].
  destruct (tables w !! t) as [rows|]; [by eauto|done].
Qed.

(** What [InsertCandlesticks] of the pipeline does, for a symbol whose
    table name is [t]. *)
Lemma InsertCandlesticks_spec (symbol t : string) (cs : list Candlestick) (w : World) :
  Pipeline.safeTableName symbol = Return t ->
  total (Pipeline.InsertCandlesticks symbol cs) w (fun r w' =>
    calls w' = calls w /\
    exists evs,
      trace w' = trace w ++ evs /\
      Forall (fun e => store_event e = true) evs /\
      if prepare_fails t w
      then r = Some (if failing w then store_failure else no_such_table) /\
           tables w' = tables w /\ faults w' = tail (faults w) /\
           statements evs = [PrepareInsert t] /\ printed evs = []
      else r = None /\
           faults w' = drop (S (length cs)) (faults w) /\
           statements evs = PrepareInsert t :: ((fun c => ExecInsert t (row_of c)) <$> cs) /\
           printed evs = (fun _ => LInsertFailed store_failure) <$>
                           failures (length cs) (tail (faults w)) /\
           exists rows rows',
             tables w !! t = Some rows /\
             tables w' = <[t := rows']> (tables w) /\
             rows `prefix_of` rows' /\
             (NoDup (col_timestamp <$> rows) -> NoDup (col_timestamp <$> rows')) /\
             (tail (faults w) = [] -> rows' = insert_all cs rows) /\
             ((forall c, c ∈ cs -> has_timestamp (Timestamp c) rows = true) ->
              rows' = rows)).
Proof.
  intros Hname. unfold Pipeline.InsertCandlesticks, lift. rewrite Hname.
  apply total_bind, total_ret. apply total_bind.
  eapply total_eq; [apply db_Prepare_eq|].
  destruct (prepare_fails t w) eqn:Hprep.
  - assert (Herr : (if failing w then Some store_failure
                    else match tables w !! t with
                         | Some _ => None
                         | None => Some no_such_table
                         end) =
                   Some (if failing w then store_failure else no_such_table)).
    { unfold prepare_fails in Hprep. destruct (failing w); [done|].
      by destruct (tables w !! t). }
    rewrite Herr. apply total_ret. split; [done|].
    exists [Sql (PrepareInsert t)].
    repeat split; try done. by apply Forall_singleton.
  - destruct (prepare_fails_false t w Hprep) as (Hok & rows & Htable).
    rewrite Hok, Htable. apply total_bind.
    eapply total_mono; [apply (insert_loop t cs (sent (PrepareInsert t) w) rows Htable)|].
    intros [] w' (Hcalls & Hfaults & (rows' & Htables & Hpre & Hdup & Hclean & Hsame)
                  & evs & Htrace & Hstore & Hstmts & Hprints).
    apply total_ret. split; [done|].
    exists (Sql (PrepareInsert t) :: evs).
    split; [|split; [|split; [|split; [|split; [|split]]]]].
    + rewrite Htrace. simpl. by rewrite <- app_assoc.
    + by apply Forall_cons.
    + done.
    + rewrite Hfaults. cbn [sent faults].
      destruct (faults w); [|done]. simpl. by rewrite !drop_nil.
    + change (statements (?e :: ?l)) with (statements ([e] ++ l)).
      by rewrite statements_app, Hstmts.
    + done.
    + exists rows, rows'. by repeat split.
Qed.

Lemma failing_no_faults (w : World) : faults w = [] -> failing w = false.
Proof. unfold failing. by intros ->. Qed.

Lemma Pipeline_insert_contract (symbol t : string) :
  Pipeline.safeTableName symbol = Return t ->
  insert_contract Pipeline.InsertCandlesticks t symbol.
Proof.
  intros Hname cs w.
  eapply total_mono; [apply (InsertCandlesticks_spec symbol t cs w Hname)|].
  intros r w' (_ & evs & Htrace & _ & Hcases). exists evs. split; [done|].
  destruct (prepare_fails t w) eqn:Hprep.
  - destruct Hcases as (-> & Htables & Hfaults & _ & Hprints). split.
    { intros Hnone. by rewrite Hfaults, Hnone. }
    unfold prepare_fails in Hprep.
    destruct (tables w !! t) as [rows|] eqn:Htable.
    + exists rows. rewrite insert_id by done.
      rewrite orb_false_r in Hprep.
      split; [done|]. split; [done|]. split; [done|]. split; [|done].
      intros Hnone. by rewrite failing_no_faults in Hprep.
    + split; [done|]. intros Hnone. by rewrite failing_no_faults.
  - destruct Hcases as (-> & Hfaults & _ & Hprints & rows & rows' & Htable & Htables
                        & Hpre & Hdup & Hclean & Hsame).
    split.
    { intros Hnone. rewrite Hfaults, Hprints, Hnone. simpl.
      by rewrite ?drop_nil, ?failures_nil. }
    rewrite Htable. exists rows'.
    split; [done|]. split; [done|]. split; [done|]. split; [|done].
    intros Hnone. split; [done|]. apply Hclean. by rewrite Hnone.
Qed.

Lemma Pipeline_insert_grows (symbol t : string) (cs : list Candlestick) (w : World) :
  Pipeline.safeTableName symbol = Return t ->
  total (Pipeline.InsertCandlesticks symbol cs) w (fun _ w' => table_grows t cs w w').
Proof.
  intros Hname.
  eapply total_mono; [apply (Pipeline_insert_contract symbol t Hname cs w)|].
  intros r w' (evs & _ & Hquiet & Hcase). split.
  - intros Hnone. by destruct (Hquiet Hnone).
  - destruct (tables w !! t) as [rows|]; [|by destruct Hcase].
    destruct Hcase as (rows' & Htables & Hpre & Hdup & Hclean & Hsame).
    exists rows'. split; [done|]. split; [done|]. split; [done|]. split; [|done].
    intros Hnone. by destruct (Hclean Hnone).
Qed.

(** ** The insert loop of the sequential program *)

Lemma Sequential_insert_one_step (t : string) (c : Candlestick) (w : World)
    (rows : list Row) :
  tables w !! t = Some rows ->
  total (Sequential.insert_one t c tt) w (fun _ w' =>
    exists rows' evs,
      tables w' = <[t := rows']> (tables w) /\
      rows `prefix_of` rows' /\
      (NoDup (col_timestamp <$> rows) -> NoDup (col_timestamp <$> rows')) /\
      (faults w = [] ->
       rows' = on_conflict_do_nothing (row_of c) rows /\
       faults w' = [] /\ printed evs = []) /\
      (has_timestamp (Timestamp c) rows = true -> rows' = rows) /\
      trace w' = trace w ++ evs).
Proof.
  intros Htable. unfold Sequential.insert_one, total.
  rewrite (bind_eq _ _ _ _ _ (stmt_QueryRow_exists_eq t (Timestamp c) w)), Htable.
  destruct (failing w) eqn:Hfail.
  { eexists _, _. split; [reflexivity|].
    exists rows, [Sql (QueryExists t (Timestamp c));
                  Print (LExistenceCheckFailed store_failure)].
    simpl. rewrite insert_id by done. rewrite <- app_assoc.
    split; [done|]. split; [done|]. split; [done|]. split; [|done].
    intros Hnone. by rewrite failing_no_faults in Hfail. }
  destruct (has_timestamp (Timestamp c) rows) eqn:Hhas.
  { eexists _, _. split; [reflexivity|].
    exists rows, [Sql (QueryExists t (Timestamp c))].
    simpl. rewrite insert_id by done.
    split; [done|]. split; [done|]. split; [done|]. split; [|done].
    intros ->. by rewrite (on_conflict_present (row_of c)). }
  rewrite (bind_eq _ _ _ _ _ (stmt_Exec_insert_eq t (row_of c) _)).
  change (tables (sent (QueryExists t (Timestamp c)) w)) with (tables w).
  rewrite Htable.
  destruct (failing (sent (QueryExists t (Timestamp c)) w)) eqn:Hfail2.
  { eexists _, _. split; [reflexivity|].
    exists rows, [Sql (QueryExists t (Timestamp c)); Sql (ExecInsert t (row_of c));
                  Print (LInsertFailed store_failure)].
    simpl. rewrite insert_id by done. rewrite <- !app_assoc.
    split; [done|]. split; [done|]. split; [done|]. split; [|done].
    intros Hnone. rewrite failing_no_faults in Hfail2; [done|].
    simpl. by rewrite Hnone. }
  eexists _, _. split; [reflexivity|].
  exists (on_conflict_do_nothing (row_of c) rows),
    [Sql (QueryExists t (Timestamp c)); Sql (ExecInsert t (row_of c))].
  simpl. rewrite <- !app_assoc.
  split; [done|]. split; [apply on_conflict_prefix|].
  split; [apply on_conflict_NoDup|]. split; [by intros ->|]. split; [|done].
  intros Hhas'. congruence.
Qed.

Lemma Sequential_insert_loop (t : string) (cs : list Candlestick) (w : World)
    (rows : list Row) :
  tables w !! t = Some rows ->
  total (range cs (Sequential.insert_one t) tt) w (fun _ w' =>
    exists rows' evs,
      tables w' = <[t := rows']> (tables w) /\
      rows `prefix_of` rows' /\
      (NoDup (col_timestamp <$> rows) -> NoDup (col_timestamp <$> rows')) /\
      (faults w = [] ->
       rows' = insert_all cs rows /\ faults w' = [] /\ printed evs = []) /\
      ((forall c, c ∈ cs -> has_timestamp (Timestamp c) rows = true) ->
       rows' = rows) /\
      trace w' = trace w ++ evs).
Proof.
  revert w rows. induction cs as [|c cs IH]; intros w rows Htable.
  - apply total_ret. exists rows, []. rewrite insert_id, app_nil_r by done.
    by repeat split.
  - cbn [range]. apply total_bind.
    eapply total_mono; [apply (Sequential_insert_one_step t c w rows Htable)|].
    intros [] w1 (rows1 & evs1 & Htables1 & Hpre1 & Hdup1 & Hclean1 & Hsame1 & Htrace1).
    assert (Htable1 : tables w1 !! t = Some rows1).
    { by rewrite Htables1, lookup_insert_eq. }
    eapply total_mono; [apply (IH w1 rows1 Htable1)|].
    intros [] w' (rows' & evs & Htables & Hpre & Hdup & Hclean & Hsame & Htrace).
    exists rows', (evs1 ++ evs). split; [|split; [|split; [|split; [|split]]]].
    + by rewrite Htables, Htables1, insert_insert_eq.
    + by etrans.
    + auto.
    + intros Hnone. destruct (Hclean1 Hnone) as (-> & Hnone1 & Hprints1).
      destruct (Hclean Hnone1) as (-> & Hnone' & Hprints).
      by rewrite printed_app, Hprints1, Hprints.
    + intros Hall.
      assert (Hrows1 : rows1 = rows) by apply Hsame1, (Hall c), list_elem_of_here.
      transitivity rows1; [|done]. apply Hsame. intros c' Hc'.
      rewrite Hrows1. apply Hall. by apply list_elem_of_further.
    + by rewrite Htrace, Htrace1, <- app_assoc.
Qed.

Lemma Sequential_insert_contract (symbol t : string) :
  Sequential.tableName symbol = Return t ->
  insert_contract Sequential.InsertCandlesticks t symbol.
Proof.
  intros Hname cs w. unfold Sequential.InsertCandlesticks, lift. rewrite Hname.
  apply total_bind, total_ret. apply total_bind.
  eapply total_eq; [apply db_Prepare_eq|].
  destruct (failing w) eqn:Hfail.
  { apply total_ret. exists [Sql (PrepareExists t)].
    split; [done|]. split.
    { intros Hnone. by rewrite failing_no_faults in Hfail. }
    destruct (tables w !! t) as [rows|] eqn:Htable.
    - exists rows. simpl. rewrite insert_id by done.
      split; [done|]. split; [done|]. split; [done|]. split; [|done].
      intros Hnone. by rewrite failing_no_faults in Hfail.
    - split; [done|]. intros Hnone. by rewrite failing_no_faults in Hfail. }
  destruct (tables w !! t) as [rows|] eqn:Htable.
  2:{ apply total_ret. exists [Sql (PrepareExists t)].
      split; [done|]. split; [|done]. intros Hnone. simpl. by rewrite Hnone. }
  apply total_bind. eapply total_eq; [apply db_Prepare_eq|].
  change (tables (sent (PrepareExists t) w)) with (tables w). rewrite Htable.
  destruct (failing (sent (PrepareExists t) w)) eqn:Hfail1.
  { apply total_ret. exists [Sql (PrepareExists t); Sql (PrepareInsert t)].
    split; [simpl; by rewrite <- app_assoc|]. split.
    { intros Hnone. rewrite failing_no_faults in Hfail1; [done|].
      simpl. by rewrite Hnone. }
    exists rows. simpl. rewrite insert_id by done.
    split; [done|]. split; [done|]. split; [done|]. split; [|done].
    intros Hnone. rewrite failing_no_faults in Hfail1; [done|].
    simpl. by rewrite Hnone. }
  apply total_bind.
  eapply total_mono;
    [apply (Sequential_insert_loop t cs
              (sent (PrepareInsert t) (sent (PrepareExists t) w)) rows Htable)|].
  intros [] w' (rows' & evs & Htables & Hpre & Hdup & Hclean & Hsame & Htrace).
  apply total_ret.
  exists (Sql (PrepareExists t) :: Sql (PrepareInsert t) :: evs).
  split; [rewrite Htrace; simpl; by rewrite <- !app_assoc|].
  assert (Hclean' : faults w = [] ->
                    rows' = insert_all cs rows /\ faults w' = [] /\ printed evs = []).
  { intros Hnone. apply Hclean. simpl. by rewrite Hnone. }
  split.
  { intros Hnone. destruct (Hclean' Hnone) as (_ & Hf & Hp). split; [done|].
    change (printed (?a :: ?b :: evs)) with (printed ([a; b] ++ evs)).
    by rewrite printed_app, Hp. }
  exists rows'.
  split; [done|]. split; [done|]. split; [done|]. split; [|done].
  intros Hnone. by destruct (Hclean' Hnone) as (-> & _ & _).
Qed.

Lemma unique_timestamps_insert (tbl : gmap string (list Row)) (t : string)
    (rows : list Row) :
  unique_timestamps tbl -> NoDup (col_timestamp <$> rows) ->
  unique_timestamps (<[t := rows]> tbl).
Proof.
  intros Huniq Hrows name rows0 Hlook.
  destruct (decide (t = name)) as [->|Hne].
  - rewrite lookup_insert_eq in Hlook. by injection Hlook as <-.
  - rewrite lookup_insert_ne in Hlook by done. by apply (Huniq name).
Qed.

Lemma rows_kept_insert (tbl : gmap string (list Row)) (t : string)
    (rows rows' : list Row) :
  tbl !! t = Some rows -> rows `prefix_of` rows' ->
  rows_kept tbl (<[t := rows']> tbl).
Proof.
  intros Htable Hpre name rows0 Hlook.
  destruct (decide (t = name)) as [->|Hne].
  - rewrite lookup_insert_eq. exists rows'. split; [done|]. congruence.
  - rewrite lookup_insert_ne by done. by exists rows0.
Qed.

(** An insert function that keeps the contract is idempotent, from any
    world whose tables have distinct timestamps and whose store fails no
    statement of the first run. *)
Lemma contract_idempotent
    (Insert : string -> list Candlestick -> M (option error))
    (t symbol : string) (cs : list Candlestick) (w : World) (script : list bool) :
  insert_contract Insert t symbol ->
  faults w = [] ->
  unique_timestamps (tables w) ->
  idempotent_insert Insert t symbol cs w script.
Proof.
  intros Hcontract Hnone Huniq.
  destruct (Hcontract cs w) as (r1 & w1 & Hrun1 & evs1 & _ & _ & Hcase1).
  destruct (Hcontract cs (set_faults script w1))
    as (r2 & w2 & Hrun2 & evs2 & Htrace2 & Hquiet2 & Hcase2).
  exists r1, w1, r2, w2, evs2.
  split; [done|]. split; [done|].
  change (tables (set_faults script w1)) with (tables w1) in Hcase2.
  change (faults (set_faults script w1)) with script in Hcase2, Hquiet2.
  change (trace (set_faults script w1)) with (trace w1) in Htrace2.
  destruct (tables w !! t) as [rows|] eqn:Htable.
  - destruct Hcase1 as (rows1 & Htables1 & Hpre1 & Hdup1 & Hclean1 & _).
    destruct (Hclean1 Hnone) as (-> & ->).
    rewrite Htables1, lookup_insert_eq in Hcase2.
    destruct Hcase2 as (rows2 & Htables2 & _ & _ & Hclean2 & Hsame2).
    rewrite Hsame2 in Htables2 by (intros c Hc; by apply insert_all_has).
    split; [by rewrite Htables2, Htables1, insert_insert_eq|].
    split.
    { rewrite Htables1. apply unique_timestamps_insert; [done|].
      apply insert_all_NoDup. by apply (Huniq t). }
    split.
    { rewrite Htables1. apply (rows_kept_insert _ _ rows); [done|].
      apply insert_all_prefix. }
    split; [by intros rows0 [= <-]|]. split; [done|].
    intros ->. destruct (Hclean2 eq_refl) as (-> & _).
    split; [done|]. by apply Hquiet2.
  - destruct Hcase1 as (Htables1 & Hr1). rewrite Htables1, Htable in Hcase2.
    destruct Hcase2 as (Htables2 & Hr2).
    split; [congruence|]. split; [by rewrite Htables1|]. split.
    { rewrite Htables1. intros name rows Hlook. by exists rows. }
    split; [done|]. split; [done|].
    intros ->. rewrite Hr1, Hr2 by done. split; [done|]. by apply Hquiet2.
Qed.


(** ** The retry loop *)

Section Attempts.
Variables (accCtx : QuoteContext) (period : Period) (adjustType : AdjustType).
Variables (cfg : Pipeline.RetryConfig) (workerID : Z).
Variables (j : Pipeline.job) (start end_ : Time) (t : string).
Hypothesis Hname : Pipeline.safeTableName (Pipeline.symbol j) = Return t.

(** What the retry loop does from the value [attempt] on, when
    [remaining] values are left: it makes [k + 1] calls, the first [k]
    of which fail and are each followed by the wait of its attempt; the
    last call either fails at the last attempt and the job is counted as
    failed, with the store untouched, or succeeds, and the job is
    counted as failed or succeeded according to whether preparing the
    insert statement fails. *)
Lemma attempts_spec (remaining : nat) (attempt : Z) (c : Pipeline.Counters)
    (w : World) :
  (0 < remaining)%nat ->
  Z.of_nat remaining = Pipeline.MaxAttempts cfg - attempt + 1 ->
  total (Pipeline.attempts accCtx period adjustType cfg workerID j start end_
           remaining attempt c) w (fun c' w' =>
    exists evs k,
      trace w' = trace w ++ evs /\
      calls w' = (calls w + S k)%nat /\
      admissions evs = 0%nat /\
      fetches evs = S k /\
      sleeps evs = Pipeline.backoff cfg <$> seqZ attempt (Z.of_nat k) /\
      attempt + Z.of_nat k <= Pipeline.MaxAttempts cfg /\
      (forall i, (i < k)%nat -> failed_fetch (accCtx (calls w + i)%nat (Pipeline.symbol j) period adjustType
                        start end_) = true) /\
      match accCtx (calls w + k)%nat (Pipeline.symbol j) period adjustType start end_ with
      | inr _ =>
          attempt + Z.of_nat k = Pipeline.MaxAttempts cfg /\
          c' = Pipeline.add_failCount c /\
          tables w' = tables w /\ faults w' = faults w
      | inl pts =>
          c' = (if prepare_fails t w then Pipeline.add_failCount c
                else Pipeline.add_successCount c) /\
          table_grows t (Pipeline.transform (Pipeline.symbol j) pts) w w'
      end).
Proof.
  revert attempt c w.
  induction remaining as [|r IH]; intros attempt c w Hpos Hleft; [lia|].
  cbn [Pipeline.attempts]. apply total_bind.
  eapply total_eq; [reflexivity|].
  destruct (accCtx (calls w) (Pipeline.symbol j) period adjustType start end_)
    as [pts|err] eqn:Hans.
  - apply total_bind.
    eapply total_mono;
      [apply total_conj;
         [apply (InsertCandlesticks_spec _ t _
                   (called (Pipeline.symbol j) start end_ w) Hname)
         |apply (Pipeline_insert_grows _ t _
                   (called (Pipeline.symbol j) start end_ w) Hname)]|].
    intros res w1 ((Hcalls1 & evs1 & Htrace1 & Hstore1 & Hcase) & Hgrow).
    change (table_grows t (Pipeline.transform (Pipeline.symbol j) pts) w w1) in Hgrow.
    change (prepare_fails t (called (Pipeline.symbol j) start end_ w))
      with (prepare_fails t w) in Hcase.
    destruct (store_events_silent evs1 Hstore1) as (Hadm1 & Hfet1 & Hsl1).
    assert (Hres : res = None /\ prepare_fails t w = false \/
                   is_Some res /\ prepare_fails t w = true).
    { destruct (prepare_fails t w).
      - right. destruct Hcase as (-> & _). by split; [eexists|].
      - left. by destruct Hcase as (-> & _). }
    clear Hcase. destruct Hres as [(-> & Hprep)|([e ->] & Hprep)].
    + apply total_bind. eapply total_eq; [reflexivity|]. apply total_ret.
      exists (Call (Pipeline.symbol j) start end_ :: evs1 ++
                [Print (LDone workerID (len (Pipeline.transform (Pipeline.symbol j) pts)))]),
        0%nat.
      rewrite Nat.add_0_r, Hans, Hprep.
      change (?e :: ?l ++ ?l') with ([e] ++ l ++ l').
      rewrite !admissions_app, !fetches_app, !sleeps_app, Hadm1, Hfet1, Hsl1.
      simpl. rewrite Htrace1, Hcalls1. simpl. rewrite <- !app_assoc.
      do 7 (split; [first [done | lia | intros; lia]|]). split; [done|exact Hgrow].
    + apply total_bind. eapply total_eq; [reflexivity|]. apply total_ret.
      exists (Call (Pipeline.symbol j) start end_ :: evs1 ++
                [Print (LDbInsertFailed workerID e)]), 0%nat.
      rewrite Nat.add_0_r, Hans, Hprep.
      change (?e :: ?l ++ ?l') with ([e] ++ l ++ l').
      rewrite !admissions_app, !fetches_app, !sleeps_app, Hadm1, Hfet1, Hsl1.
      simpl. rewrite Htrace1, Hcalls1. simpl. rewrite <- !app_assoc.
      do 7 (split; [first [done | lia | intros; lia]|]). split; [done|exact Hgrow].
  - destruct (Z.ltb_spec attempt (Pipeline.MaxAttempts cfg)) as [Hlt|Hge].
    + apply total_bind. eapply total_eq; [reflexivity|].
      apply total_bind. eapply total_eq; [reflexivity|].
      set (w3 := logged _ (logged _ (called _ _ _ w))).
      eapply total_mono; [apply (IH (attempt + 1) c w3); lia|].
      intros c' w' (evs & k & Htrace & Hcalls & Hadm & Hfet & Hsl & Hle & Hfirst & Hlast).
      exists ([Call (Pipeline.symbol j) start end_;
               Print (LRetry workerID attempt (Pipeline.MaxAttempts cfg) err
                        (Milliseconds (Pipeline.backoff cfg attempt)));
               Sleep (Pipeline.backoff cfg attempt)] ++ evs), (S k).
      rewrite admissions_app, fetches_app, sleeps_app, Hadm, Hfet, Hsl.
      change (calls w3) with (S (calls w)) in *.
      replace (calls w + S k)%nat with (S (calls w) + k)%nat by lia.
      split; [rewrite Htrace; unfold w3; simpl; by rewrite <- !app_assoc|].
      split; [lia|]. split; [reflexivity|]. split; [reflexivity|]. split.
      { rewrite (seqZ_cons attempt (Z.of_nat (S k))) by lia.
        replace (Z.pred (Z.of_nat (S k))) with (Z.of_nat k) by lia.
        by replace (Z.succ attempt) with (attempt + 1) by lia. }
      split; [lia|]. split.
      * intros [|i] Hi; [by rewrite Nat.add_0_r, Hans|].
        replace (calls w + S i)%nat with (S (calls w) + i)%nat by lia.
        apply Hfirst. lia.
      * destruct (accCtx (S (calls w) + k)%nat _ _ _ _ _); [exact Hlast|].
        destruct Hlast as (Hmax & Hc & Htab & Hfau).
        split; [lia|]. by split.
    + apply total_bind. eapply total_eq; [reflexivity|]. apply total_ret.
      exists [Call (Pipeline.symbol j) start end_; Print (LFailed workerID err)], 0%nat.
      rewrite Nat.add_0_r, Hans. simpl. rewrite <- !app_assoc.
      repeat split; try done; try lia.
Qed.

End Attempts.

(** ** One job *)

Lemma process_spec (accCtx : QuoteContext) (period : Period) (adjustType : AdjustType)
    (cfg : Pipeline.RetryConfig) (totalTasks workerID : Z) (j : Pipeline.job)
    (t : string) (c : Pipeline.Counters) (w : World) :
  Pipeline.safeTableName (Pipeline.symbol j) = Return t ->
  1 <= Pipeline.MaxAttempts cfg ->
  let answer n := accCtx n (Pipeline.symbol j) period adjustType
                    (on_day_of (Pipeline.date j) 0 0 0)
                    (on_day_of (Pipeline.date j) 23 59 59) in
  total (Pipeline.process accCtx period adjustType cfg totalTasks workerID j c) w
    (fun c' w' =>
      exists evs k,
        trace w' = trace w ++ LimiterTick :: evs /\
        calls w' = (calls w + S k)%nat /\
        admissions evs = 0%nat /\
        fetches evs = S k /\
        sleeps evs = Pipeline.backoff cfg <$> seqZ 1 (Z.of_nat k) /\
        1 + Z.of_nat k <= Pipeline.MaxAttempts cfg /\
        (forall i, (i < k)%nat -> failed_fetch (answer (calls w + i)%nat) = true) /\
        match answer (calls w + k)%nat with
        | inr _ =>
            1 + Z.of_nat k = Pipeline.MaxAttempts cfg /\
            c' = Pipeline.add_failCount (Pipeline.add_currentTask c) /\
            tables w' = tables w /\ faults w' = faults w
        | inl pts =>
            c' = (if prepare_fails t w
                  then Pipeline.add_failCount (Pipeline.add_currentTask c)
                  else Pipeline.add_successCount (Pipeline.add_currentTask c)) /\
            table_grows t (Pipeline.transform (Pipeline.symbol j) pts) w w'
        end).
Proof.
  intros Hname Hmax answer. unfold Pipeline.process.
  apply total_bind. eapply total_eq; [reflexivity|].
  apply total_bind. eapply total_eq; [reflexivity|].
  set (w1 := logged _ (logged LimiterTick w)).
  eapply total_mono.
  { apply (attempts_spec accCtx period adjustType cfg workerID j _ _ t Hname
             (Z.to_nat (Pipeline.MaxAttempts cfg)) 1 _ w1); lia. }
  intros c' w' (evs & k & Htrace & Hcalls & Hadm & Hfet & Hsl & Hle & Hfirst & Hlast).
  exists (Print (LProgress (Pipeline.currentTask (Pipeline.add_currentTask c))
                   totalTasks workerID (Pipeline.symbol j) (Pipeline.date j)) :: evs), k.
  change (?e :: evs) with ([e] ++ evs).
  rewrite admissions_app, fetches_app, sleeps_app, Hadm, Hfet, Hsl.
  split; [rewrite Htrace; unfold w1; simpl; by rewrite <- !app_assoc|].
  by repeat split.
Qed.

Lemma add64_succ (z : Z) : - 2 ^ 63 <= z < 2 ^ 63 - 1 -> add64 z 1 = z + 1.
Proof. intros Hz. unfold add64. apply wrap64_small. lia. Qed.

(** Every job moves exactly one of the two outcome counters, by one
    [atomic.AddInt64]. *)
Lemma process_counts_once (accCtx : QuoteContext) (period : Period)
    (adjustType : AdjustType) (cfg : Pipeline.RetryConfig) (totalTasks workerID : Z)
    (j : Pipeline.job) (c : Pipeline.Counters) (w : World) :
  contains_byte (Pipeline.symbol j) dot = true ->
  1 <= Pipeline.MaxAttempts cfg ->
  total (Pipeline.process accCtx period adjustType cfg totalTasks workerID j c) w
    (fun c' w' =>
      Pipeline.currentTask c' = add64 (Pipeline.currentTask c) 1 /\
      (Pipeline.successCount c' = add64 (Pipeline.successCount c) 1 /\
       Pipeline.failCount c' = Pipeline.failCount c \/
       Pipeline.failCount c' = add64 (Pipeline.failCount c) 1 /\
       Pipeline.successCount c' = Pipeline.successCount c) /\
      exists evs, trace w' = trace w ++ evs /\ admissions evs = 1%nat).
Proof.
  intros Hdot Hmax. destruct (safeTableName_returns _ Hdot) as [t Hname].
  eapply total_mono;
    [apply (process_spec accCtx period adjustType cfg totalTasks workerID j t c w
              Hname Hmax)|].
  intros c' w' (evs & k & Htrace & _ & Hadm & _ & _ & _ & _ & Hlast).
  assert (Hc : c' = Pipeline.add_failCount (Pipeline.add_currentTask c) \/
               c' = Pipeline.add_successCount (Pipeline.add_currentTask c)).
  { destruct (accCtx _ _ _ _ _ _) as [pts|err].
    - destruct Hlast as [-> _]. destruct (prepare_fails t w); auto.
    - left. by destruct Hlast as (_ & -> & _). }
  split; [by destruct Hc as [-> | ->]|]. split.
  - destruct Hc as [-> | ->]; simpl; auto.
  - exists (LimiterTick :: evs). split; [done|].
    change (LimiterTick :: evs) with ([LimiterTick] ++ evs).
    by rewrite admissions_app, Hadm.
Qed.

(** ** The pool and the whole run *)

Lemma ensure_one_total (symbol : string) (w : World) :
  contains_byte symbol dot = true ->
  total (Pipeline.ensure_one symbol tt) w (fun _ w' =>
    exists evs, trace w' = trace w ++ evs /\
                Forall (fun e => store_event e = true) evs).
Proof.
  intros Hdot. destruct (safeTableName_returns _ Hdot) as [t Hname].
  unfold Pipeline.ensure_one, Pipeline.EnsureTable, lift. rewrite Hname.
  apply total_bind, total_bind, total_ret.
  eapply total_eq; [apply db_Exec_create_eq|].
  destruct (failing w).
  - eapply total_eq; [reflexivity|].
    exists [Sql (CreateTableIfNotExists t); Print (LCreateTableFailed store_failure)].
    split; [simpl; by rewrite <- app_assoc|]. by repeat constructor.
  - apply total_ret. exists [Sql (CreateTableIfNotExists t)].
    split; [by destruct (tables w !! t)|]. by repeat constructor.
Qed.

Lemma ensure_all_total (symbols : list string) (w : World) :
  Forall (fun s => contains_byte s dot = true) symbols ->
  total (range symbols Pipeline.ensure_one tt) w (fun _ w' =>
    exists evs, trace w' = trace w ++ evs /\
                Forall (fun e => store_event e = true) evs).
Proof.
  intros Hdots. revert w. induction Hdots as [|s ss Hs _ IH]; intros w.
  - apply total_ret. exists []. by rewrite app_nil_r.
  - cbn [range]. apply total_bind.
    eapply total_mono; [by apply ensure_one_total|].
    intros [] w1 (evs1 & Htrace1 & Hstore1). eapply total_mono; [apply IH|].
    intros [] w' (evs & Htrace & Hstore). exists (evs1 ++ evs).
    split; [by rewrite Htrace, Htrace1, <- app_assoc|]. by apply Forall_app.
Qed.

Lemma pool_spec (accCtx : QuoteContext) (period : Period) (adjustType : AdjustType)
    (cfg : Pipeline.RetryConfig) (totalTasks threads : Z) (sched : nat -> Z)
    (queue : list Pipeline.job) (k : nat) (c : Pipeline.Counters) (w : World) :
  1 <= Pipeline.MaxAttempts cfg ->
  Forall (fun j => contains_byte (Pipeline.symbol j) dot = true) queue ->
  0 <= Pipeline.currentTask c -> 0 <= Pipeline.successCount c ->
  0 <= Pipeline.failCount c ->
  Pipeline.currentTask c + len queue < 2 ^ 63 ->
  Pipeline.successCount c + Pipeline.failCount c + len queue < 2 ^ 63 ->
  total (Pipeline.pool accCtx period adjustType cfg totalTasks threads sched k queue c) w
    (fun c' w' =>
      Pipeline.currentTask c' = Pipeline.currentTask c + len queue /\
      0 <= Pipeline.successCount c' /\ 0 <= Pipeline.failCount c' /\
      Pipeline.successCount c' + Pipeline.failCount c' =
        Pipeline.successCount c + Pipeline.failCount c + len queue /\
      exists evs, trace w' = trace w ++ evs /\ admissions evs = length queue).
Proof.
  intros Hmax Hdots. revert k c w.
  induction Hdots as [|j q Hj _ IH]; intros k c w Hcur Hsucc Hfail Hroom1 Hroom2.
  - apply total_ret. unfold len. simpl.
    repeat split; try lia. exists []. by rewrite app_nil_r.
  - unfold len in *. simpl length in *. cbn [Pipeline.pool]. apply total_bind.
    eapply total_mono; [by apply process_counts_once|].
    intros c1 w1 (Hcur1 & Hcount1 & evs1 & Htrace1 & Hadm1).
    rewrite add64_succ in Hcur1 by lia.
    assert (Hone : 0 <= Pipeline.successCount c1 /\ 0 <= Pipeline.failCount c1 /\
                   Pipeline.successCount c1 + Pipeline.failCount c1 =
                     Pipeline.successCount c + Pipeline.failCount c + 1).
    { destruct Hcount1 as [[Hs Hf]|[Hf Hs]];
        rewrite add64_succ in * by lia; lia. }
    destruct Hone as (Hsucc1 & Hfail1 & Hsum1).
    eapply total_mono; [apply (IH (S k) c1 w1); unfold len; lia|].
    intros c' w' (Hcur' & Hsucc' & Hfail' & Hsum' & evs & Htrace & Hadm).
    unfold len in *. repeat split; try lia.
    exists (evs1 ++ evs). rewrite admissions_app, Hadm1, Hadm.
    split; [|done]. by rewrite Htrace, Htrace1, <- app_assoc.
Qed.

(** ** Running the pipeline again *)

Lemma rows_kept_refl (tbls : gmap string (list Row)) : rows_kept tbls tbls.
Proof. intros name rows Hlook. by exists rows. Qed.

Lemma rows_kept_trans (a b c : gmap string (list Row)) :
  rows_kept a b -> rows_kept b c -> rows_kept a c.
Proof.
  intros Hab Hbc name rows Hlook.
  destruct (Hab name rows Hlook) as (rows1 & Hlook1 & Hpre1).
  destruct (Hbc name rows1 Hlook1) as (rows2 & Hlook2 & Hpre2).
  exists rows2. split; [done|]. by etrans.
Qed.

Lemma rows_kept_new_table (tbls : gmap string (list Row)) (t : string) :
  tbls !! t = None -> rows_kept tbls (<[t := []]> tbls).
Proof.
  intros Hnone name rows Hlook. exists rows. split; [|done].
  rewrite lookup_insert_ne; [done|]. intros ->. congruence.
Qed.

Lemma rows_kept_is_Some (a b : gmap string (list Row)) (t : string) :
  rows_kept a b -> is_Some (a !! t) -> is_Some (b !! t).
Proof.
  intros Hab [rows Hlook]. destruct (Hab t rows Hlook) as (rows' & Hlook' & _).
  by exists rows'.
Qed.

Lemma tables_exist_kept (symbols : list string) (a b : gmap string (list Row)) :
  rows_kept a b -> tables_exist symbols a -> tables_exist symbols b.
Proof.
  intros Hab Ha s t Hs Hname. apply (rows_kept_is_Some a b t Hab). by apply (Ha s).
Qed.

Lemma job_stored_kept (accCtx : QuoteContext) (period : Period) (adjustType : AdjustType)
    (a b : gmap string (list Row)) (j : Pipeline.job) :
  rows_kept a b ->
  job_stored accCtx period adjustType a j -> job_stored accCtx period adjustType b j.
Proof.
  intros Hab Hstored pts t Hans Hname.
  destruct (Hstored pts t Hans Hname) as (rows & Hlook & Hall).
  destruct (Hab t rows Hlook) as (rows' & Hlook' & [more ->]).
  exists (rows ++ more). split; [done|]. intros c Hc.
  apply has_timestamp_elem. rewrite fmap_app, elem_of_app. left.
  apply has_timestamp_elem. by apply Hall.
Qed.

Lemma table_grows_kept (t : string) (cs : list Candlestick) (w w' : World) :
  table_grows t cs w w' ->
  rows_kept (tables w) (tables w') /\
  (unique_timestamps (tables w) -> unique_timestamps (tables w')).
Proof.
  intros [_ Hcase]. destruct (tables w !! t) as [rows|] eqn:Hlook.
  - destruct Hcase as (rows' & -> & Hpre & Hdup & _). split.
    + by apply (rows_kept_insert _ _ rows).
    + intros Huniq. apply unique_timestamps_insert; [done|].
      apply Hdup. by apply (Huniq t).
  - rewrite Hcase. split; [apply rows_kept_refl|done].
Qed.

(** What a job does to the tables, when the service answers the same at
    every attempt. *)
Lemma process_tables (accCtx : QuoteContext) (period : Period) (adjustType : AdjustType)
    (cfg : Pipeline.RetryConfig) (totalTasks workerID : Z) (j : Pipeline.job)
    (t : string) (c : Pipeline.Counters) (w : World) :
  Pipeline.safeTableName (Pipeline.symbol j) = Return t ->
  1 <= Pipeline.MaxAttempts cfg ->
  stable accCtx ->
  total (Pipeline.process accCtx period adjustType cfg totalTasks workerID j c) w
    (fun _ w' =>
      match accCtx 0%nat (Pipeline.symbol j) period adjustType
              (on_day_of (Pipeline.date j) 0 0 0)
              (on_day_of (Pipeline.date j) 23 59 59) with
      | inr _ => tables w' = tables w /\ faults w' = faults w
      | inl pts => table_grows t (Pipeline.transform (Pipeline.symbol j) pts) w w'
      end).
Proof.
  intros Hname Hmax Hstable.
  eapply total_mono;
    [apply (process_spec accCtx period adjustType cfg totalTasks workerID j t c w
              Hname Hmax)|].
  intros c' w' (evs & k & _ & _ & _ & _ & _ & _ & _ & Hlast).
  rewrite (Hstable _ 0%nat) in Hlast.
  destruct (accCtx 0%nat _ _ _ _ _) as [pts|err].
  - by destruct Hlast.
  - by destruct Hlast as (_ & _ & ? & ?).
Qed.

Lemma pool_first (accCtx : QuoteContext) (period : Period) (adjustType : AdjustType)
    (cfg : Pipeline.RetryConfig) (totalTasks threads : Z) (sched : nat -> Z)
    (queue : list Pipeline.job) :
  1 <= Pipeline.MaxAttempts cfg ->
  stable accCtx ->
  Forall (fun j => contains_byte (Pipeline.symbol j) dot = true) queue ->
  forall k c w,
    faults w = [] ->
    tables_exist (Pipeline.symbol <$> queue) (tables w) ->
    total (Pipeline.pool accCtx period adjustType cfg totalTasks threads sched k queue c) w
      (fun _ w' =>
        faults w' = [] /\
        rows_kept (tables w) (tables w') /\
        (unique_timestamps (tables w) -> unique_timestamps (tables w')) /\
        Forall (job_stored accCtx period adjustType (tables w')) queue).
Proof.
  intros Hmax Hstable Hdots.
  induction Hdots as [|j q Hj _ IH]; intros k c w Hnone Hexist.
  - apply total_ret. split; [done|]. split; [apply rows_kept_refl|]. by split.
  - destruct (safeTableName_returns _ Hj) as [t Hname].
    cbn [Pipeline.pool]. apply total_bind.
    eapply total_mono;
      [apply (process_tables accCtx period adjustType cfg totalTasks _ j t c w
                Hname Hmax Hstable)|].
    intros c1 w1 Hcase.
    assert (Hstep : faults w1 = [] /\
                    rows_kept (tables w) (tables w1) /\
                    (unique_timestamps (tables w) -> unique_timestamps (tables w1)) /\
                    job_stored accCtx period adjustType (tables w1) j).
    { destruct (accCtx 0%nat _ _ _ _ _) as [pts|err] eqn:Hans.
      - destruct (table_grows_kept _ _ _ _ Hcase) as [Hkept Huniq].
        destruct Hcase as [Hfaults Hcase].
        split; [by apply Hfaults|]. split; [done|]. split; [done|].
        intros pts' t' Hans' Hname'.
        rewrite Hans in Hans'. injection Hans' as <-.
        rewrite Hname in Hname'. injection Hname' as <-.
        destruct (Hexist (Pipeline.symbol j) t) as [rows Hlook];
          [rewrite fmap_cons; apply list_elem_of_here|done|].
        rewrite Hlook in Hcase.
        destruct Hcase as (rows' & Htables & _ & _ & Hclean & _).
        exists rows'. split; [by rewrite Htables, lookup_insert_eq|].
        intros c0 Hc0. rewrite (Hclean Hnone). by apply insert_all_has.
      - destruct Hcase as [Htables Hfaults].
        split; [congruence|]. rewrite Htables.
        split; [apply rows_kept_refl|]. split; [done|].
        intros pts' t' Hans'. rewrite Hans in Hans'. discriminate. }
    destruct Hstep as (Hnone1 & Hkept1 & Huniq1 & Hstored1).
    eapply total_mono.
    { apply (IH (S k) c1 w1 Hnone1). apply (tables_exist_kept _ _ _ Hkept1).
      intros s t' Hs. apply Hexist. rewrite fmap_cons. by apply list_elem_of_further. }
    intros c' w' (Hnone' & Hkept' & Huniq' & Hstored').
    split; [done|]. split; [by apply (rows_kept_trans _ (tables w1))|].
    split; [auto|]. apply Forall_cons. split; [|done].
    by apply (job_stored_kept _ _ _ (tables w1)).
Qed.

Lemma pool_second (accCtx : QuoteContext) (period : Period) (adjustType : AdjustType)
    (cfg : Pipeline.RetryConfig) (totalTasks threads : Z) (sched : nat -> Z)
    (queue : list Pipeline.job) :
  1 <= Pipeline.MaxAttempts cfg ->
  stable accCtx ->
  Forall (fun j => contains_byte (Pipeline.symbol j) dot = true) queue ->
  forall k c w,
    Forall (job_stored accCtx period adjustType (tables w)) queue ->
    total (Pipeline.pool accCtx period adjustType cfg totalTasks threads sched k queue c) w
      (fun _ w' => tables w' = tables w).
Proof.
  intros Hmax Hstable Hdots.
  induction Hdots as [|j q Hj _ IH]; intros k c w Hstored.
  - by apply total_ret.
  - apply Forall_cons in Hstored as [Hstoredj Hstoredq].
    destruct (safeTableName_returns _ Hj) as [t Hname].
    cbn [Pipeline.pool]. apply total_bind.
    eapply total_mono;
      [apply (process_tables accCtx period adjustType cfg totalTasks _ j t c w
                Hname Hmax Hstable)|].
    intros c1 w1 Hcase.
    assert (Htables1 : tables w1 = tables w).
    { destruct (accCtx 0%nat _ _ _ _ _) as [pts|err] eqn:Hans.
      - destruct (Hstoredj pts t Hans Hname) as (rows & Hlook & Hall).
        destruct Hcase as [_ Hcase]. rewrite Hlook in Hcase.
        destruct Hcase as (rows' & -> & _ & _ & _ & Hsame).
        rewrite (Hsame Hall). by apply insert_id.
      - by destruct Hcase. }
    eapply total_mono; [apply (IH (S k) c1 w1); by rewrite Htables1|].
    intros c' w' Htables'. congruence.
Qed.

Lemma ensure_one_first (symbol t : string) (w : World) :
  Pipeline.safeTableName symbol = Return t ->
  faults w = [] ->
  total (Pipeline.ensure_one symbol tt) w (fun _ w' =>
    faults w' = [] /\
    rows_kept (tables w) (tables w') /\
    (unique_timestamps (tables w) -> unique_timestamps (tables w')) /\
    is_Some (tables w' !! t)).
Proof.
  intros Hname Hnone.
  unfold Pipeline.ensure_one, Pipeline.EnsureTable, lift, total. rewrite Hname.
  unfold bind. cbv beta iota. rewrite db_Exec_create_eq, (failing_no_faults w Hnone).
  destruct (tables w !! t) as [rows|] eqn:Hlook; eexists _, _; (split; [reflexivity|]);
    cbn [faults tables sent set_tables]; rewrite Hnone.
  - split; [done|]. split; [apply rows_kept_refl|]. split; [done|]. by exists rows.
  - split; [done|]. split; [by apply rows_kept_new_table|]. split.
    + intros Huniq. apply unique_timestamps_insert; [done|]. apply NoDup_nil_2.
    + rewrite lookup_insert_eq. by eexists.
Qed.

Lemma ensure_first (symbols : list string) :
  Forall (fun s => contains_byte s dot = true) symbols ->
  forall w,
    faults w = [] ->
    total (range symbols Pipeline.ensure_one tt) w (fun _ w' =>
      faults w' = [] /\
      rows_kept (tables w) (tables w') /\
      (unique_timestamps (tables w) -> unique_timestamps (tables w')) /\
      tables_exist symbols (tables w')).
Proof.
  induction 1 as [|s ss Hs _ IH]; intros w Hnone.
  - apply total_ret. split; [done|]. split; [apply rows_kept_refl|]. split; [done|].
    intros s t Hin. by apply elem_of_nil in Hin.
  - destruct (safeTableName_returns _ Hs) as [t Hname].
    cbn [range]. apply total_bind.
    eapply total_mono; [by apply (ensure_one_first s t w)|].
    intros [] w1 (Hnone1 & Hkept1 & Huniq1 & Hsome1).
    eapply total_mono; [by apply IH|].
    intros [] w' (Hnone' & Hkept' & Huniq' & Hexist').
    split; [done|]. split; [by apply (rows_kept_trans _ (tables w1))|].
    split; [auto|].
    intros s' t' [->|Hin]%elem_of_cons Hname'.
    + rewrite Hname in Hname'. injection Hname' as <-.
      by apply (rows_kept_is_Some (tables w1)).
    + by apply (Hexist' s').
Qed.

Lemma ensure_second (symbols : list string) :
  Forall (fun s => contains_byte s dot = true) symbols ->
  forall w,
    tables_exist symbols (tables w) ->
    total (range symbols Pipeline.ensure_one tt) w (fun _ w' => tables w' = tables w).
Proof.
  induction 1 as [|s ss Hs _ IH]; intros w Hexist.
  - by apply total_ret.
  - destruct (safeTableName_returns _ Hs) as [t Hname].
    destruct (Hexist s t) as [rows Hlook]; [apply list_elem_of_here|done|].
    cbn [range]. apply total_bind.
    assert (Hone : total (Pipeline.ensure_one s tt) w (fun _ w' => tables w' = tables w)).
    { unfold Pipeline.ensure_one, Pipeline.EnsureTable, lift, total. rewrite Hname.
      unfold bind. cbv beta iota. rewrite db_Exec_create_eq, Hlook.
      destruct (failing w); eexists _, _; by (split; [reflexivity|]). }
    eapply total_mono; [exact Hone|]. intros [] w1 Htables1.
    eapply total_mono.
    { apply IH. rewrite Htables1. intros s' t' Hin. apply Hexist.
      by apply list_elem_of_further. }
    intros [] w' Htables'. congruence.
Qed.

Lemma cross_product_dots (symbols : list string) (dates : list Time) :
  Forall (fun s => contains_byte s dot = true) symbols ->
  Forall (fun j => contains_byte (Pipeline.symbol j) dot = true)
    (cross_product symbols dates).
Proof.
  intros Hdots. apply Forall_forall. intros jb [Hs _]%cross_product_elem.
  by apply (proj1 (Forall_forall _ _) Hdots).
Qed.

Lemma cross_product_tables_exist (symbols : list string) (dates : list Time)
    (tbls : gmap string (list Row)) :
  tables_exist symbols tbls ->
  tables_exist (Pipeline.symbol <$> cross_product symbols dates) tbls.
Proof.
  intros Hexist s t (jb & -> & [Hs _]%cross_product_elem)%list_elem_of_fmap Hname.
  by apply (Hexist (Pipeline.symbol jb)).
Qed.

(** The loop of one worker is the pool with that worker alone. *)
Lemma worker_as_pool (accCtx : QuoteContext) (period : Period) (adjustType : AdjustType)
    (cfg : Pipeline.RetryConfig) (totalTasks workerID : Z) (js : list Pipeline.job)
    (k : nat) (c : Pipeline.Counters) (w : World) :
  Pipeline.worker accCtx period adjustType cfg totalTasks workerID js c w =
  Pipeline.pool accCtx period adjustType cfg totalTasks 0 (fun _ => workerID - 1) k js
    c w.
Proof.
  unfold Pipeline.worker. revert k c w.
  induction js as [|j js IH]; intros k c w; [done|].
  cbn [range Pipeline.pool]. unfold bind.
  replace ((workerID - 1) mod 0 + 1) with workerID by (rewrite Z.mod_0_r; lia).
  destruct (Pipeline.process _ _ _ _ _ _ _ _ _) as [[c1 w1]|why]; [|done].
  apply IH.
Qed.

Lemma worker_total (accCtx : QuoteContext) (period : Period) (adjustType : AdjustType)
    (cfg : Pipeline.RetryConfig) (totalTasks workerID : Z) (js : list Pipeline.job)
    (c : Pipeline.Counters) (w : World) (Q : Pipeline.Counters -> World -> Prop) :
  total (Pipeline.pool accCtx period adjustType cfg totalTasks 0 (fun _ => workerID - 1)
           0 js c) w Q ->
  total (Pipeline.worker accCtx period adjustType cfg totalTasks workerID js c) w Q.
Proof. unfold total. by rewrite (worker_as_pool _ _ _ _ _ _ _ 0%nat). Qed.

(** The loop of a worker run twice: once on a store that fails no
    statement and has the tables of its jobs, and then again, over any of
    these jobs, under any failure script. *)
Lemma worker_twice (accCtx : QuoteContext) (period : Period) (adjustType : AdjustType)
    (totalTasks workerID workerID' : Z) (js js' : list Pipeline.job)
    (c c' : Pipeline.Counters) (w : World) (script : list bool) :
  Forall (fun j => contains_byte (Pipeline.symbol j) dot = true) js ->
  js' ⊆ js ->
  stable accCtx ->
  faults w = [] ->
  unique_timestamps (tables w) ->
  tables_exist (Pipeline.symbol <$> js) (tables w) ->
  exists c1 w1 c2 w2,
    Pipeline.worker accCtx period adjustType Pipeline.retryCfg totalTasks workerID
      js c w = Return (c1, w1) /\
    Pipeline.worker accCtx period adjustType Pipeline.retryCfg totalTasks workerID'
      js' c' (set_faults script w1) = Return (c2, w2) /\
    tables w2 = tables w1 /\
    unique_timestamps (tables w1) /\
    rows_kept (tables w) (tables w1).
Proof.
  intros Hdots Hsub Hstable Hnone Huniq Hexist.
  assert (Hmax : 1 <= Pipeline.MaxAttempts Pipeline.retryCfg) by done.
  destruct (worker_total accCtx period adjustType Pipeline.retryCfg totalTasks workerID
              js c w _
              (pool_first accCtx period adjustType Pipeline.retryCfg totalTasks 0
                 (fun _ => workerID - 1) js Hmax Hstable Hdots 0%nat c w Hnone Hexist))
    as (c1 & w1 & Hrun1 & _ & Hkept1 & Huniq1 & Hstored1).
  assert (Hdots' : Forall (fun j => contains_byte (Pipeline.symbol j) dot = true) js').
  { apply Forall_forall. intros j Hj. by apply (proj1 (Forall_forall _ _) Hdots), Hsub. }
  assert (Hstored' : Forall (job_stored accCtx period adjustType
                               (tables (set_faults script w1))) js').
  { apply Forall_forall. intros j Hj.
    by apply (proj1 (Forall_forall _ _) Hstored1), Hsub. }
  destruct (worker_total accCtx period adjustType Pipeline.retryCfg totalTasks workerID'
              js' c' (set_faults script w1) _
              (pool_second accCtx period adjustType Pipeline.retryCfg totalTasks 0
                 (fun _ => workerID' - 1) js' Hmax Hstable Hdots' 0%nat c'
                 (set_faults script w1) Hstored'))
    as (c2 & w2 & Hrun2 & Htables2).
  exists c1, w1, c2, w2. split; [done|]. split; [done|]. split; [done|]. by auto.
Qed.

(** C1.  Inserting records is idempotent.  In both programs, from a world
    whose tables have one row per timestamp, in which the store fails no
    statement of the first run, [InsertCandlesticks] returns, and run again
    on the same records (under any failure script) it returns and leaves
    every table as the first run left it; after the first run the tables
    have one row per timestamp and every row they had, unchanged; the
    symbol's table, when it was there, holds its rows followed by the
    records with new timestamps, and no error is reported; a second run
    that the store does not fail reports the same and logs nothing.  And
    the jobs of the pipeline, run again: when a worker has taken jobs
    through its loop, on a store with their tables and against a service
    that answers the same, a worker that takes any of these jobs again
    leaves every table as it was, with one row per timestamp. *)
Theorem InsertCandlesticks_idempotent :
  (forall (symbol : string) (cs : list Candlestick) (w : World) (script : list bool),
     faults w = [] ->
     unique_timestamps (tables w) ->
     (forall t, Pipeline.safeTableName symbol = Return t ->
        idempotent_insert Pipeline.InsertCandlesticks t symbol cs w script) /\
     (exists t, Sequential.tableName symbol = Return t /\
        idempotent_insert Sequential.InsertCandlesticks t symbol cs w script)) /\
  (forall (accCtx : QuoteContext) (period : Period) (adjustType : AdjustType)
          (totalTasks workerID workerID' : Z) (js js' : list Pipeline.job)
          (c c' : Pipeline.Counters) (w : World) (script : list bool),
     Forall (fun j => contains_byte (Pipeline.symbol j) dot = true) js ->
     js' ⊆ js ->
     stable accCtx ->
     faults w = [] ->
     unique_timestamps (tables w) ->
     tables_exist (Pipeline.symbol <$> js) (tables w) ->
     exists c1 w1 c2 w2,
       Pipeline.worker accCtx period adjustType Pipeline.retryCfg totalTasks workerID
         js c w = Return (c1, w1) /\
       Pipeline.worker accCtx period adjustType Pipeline.retryCfg totalTasks workerID'
         js' c' (set_faults script w1) = Return (c2, w2) /\
       tables w2 = tables w1 /\
       unique_timestamps (tables w1) /\
       rows_kept (tables w) (tables w1)).
Proof.
  split.
  - intros symbol cs w script Hnone Huniq. split.
    + intros t Hname. apply contract_idempotent; [|done|done].
      by apply Pipeline_insert_contract.
    + destruct (Sequential_tableName_returns symbol) as [t Hname].
      exists t. split; [done|]. apply contract_idempotent; [|done|done].
      by apply Sequential_insert_contract.
  - intros. by apply worker_twice.
Qed.

(** ** One job, from admission to counters *)

(** C4, as the code has it.  A job passes the limiter once, before its
    first attempt, and not again: the events of a job start with the
    admission, none follows, and between one and [MaxAttempts] remote calls
    come after it. *)
Theorem one_admission_per_job (accCtx : QuoteContext) (period : Period)
    (adjustType : AdjustType) (totalTasks workerID : Z) (j : Pipeline.job)
    (c : Pipeline.Counters) (w : World) :
  contains_byte (Pipeline.symbol j) dot = true ->
  total (Pipeline.process accCtx period adjustType Pipeline.retryCfg totalTasks
           workerID j c) w
    (fun c' w' =>
      exists evs,
        trace w' = trace w ++ LimiterTick :: evs /\
        admissions (LimiterTick :: evs) = 1%nat /\
        admissions evs = 0%nat /\
        (1 <= fetches evs)%nat /\
        Z.of_nat (fetches evs) <= Pipeline.MaxAttempts Pipeline.retryCfg).
Proof.
  intros Hdot. destruct (safeTableName_returns _ Hdot) as [t Hname].
  eapply total_mono;
    [apply (process_spec accCtx period adjustType Pipeline.retryCfg totalTasks
              workerID j t c w Hname); simpl; lia|].
  intros c' w' (evs & k & Htrace & _ & Hadm & Hfet & _ & Hle & _).
  exists evs. split; [done|]. split.
  { change (LimiterTick :: evs) with ([LimiterTick] ++ evs).
    by rewrite admissions_app, Hadm. }
  split; [done|]. rewrite Hfet. split; lia.
Qed.

(** The wait before a retry, for any configuration in which the product
    does not overflow. *)
Lemma backoff_base_formula (cfg : Pipeline.RetryConfig) (a : Z) :
  1 <= Pipeline.BaseDelayMS cfg -> 1 <= a ->
  Pipeline.BaseDelayMS cfg * 2 ^ (a - 1) < 2 ^ 63 ->
  Pipeline.backoff_base cfg a =
    Z.min (Pipeline.BaseDelayMS cfg * 2 ^ (a - 1)) (Pipeline.MaxDelayMS cfg).
Proof.
  intros Hbase Ha Hfits. unfold Pipeline.backoff_base, mul64, shl64.
  assert (Hpow : 0 < 2 ^ (a - 1)) by (apply Z.pow_pos_nonneg; lia).
  rewrite Z.shiftl_1_l.
  rewrite (wrap64_small (2 ^ (a - 1))) by nia.
  rewrite wrap64_small by nia.
  destruct (Z.gtb_spec (Pipeline.BaseDelayMS cfg * 2 ^ (a - 1)) (Pipeline.MaxDelayMS cfg));
    lia.
Qed.


Lemma failed_fetch_inr (r : list quote.Candlestick + error) :
  failed_fetch r = true -> exists err, r = inr err.
Proof. destruct r as [pts|err]; [done|by eauto]. Qed.

(** C7.  A job whose remote call fails at each of the [MaxAttempts]
    attempts ends as failed: the body of the worker returns, after three
    calls, with the failure counter moved by one [AddInt64], the success
    counter and the tables as they were.  Every job moves exactly one of the
    two counters, once.  And the worker goes on with the jobs that remain:
    its loop over the jobs it receives returns, whatever fails, having
    passed the limiter once per job, with the two counters moved by the
    number of jobs together (while they do not overflow). *)
Theorem exhausted_job_is_counted_failed :
  (forall (accCtx : QuoteContext) (period : Period) (adjustType : AdjustType)
          (totalTasks workerID : Z) (j : Pipeline.job) (c : Pipeline.Counters)
          (w : World),
     contains_byte (Pipeline.symbol j) dot = true ->
     (forall i, (i < 3)%nat ->
        failed_fetch (accCtx (calls w + i)%nat (Pipeline.symbol j) period adjustType
                        (on_day_of (Pipeline.date j) 0 0 0)
                        (on_day_of (Pipeline.date j) 23 59 59)) = true) ->
     total (Pipeline.process accCtx period adjustType Pipeline.retryCfg totalTasks
              workerID j c) w
       (fun c' w' =>
         Pipeline.failCount c' = add64 (Pipeline.failCount c) 1 /\
         (- 2 ^ 63 <= Pipeline.failCount c < 2 ^ 63 - 1 ->
          Pipeline.failCount c' = Pipeline.failCount c + 1) /\
         Pipeline.successCount c' = Pipeline.successCount c /\
         tables w' = tables w /\
         exists evs, trace w' = trace w ++ evs /\ fetches evs = 3%nat)) /\
  (forall (accCtx : QuoteContext) (period : Period) (adjustType : AdjustType)
          (totalTasks workerID : Z) (j : Pipeline.job) (c : Pipeline.Counters)
          (w : World),
     contains_byte (Pipeline.symbol j) dot = true ->
     total (Pipeline.process accCtx period adjustType Pipeline.retryCfg totalTasks
              workerID j c) w
       (fun c' w' =>
         Pipeline.successCount c' = add64 (Pipeline.successCount c) 1 /\
         Pipeline.failCount c' = Pipeline.failCount c \/
         Pipeline.failCount c' = add64 (Pipeline.failCount c) 1 /\
         Pipeline.successCount c' = Pipeline.successCount c)) /\
  (forall (accCtx : QuoteContext) (period : Period) (adjustType : AdjustType)
          (totalTasks workerID : Z) (js : list Pipeline.job) (c : Pipeline.Counters)
          (w : World),
     Forall (fun j => contains_byte (Pipeline.symbol j) dot = true) js ->
     0 <= Pipeline.currentTask c -> 0 <= Pipeline.successCount c ->
     0 <= Pipeline.failCount c ->
     Pipeline.currentTask c + len js < 2 ^ 63 ->
     Pipeline.successCount c + Pipeline.failCount c + len js < 2 ^ 63 ->
     total (Pipeline.worker accCtx period adjustType Pipeline.retryCfg totalTasks
              workerID js c) w
       (fun c' w' =>
         Pipeline.successCount c' + Pipeline.failCount c' =
           Pipeline.successCount c + Pipeline.failCount c + len js /\
         0 <= Pipeline.successCount c' /\ 0 <= Pipeline.failCount c' /\
         exists evs, trace w' = trace w ++ evs /\ admissions evs = length js)).
Proof.
  split; [|split].
  - intros accCtx period adjustType totalTasks workerID j c w Hdot Hfail.
    destruct (safeTableName_returns _ Hdot) as [t Hname].
    eapply total_mono;
      [apply (process_spec accCtx period adjustType Pipeline.retryCfg totalTasks
                workerID j t c w Hname); simpl; lia|].
    intros c' w' (evs & k & Htrace & _ & _ & Hfet & _ & Hle & _ & Hlast).
    simpl in Hle. destruct (failed_fetch_inr _ (Hfail k ltac:(lia))) as [err Herr].
    rewrite Herr in Hlast. destruct Hlast as (Hk & -> & Htables & _).
    simpl in Hk. split; [done|]. split; [intros Hroom; by apply add64_succ|].
    split; [done|]. split; [done|].
    exists (LimiterTick :: evs). split; [done|].
    change (LimiterTick :: evs) with ([LimiterTick] ++ evs).
    rewrite fetches_app, Hfet. simpl. lia.
  - intros accCtx period adjustType totalTasks workerID j c w Hdot.
    eapply total_mono; [apply process_counts_once; [done|simpl; lia]|].
    by intros c' w' (_ & Hcount & _).
  - intros accCtx period adjustType totalTasks workerID js c w Hdots Hcur Hsucc Hfail
      Hroom1 Hroom2.
    apply worker_total.
    eapply total_mono; [by apply pool_spec|].
    intros c' w' (_ & Hsucc' & Hfail' & Hsum & Hevs). by repeat split.
Qed.

(** C8.  In [InsertCandlesticks] of the pipeline, for a symbol with a
    table name: when preparing the statement fails, that error is returned,
    no insert is sent and the tables are as before; otherwise the insert
    is sent for every record, in order, whatever fails among them, one
    "Insert failed" line is logged per failed insert, and the function
    returns nil.  In the worker, after a successful remote call, the job
    is counted as failed exactly when preparing fails, and as succeeded
    otherwise, however many inserts failed. *)
Theorem failed_inserts_are_logged_and_skipped (symbol t : string) :
  Pipeline.safeTableName symbol = Return t ->
  (forall (cs : list Candlestick) (w : World),
     total (Pipeline.InsertCandlesticks symbol cs) w (fun r w' =>
       exists evs,
         trace w' = trace w ++ evs /\
         if prepare_fails t w
         then r = Some (if failing w then store_failure else no_such_table) /\
              statements evs = [PrepareInsert t] /\
              printed evs = [] /\
              tables w' = tables w
         else r = None /\
              statements evs =
                PrepareInsert t :: ((fun c => ExecInsert t (row_of c)) <$> cs) /\
              printed evs = (fun _ => LInsertFailed store_failure) <$>
                              failures (length cs) (tail (faults w)))) /\
  (forall (accCtx : QuoteContext) (period : Period) (adjustType : AdjustType)
          (totalTasks workerID : Z) (date : Time) (c : Pipeline.Counters) (w : World)
          (pts : list quote.Candlestick),
     accCtx (calls w) symbol period adjustType
       (on_day_of date 0 0 0) (on_day_of date 23 59 59) = inl pts ->
     total (Pipeline.process accCtx period adjustType Pipeline.retryCfg totalTasks
              workerID {| Pipeline.symbol := symbol; Pipeline.date := date |} c) w
       (fun c' w' =>
         c' = if prepare_fails t w
              then Pipeline.add_failCount (Pipeline.add_currentTask c)
              else Pipeline.add_successCount (Pipeline.add_currentTask c))).
Proof.
  intros Hname. split.
  - intros cs w.
    eapply total_mono; [apply (InsertCandlesticks_spec symbol t cs w Hname)|].
    intros r w' (_ & evs & Htrace & _ & Hcases). exists evs. split; [done|].
    destruct (prepare_fails t w).
    + by destruct Hcases as (-> & ? & _ & ? & ?).
    + by destruct Hcases as (-> & _ & ? & ? & _).
  - intros accCtx period adjustType totalTasks workerID date c w pts Hans.
    eapply total_mono;
      [apply (process_spec accCtx period adjustType Pipeline.retryCfg totalTasks
                workerID {| Pipeline.symbol := symbol; Pipeline.date := date |} t c w
                Hname); simpl; lia|].
    intros c' w' (evs & k & _ & _ & _ & _ & _ & _ & Hfirst & Hlast).
    cbn [Pipeline.symbol Pipeline.date] in Hfirst, Hlast.
    destruct k as [|k].
    + rewrite Nat.add_0_r, Hans in Hlast. by destruct Hlast.
    + specialize (Hfirst 0%nat ltac:(lia)).
      by rewrite Nat.add_0_r, Hans in Hfirst.
Qed.

(** ** A table that cannot be created *)

(** In the sequential program, when creating the table of a symbol fails,
    the symbol is skipped: the failure is printed, no remote call is made
    for any date, no table changes, and the task counter stays. *)
Lemma Sequential_skips_symbol (qctx : QuoteContext) (period : Period)
    (adjustType : AdjustType) (totalTasks : Z) (dates : list Time) (symbol : string)
    (currentTask : Z) (w : World) :
  failing w = true ->
  total (Sequential.one_symbol qctx period adjustType totalTasks dates symbol
           currentTask) w
    (fun currentTask' w' =>
      currentTask' = currentTask /\ calls w' = calls w /\ tables w' = tables w /\
      exists t evs,
        Sequential.tableName symbol = Return t /\
        trace w' = trace w ++ evs /\
        evs = [Print (LSeqStartSymbol symbol); Sql (CreateTableIfNotExists t);
               Print (LCreateTableFailed store_failure)] /\
        fetches evs = 0%nat).
Proof.
  intros Hfail. destruct (Sequential_tableName_returns symbol) as [t Hname].
  unfold Sequential.one_symbol, Sequential.EnsureTable, lift. rewrite Hname.
  apply total_bind. eapply total_eq; [reflexivity|].
  apply total_bind, total_bind, total_ret.
  eapply total_eq; [apply db_Exec_create_eq|].
  change (failing (logged (Print (LSeqStartSymbol symbol)) w)) with (failing w).
  rewrite Hfail.
  apply total_bind. eapply total_eq; [reflexivity|]. apply total_ret.
  split; [done|]. split; [done|]. split; [done|].
  eexists t, _. split; [done|]. split; [|split; [reflexivity|done]].
  simpl. by rewrite <- !app_assoc.
Qed.

(** The loop over the symbols then goes on with the next symbol. *)
Lemma Sequential_continues_after_skip (qctx : QuoteContext) (period : Period)
    (adjustType : AdjustType) (totalTasks : Z) (dates : list Time) (symbol : string)
    (rest : list string) (currentTask : Z) (w : World) :
  failing w = true ->
  exists w',
    calls w' = calls w /\ tables w' = tables w /\
    range (symbol :: rest)
      (Sequential.one_symbol qctx period adjustType totalTasks dates) currentTask w =
    range rest
      (Sequential.one_symbol qctx period adjustType totalTasks dates) currentTask w'.
Proof.
  intros Hfail.
  destruct (Sequential_skips_symbol qctx period adjustType totalTasks dates symbol
              currentTask w Hfail) as (ct & w' & Hrun & -> & Hcalls & Htables & _).
  exists w'. split; [done|]. split; [done|].
  cbn [range]. by rewrite (bind_eq _ _ _ _ _ Hrun).
Qed.

(** In the pipeline a failure to create a table changes nothing in what
    follows: the loop that creates the tables only prints it. *)
Lemma Pipeline_ensure_failure_is_only_printed (symbol t : string) (w : World) :
  Pipeline.safeTableName symbol = Return t ->
  failing w = true ->
  Pipeline.ensure_one symbol tt w =
    Return (tt, logged (Print (LCreateTableFailed store_failure))
                  (sent (CreateTableIfNotExists t) w)).
Proof.
  intros Hname Hfail.
  unfold Pipeline.ensure_one, Pipeline.EnsureTable, lift. rewrite Hname.
  unfold bind. cbv beta iota. by rewrite db_Exec_create_eq, Hfail.
Qed.

End Facts.

(** * Further properties of the code *)

Section Further.
Context `{DecimalLib}.
Context {unicode : strings.Unicode}.

(** ** Table names of the pipeline: which symbols share a table *)

Lemma lower_byte_idem (c : ascii) :
  strings.lower_byte (strings.lower_byte c) = strings.lower_byte c.
Proof. by destruct c as [[] [] [] [] [] [] [] []]. Qed.

Lemma lower_byte_dot (c : ascii) :
  Ascii.eqb (strings.lower_byte c) dot = Ascii.eqb c dot.
Proof. by destruct c as [[] [] [] [] [] [] [] []]. Qed.

Lemma lower_byte_underscore (c : ascii) :
  Ascii.eqb (strings.lower_byte c) "_"%char = Ascii.eqb c "_"%char.
Proof. by destruct c as [[] [] [] [] [] [] [] []]. Qed.

Lemma lower_byte_below_128 (c : ascii) :
  Nat.ltb (nat_of_ascii (strings.lower_byte c)) 128 = Nat.ltb (nat_of_ascii c) 128.
Proof. by destruct c as [[] [] [] [] [] [] [] []]. Qed.

Lemma lower_bytes_idem (s : string) :
  strings.lower_bytes (strings.lower_bytes s) = strings.lower_bytes s.
Proof.
  induction s as [|c s IH]; [done|]. simpl. by rewrite lower_byte_idem, IH.
Qed.

Lemma lower_bytes_app (s s' : string) :
  strings.lower_bytes (s +:+ s') = strings.lower_bytes s +:+ strings.lower_bytes s'.
Proof. induction s as [|c s IH]; [done|]. simpl. by rewrite IH. Qed.

Lemma lower_bytes_contains_dot (s : string) :
  contains_byte (strings.lower_bytes s) dot = contains_byte s dot.
Proof.
  induction s as [|c s IH]; [done|]. simpl. by rewrite lower_byte_dot, IH.
Qed.

Lemma lower_bytes_contains_underscore (s : string) :
  contains_byte (strings.lower_bytes s) "_"%char = contains_byte s "_"%char.
Proof.
  induction s as [|c s IH]; [done|]. simpl. by rewrite lower_byte_underscore, IH.
Qed.

Lemma lower_bytes_isASCII (s : string) :
  strings.isASCII (strings.lower_bytes s) = strings.isASCII s.
Proof.
  induction s as [|c s IH]; [done|].
  cbn [strings.lower_bytes strings.isASCII]. by rewrite lower_byte_below_128, IH.
Qed.

(** On ASCII text [strings.ToLower] is the byte loop. *)
Lemma ToLower_ascii (s : string) :
  strings.isASCII s = true -> strings.ToLower s = strings.lower_bytes s.
Proof. intros Hs. unfold strings.ToLower. by rewrite Hs. Qed.

Lemma isASCII_app (s s' : string) :
  strings.isASCII (s +:+ s') = strings.isASCII s && strings.isASCII s'.
Proof.
  induction s as [|c s IH]; [done|].
  change (String c s +:+ s') with (String c (s +:+ s')).
  cbn [strings.isASCII]. by rewrite IH, andb_assoc.
Qed.

Lemma contains_byte_app (s s' : string) (c : ascii) :
  contains_byte (s +:+ s') c = contains_byte s c || contains_byte s' c.
Proof.
  induction s as [|c' s IH]; [done|]. simpl. by rewrite IH, orb_assoc.
Qed.

Lemma Split_lower_bytes (s : string) :
  strings.Split (strings.lower_bytes s) dot =
    strings.lower_bytes <$> strings.Split s dot.
Proof.
  induction s as [|c s IH]; [done|].
  cbn [strings.lower_bytes strings.Split]. rewrite lower_byte_dot, IH.
  destruct (Ascii.eqb c dot); [done|].
  by destruct (strings.Split s dot).
Qed.

Lemma Split_pieces (s : string) (sep : ascii) :
  Forall (fun piece => contains_byte piece sep = false) (strings.Split s sep).
Proof.
  induction s as [|c s IH]; cbn [strings.Split].
  - by repeat constructor.
  - destruct (Ascii.eqb c sep) eqn:Hc; [by constructor|].
    destruct (strings.Split s sep) as [|piece pieces].
    + repeat constructor. simpl. by rewrite Hc.
    + apply Forall_cons in IH as [Hpiece Hpieces].
      constructor; [|done]. simpl. by rewrite Hc.
Qed.

Lemma Split_isASCII (s : string) (sep : ascii) :
  strings.isASCII s = true ->
  Forall (fun piece => strings.isASCII piece = true) (strings.Split s sep).
Proof.
  induction s as [|c s IH]; cbn [strings.Split strings.isASCII].
  - by repeat constructor.
  - intros [Hc Hs]%andb_true_iff. specialize (IH Hs).
    destruct (Ascii.eqb c sep); [by constructor|].
    destruct (strings.Split s sep) as [|piece pieces].
    + repeat constructor. cbn [strings.isASCII]. by rewrite Hc.
    + apply Forall_cons in IH as [Hpiece Hpieces].
      constructor; [|done]. cbn [strings.isASCII]. by rewrite Hc, Hpiece.
Qed.

Lemma safeTableName_pieces (symbol name : string) :
  Pipeline.safeTableName symbol = Return name ->
  exists base region pieces,
    strings.Split symbol dot = base :: region :: pieces /\
    name = strings.ToLower base +:+ "_" +:+ strings.ToLower region.
Proof.
  unfold Pipeline.safeTableName, index.
  destruct (strings.Split symbol dot) as [|base [|region pieces]]; simpl; try done.
  intros [= <-]. by eauto.
Qed.

(** The table name of an ASCII symbol, by the byte loop alone. *)
Lemma safeTableName_ascii (symbol : string) :
  strings.isASCII symbol = true ->
  Pipeline.safeTableName symbol =
    let! base := index (strings.Split symbol dot) 0 in
    let! region := index (strings.Split symbol dot) 1 in
    Return (strings.lower_bytes base +:+ "_" +:+ strings.lower_bytes region).
Proof.
  intros Hascii%(Split_isASCII _ dot). unfold Pipeline.safeTableName, index.
  destruct (strings.Split symbol dot) as [|base [|region pieces]]; simpl; try done.
  apply Forall_cons in Hascii as [Hbase Hascii].
  apply Forall_cons in Hascii as [Hregion _].
  by rewrite !ToLower_ascii.
Qed.

(** X1. ASCII symbols that differ only in the case of their letters get
    the same table (or panic alike). *)
Theorem safeTableName_ignores_case (symbol symbol' : string) :
  strings.isASCII symbol = true -> strings.isASCII symbol' = true ->
  strings.ToLower symbol = strings.ToLower symbol' ->
  Pipeline.safeTableName symbol = Pipeline.safeTableName symbol'.
Proof.
  assert (Hlow : forall s, strings.isASCII s = true ->
            Pipeline.safeTableName (strings.lower_bytes s) = Pipeline.safeTableName s).
  { intros s Hs.
    rewrite !safeTableName_ascii by by rewrite ?lower_bytes_isASCII.
    unfold index. rewrite Split_lower_bytes, !list_lookup_fmap.
    destruct (strings.Split s dot) as [|base [|region pieces]]; simpl; try done.
    by rewrite !lower_bytes_idem. }
  intros Hs Hs' Heq. rewrite !ToLower_ascii in Heq by done.
  by rewrite <- (Hlow symbol), <- (Hlow symbol'), Heq.
Qed.

(** X2. Only the first two pieces of a symbol count: whatever follows a second
    dot is ignored, so "BRK.A.US" and "BRK.A.HK" share the table "brk_a". *)
Theorem safeTableName_ignores_third_piece (base region rest : string) :
  contains_byte base dot = false ->
  contains_byte region dot = false ->
  Pipeline.safeTableName (base +:+ "." +:+ region +:+ "." +:+ rest) =
    Return (strings.ToLower base +:+ "_" +:+ strings.ToLower region).
Proof.
  intros Hbase Hregion. unfold Pipeline.safeTableName.
  change ("." +:+ region +:+ "." +:+ rest) with (String dot (region +:+ String dot rest)).
  rewrite (Split_append base _ dot Hbase), (Split_append region rest dot Hregion).
  by destruct (Split_cons rest dot) as (piece & pieces & ->).
Qed.

(** X3. The table name of an ASCII symbol never contains a dot. *)
Theorem safeTableName_has_no_dot (symbol name : string) :
  strings.isASCII symbol = true ->
  Pipeline.safeTableName symbol = Return name ->
  contains_byte name dot = false.
Proof.
  intros Hascii. rewrite safeTableName_ascii by done. unfold index.
  pose proof (Split_pieces symbol dot) as Hall.
  destruct (strings.Split symbol dot) as [|base [|region pieces]]; simpl; try done.
  intros [= <-].
  apply Forall_cons in Hall as [Hbase Hall].
  apply Forall_cons in Hall as [Hregion _].
  by rewrite !contains_byte_app, !lower_bytes_contains_dot, Hbase, Hregion.
Qed.

Lemma string_app_assoc (a b c : string) : (a +:+ b) +:+ c = a +:+ (b +:+ c).
Proof. induction a as [|x a IH]; [done|]. change (String x ((a +:+ b) +:+ c) = String x (a +:+ (b +:+ c))). by rewrite IH. Qed.

Lemma append_sep_inj (x x' y y' : string) (sep : ascii) :
  contains_byte x sep = false -> contains_byte x' sep = false ->
  x +:+ String sep y = x' +:+ String sep y' -> x = x' /\ y = y'.
Proof.
  revert x'. induction x as [|c x IH]; intros [|c' x']; simpl.
  - intros _ _ [= ->]. done.
  - intros _ Hx' [= <- _]. by rewrite Ascii.eqb_refl in Hx'.
  - intros Hx _ [= -> _]. by rewrite Ascii.eqb_refl in Hx.
  - intros Hx Hx' [= <- Heq].
    apply orb_false_iff in Hx as [_ Hx]. apply orb_false_iff in Hx' as [_ Hx'].
    destruct (IH x' Hx Hx' Heq) as [-> ->]. done.
Qed.

(** X4. Among ASCII symbols made of a base without underscore and a
    region, two get the same table only when they agree up to the case of
    their letters. *)
Theorem safeTableName_injective_without_underscore (base region base' region' : string) :
  strings.isASCII base = true -> strings.isASCII region = true ->
  strings.isASCII base' = true -> strings.isASCII region' = true ->
  contains_byte base dot = false -> contains_byte region dot = false ->
  contains_byte base' dot = false -> contains_byte region' dot = false ->
  contains_byte base "_"%char = false -> contains_byte base' "_"%char = false ->
  Pipeline.safeTableName (base +:+ "." +:+ region) =
    Pipeline.safeTableName (base' +:+ "." +:+ region') ->
  strings.ToLower base = strings.ToLower base' /\
  strings.ToLower region = strings.ToLower region'.
Proof.
  intros Ha Har Ha' Har' Hb Hr Hb' Hr' Hu Hu'.
  rewrite !safeTableName_base_region by done.
  rewrite !ToLower_ascii by done. intros [= Heq].
  apply (append_sep_inj _ _ _ _ "_"%char); [| |done];
    by rewrite lower_bytes_contains_underscore.
Qed.

(** X5. In an ASCII symbol an underscore of the base or the region is not
    told apart from the joining underscore: "A_B.C" and "A.B_C" share the
    table "a_b_c". *)
Theorem safeTableName_underscore_collision (base middle region : string) :
  strings.isASCII base = true -> strings.isASCII middle = true ->
  strings.isASCII region = true ->
  contains_byte base dot = false -> contains_byte middle dot = false ->
  contains_byte region dot = false ->
  Pipeline.safeTableName ((base +:+ "_" +:+ middle) +:+ "." +:+ region) =
    Pipeline.safeTableName (base +:+ "." +:+ (middle +:+ "_" +:+ region)).
Proof.
  intros Ha Hma Hra Hb Hm Hr.
  rewrite !safeTableName_base_region;
    rewrite ?contains_byte_app, ?Hb, ?Hm, ?Hr; try done.
  rewrite !ToLower_ascii by (rewrite ?isASCII_app, ?Ha, ?Hma, ?Hra; done).
  by rewrite !lower_bytes_app, string_app_assoc.
Qed.

(** ** The two programs side by side *)

Lemma append_longer (a b : string) (c : ascii) : a +:+ String c b <> a.
Proof.
  induction a as [|x a IH]; [done|].
  change (String x (a +:+ String c b) <> String x a). by intros [= Heq].
Qed.

(** X6. For a symbol the pipeline can name, the sequential program names
    its table by the base alone and the pipeline appends an underscore and
    the region to that name: the two programs never use the same table for
    a symbol. *)
Theorem programs_use_different_tables (symbol name : string) :
  Pipeline.safeTableName symbol = Return name ->
  exists base region,
    Sequential.tableName symbol = Return base /\
    name = base +:+ "_" +:+ region /\
    name <> base.
Proof.
  intros (base & region & pieces & Hsplit & ->)%safeTableName_pieces.
  exists (strings.ToLower base), (strings.ToLower region).
  split; [|split; [done|apply append_longer]].
  unfold Sequential.tableName, index. by rewrite Hsplit.
Qed.

Lemma convert_loop (symbol : string) (candlesticks : list quote.Candlestick)
    (records : list Candlestick) :
  range_go candlesticks (fun c records =>
    let! open := Sequential.deref_float (quote.Open c) in
    let! close := Sequential.deref_float (quote.Close c) in
    let! high := Sequential.deref_float (quote.High c) in
    let! low := Sequential.deref_float (quote.Low c) in
    let! turnover := Sequential.deref_float (quote.Turnover c) in
    Return (records ++ [{| Symbol := symbol;
                           Timestamp := time_Unix (quote.Timestamp c);
                           Open := open; Close := close; High := high; Low := low;
                           Volume := quote.Volume c; Turnover := turnover |}])) records =
  if forallb has_all_values candlesticks
  then Return (records ++ omap (record_of_point symbol) candlesticks)
  else Panic NilDereference.
Proof.
  revert records. induction candlesticks as [|c cs IH]; intros records.
  - simpl. by rewrite app_nil_r.
  - cbn [range_go forallb omap].
    unfold has_all_values at 1, complete, record_of_point.
    destruct c as [cl o l h v t ts]; cbn [quote.Open quote.Close quote.High quote.Low
      quote.Turnover quote.Volume quote.Timestamp].
    destruct o as [o|], cl as [cl|], h as [h|], l as [l|], t as [t|]; try done.
    cbn. rewrite IH. destruct (forallb has_all_values cs); [|done].
    by rewrite <- app_assoc.
Qed.

(** X7. The conversion loop of the sequential program makes the records
    the pipeline makes when every point has its four prices and its
    turnover, and panics on a nil pointer as soon as one point lacks any
    of them: it has none of the pipeline's nil checks. *)
Theorem Sequential_convert_needs_all_values (symbol : string)
    (candlesticks : list quote.Candlestick) :
  Sequential.convert symbol candlesticks =
    if forallb has_all_values candlesticks
    then Return (Pipeline.transform symbol candlesticks)
    else Panic NilDereference.
Proof.
  unfold Sequential.convert, Pipeline.transform.
  by rewrite convert_loop, transform_fold.
Qed.

(** ** The pipeline from start to end *)

Lemma bind_panic {A B} (m : M A) (k : A -> M B) (w : World) (why : Crash) :
  m w = Panic why -> bind m k w = Panic why.
Proof. intros Hm. unfold bind. by rewrite Hm. Qed.

Lemma ensure_one_panics (symbol : string) (w : World) :
  contains_byte symbol dot = false ->
  Pipeline.ensure_one symbol tt w = Panic IndexOutOfRange.
Proof.
  intros Hdot. unfold Pipeline.ensure_one, Pipeline.EnsureTable, lift.
  by rewrite (safeTableName_panics _ Hdot).
Qed.

Lemma ensure_all_panics (symbols : list string) (w : World) :
  Exists (fun s => contains_byte s dot = false) symbols ->
  range symbols Pipeline.ensure_one tt w = Panic IndexOutOfRange.
Proof.
  revert w. induction symbols as [|s ss IH]; intros w Hex.
  - by apply Exists_nil in Hex.
  - cbn [range]. destruct (contains_byte s dot) eqn:Hs.
    + destruct (ensure_one_total s w Hs) as ([] & w1 & Hrun & _).
      rewrite (bind_eq _ _ _ _ _ Hrun). apply IH.
      apply Exists_cons in Hex as [Hhead|Htail]; [congruence|done].
    + apply bind_panic. by apply ensure_one_panics.
Qed.

(** X8. One symbol without a dot anywhere in the configuration ends the
    whole run of the pipeline with an index-out-of-range panic, while the
    tables are being created: before any job is queued and any remote call
    is made, whatever the other symbols, the dates and the store. *)
Theorem Pipeline_main_panics_without_dot (max_chan_bytes : Z) (symbols : list string)
    (dates : list Time) (periodStr adjustStr : string) (acc_Threads acc_RPS : Z)
    (accCtx : QuoteContext) (sched : nat -> Z) (w : World) :
  Exists (fun s => contains_byte s dot = false) symbols ->
  Pipeline.main max_chan_bytes symbols dates periodStr adjustStr acc_Threads acc_RPS
    accCtx sched w = Panic IndexOutOfRange.
Proof.
  intros Hex. unfold Pipeline.main.
  erewrite bind_eq by reflexivity.
  apply bind_panic. by apply ensure_all_panics.
Qed.

Lemma ensure_one_no_call (symbol : string) (w : World) :
  contains_byte symbol dot = true ->
  total (Pipeline.ensure_one symbol tt) w (fun _ w' => calls w' = calls w).
Proof.
  intros Hdot. destruct (safeTableName_returns _ Hdot) as [t Hname].
  unfold Pipeline.ensure_one, Pipeline.EnsureTable, lift. rewrite Hname.
  apply total_bind, total_bind, total_ret.
  eapply total_eq; [apply db_Exec_create_eq|].
  destruct (failing w).
  - by eapply total_eq; [reflexivity|].
  - apply total_ret. by destruct (tables w !! t).
Qed.

Lemma ensure_all_no_call (symbols : list string) (w : World) :
  Forall (fun s => contains_byte s dot = true) symbols ->
  total (range symbols Pipeline.ensure_one tt) w (fun _ w' => calls w' = calls w).
Proof.
  intros Hdots. revert w. induction Hdots as [|s ss Hs _ IH]; intros w.
  - by apply total_ret.
  - cbn [range]. apply total_bind.
    eapply total_mono; [by apply ensure_one_no_call|].
    intros [] w1 Hcalls1. eapply total_mono; [apply IH|].
    intros [] w' Hcalls. by rewrite Hcalls.
Qed.

Lemma pool_calls (accCtx : QuoteContext) (period : Period) (adjustType : AdjustType)
    (cfg : Pipeline.RetryConfig) (totalTasks threads : Z) (sched : nat -> Z)
    (queue : list Pipeline.job) (k : nat) (c : Pipeline.Counters) (w : World) :
  1 <= Pipeline.MaxAttempts cfg ->
  Forall (fun j => contains_byte (Pipeline.symbol j) dot = true) queue ->
  total (Pipeline.pool accCtx period adjustType cfg totalTasks threads sched k queue c) w
    (fun _ w' =>
      Z.of_nat (calls w) + len queue <= Z.of_nat (calls w') /\
      Z.of_nat (calls w') <= Z.of_nat (calls w) + Pipeline.MaxAttempts cfg * len queue).
Proof.
  intros Hmax Hdots. revert k c w.
  induction Hdots as [|j q Hj _ IH]; intros k c w.
  - apply total_ret. unfold len. simpl. lia.
  - cbn [Pipeline.pool]. apply total_bind.
    destruct (safeTableName_returns _ Hj) as [t Hname].
    eapply total_mono; [by apply (process_spec _ _ _ _ _ _ _ t)|].
    intros c1 w1 (evs & n & _ & Hcalls1 & _ & _ & _ & Hle & _).
    eapply total_mono; [apply (IH (S k) c1 w1)|].
    intros c' w' [Hlow Hhigh]. unfold len in *. simpl length. rewrite Hcalls1 in *.
    split; nia.
Qed.

(** The ticker is made when the rate is at most 1000000000. *)
Lemma NewTicker_returns (acc_RPS : Z) :
  acc_RPS <= 1000000000 -> time_NewTicker (main_interval acc_RPS) = Return tt.
Proof.
  intros Hrps. unfold time_NewTicker, main_interval, Second. cbv zeta.
  destruct (Z.leb_spec acc_RPS 0) as [Hle|Hlt]; [done|].
  rewrite Z.quot_div_nonneg by lia.
  assert (Hone : 1 <= 1000000000 / acc_RPS).
  { apply Z.div_le_lower_bound; lia. }
  by destruct (Z.leb_spec (1000000000 / acc_RPS) 0); [lia|].
Qed.

(** The WaitGroup counts the workers when they are fewer than 2^31. *)
Lemma wg_Add_returns (acc_Threads : Z) :
  main_threads acc_Threads < 2 ^ 31 -> wg_Add (main_threads acc_Threads) = Return tt.
Proof.
  intros Hthreads.
  assert (Hpos : 1 <= main_threads acc_Threads).
  { unfold main_threads. cbv zeta. destruct (Z.leb_spec acc_Threads 0); lia. }
  unfold wg_Add, wrap32. cbv zeta.
  rewrite Z.mod_small by lia.
  replace (main_threads acc_Threads + 2 ^ 31 - 2 ^ 31) with (main_threads acc_Threads)
    by lia.
  destruct (Z.ltb_spec (main_threads acc_Threads) 0); [lia|].
  by rewrite Z.eqb_refl.
Qed.

(** X9. A run of the pipeline that reaches its workers makes at least one
    remote call per task and at most three, however the calls fail:
    between [|symbols| * |dates|] and three times as many. *)
Theorem Pipeline_main_call_budget (max_chan_bytes : Z) (symbols : list string)
    (dates : list Time) (periodStr adjustStr : string) (acc_Threads acc_RPS : Z)
    (accCtx : QuoteContext) (sched : nat -> Z) (w : World) :
  main_starts max_chan_bytes symbols dates acc_Threads acc_RPS ->
  total (Pipeline.main max_chan_bytes symbols dates periodStr adjustStr acc_Threads
           acc_RPS accCtx sched) w
    (fun _ w' =>
      Z.of_nat (calls w) + len symbols * len dates <= Z.of_nat (calls w') /\
      Z.of_nat (calls w') <= Z.of_nat (calls w) + 3 * (len symbols * len dates)).
Proof.
  intros (Hdots & Hfits & Hrps & Hthreads). unfold Pipeline.main.
  apply total_bind. eapply total_eq; [reflexivity|].
  set (w0 := logged _ w).
  apply total_bind.
  eapply total_mono; [by apply ensure_all_no_call|].
  intros [] w1 Hcalls1. change (calls w0) with (calls w) in Hcalls1.
  apply total_bind. unfold lift. rewrite make_and_fill by done.
  apply total_ret. cbn [Pipeline.buf].
  apply total_bind. rewrite NewTicker_returns by done. apply total_ret.
  apply total_bind. rewrite wg_Add_returns by done. apply total_ret.
  assert (Hlen : len (cross_product symbols dates) = len symbols * len dates).
  { unfold len. rewrite cross_product_length. lia. }
  apply total_bind. eapply total_mono.
  { apply pool_calls; [simpl; lia|].
    apply Forall_forall. intros jb [Hs _]%cross_product_elem.
    by apply (proj1 (Forall_forall _ _) Hdots). }
  intros c w2 [Hlow Hhigh]. rewrite Hlen, Hcalls1 in Hlow, Hhigh.
  apply total_bind. eapply total_eq; [reflexivity|].
  apply total_bind. eapply total_eq; [reflexivity|].
  apply total_ret. by cbn [calls logged].
Qed.

(** X21. A run of the pipeline that reaches its workers returns, whatever
    fails: every job has passed the limiter once and has moved exactly one
    of the two counters, so that, at the end, the task counter is the
    number of tasks and the successes and failures add up to it. *)
Theorem Pipeline_main_counts_every_job (max_chan_bytes : Z) (symbols : list string)
    (dates : list Time) (periodStr adjustStr : string) (acc_Threads acc_RPS : Z)
    (accCtx : QuoteContext) (sched : nat -> Z) (w : World) :
  main_starts max_chan_bytes symbols dates acc_Threads acc_RPS ->
  total (Pipeline.main max_chan_bytes symbols dates periodStr adjustStr acc_Threads
           acc_RPS accCtx sched) w
    (fun c w' =>
      Pipeline.currentTask c = len symbols * len dates /\
      0 <= Pipeline.successCount c /\ 0 <= Pipeline.failCount c /\
      Pipeline.successCount c + Pipeline.failCount c = len symbols * len dates /\
      exists evs, trace w' = trace w ++ evs /\
                  admissions evs = (length symbols * length dates)%nat).
Proof.
  intros (Hdots & Hfits & Hrps & Hthreads). unfold Pipeline.main.
  assert (Hpos : 0 <= len symbols * len dates) by (unfold len; nia).
  pose proof (fits_chan_int _ _ Hpos Hfits) as Hint.
  apply total_bind. eapply total_eq; [reflexivity|].
  set (w0 := logged _ w).
  apply total_bind.
  eapply total_mono; [by apply ensure_all_total|].
  intros [] w1 (evs1 & Htrace1 & Hstore1).
  destruct (store_events_silent evs1 Hstore1) as (Hadm1 & _ & _).
  apply total_bind. unfold lift. rewrite make_and_fill by done.
  apply total_ret. cbn [Pipeline.buf].
  apply total_bind. rewrite NewTicker_returns by done. apply total_ret.
  apply total_bind. rewrite wg_Add_returns by done. apply total_ret.
  assert (Hlen : len (cross_product symbols dates) = len symbols * len dates).
  { unfold len. rewrite cross_product_length. lia. }
  apply total_bind. eapply total_mono.
  { apply pool_spec; simpl; try lia.
    apply Forall_forall. intros jb [Hs _]%cross_product_elem.
    by apply (proj1 (Forall_forall _ _) Hdots). }
  intros c w2 (Hcur & Hsucc & Hfail & Hsum & evs & Htrace & Hadm).
  cbn [Pipeline.currentTask Pipeline.successCount Pipeline.failCount] in Hcur, Hsum.
  rewrite Hlen, ?Z.add_0_l in Hcur, Hsum.
  apply total_bind. eapply total_eq; [reflexivity|].
  apply total_bind. eapply total_eq; [reflexivity|].
  apply total_ret. split; [done|]. split; [done|]. split; [done|]. split; [done|].
  eexists ([_] ++ evs1 ++ evs ++ [_; _]).
  split.
  - simpl. rewrite Htrace, Htrace1. unfold w0. simpl. rewrite <- !app_assoc.
    reflexivity.
  - rewrite !admissions_app, Hadm1, Hadm, cross_product_length.
    cbn -[Nat.mul]. lia.
Qed.

(** A first run of [main], on a store that fails no statement, with a
    stable service: all the tables are there afterwards, with the records of
    every job. *)
Lemma main_first (max_chan_bytes : Z) (symbols : list string) (dates : list Time)
    (periodStr adjustStr : string) (acc_Threads acc_RPS : Z) (accCtx : QuoteContext)
    (sched : nat -> Z) (w : World) :
  main_starts max_chan_bytes symbols dates acc_Threads acc_RPS ->
  stable accCtx ->
  faults w = [] ->
  total (Pipeline.main max_chan_bytes symbols dates periodStr adjustStr acc_Threads
           acc_RPS accCtx sched) w
    (fun _ w' =>
      faults w' = [] /\
      rows_kept (tables w) (tables w') /\
      (unique_timestamps (tables w) -> unique_timestamps (tables w')) /\
      tables_exist symbols (tables w') /\
      Forall (job_stored accCtx (getPeriodFromConfig periodStr)
                (getAdjustTypeFromConfig adjustStr) (tables w'))
        (cross_product symbols dates)).
Proof.
  intros (Hdots & Hfits & Hrps & Hthreads) Hstable Hnone. unfold Pipeline.main.
  apply total_bind. eapply total_eq; [reflexivity|].
  apply total_bind.
  eapply total_mono; [by apply ensure_first|].
  intros [] w1 (Hnone1 & Hkept1 & Huniq1 & Hexist1).
  apply total_bind. unfold lift. rewrite make_and_fill by done.
  apply total_ret. cbn [Pipeline.buf].
  apply total_bind. rewrite NewTicker_returns by done. apply total_ret.
  apply total_bind. rewrite wg_Add_returns by done. apply total_ret.
  apply total_bind. eapply total_mono.
  { apply pool_first; [simpl; lia|done|by apply cross_product_dots|done|].
    by apply cross_product_tables_exist. }
  intros c w2 (Hnone2 & Hkept2 & Huniq2 & Hstored2).
  apply total_bind. eapply total_eq; [reflexivity|].
  apply total_bind. eapply total_eq; [reflexivity|].
  apply total_ret. cbn [faults tables logged].
  split; [done|]. split; [by apply (rows_kept_trans _ (tables w1))|].
  split; [auto|]. split; [|done].
  by apply (tables_exist_kept _ (tables w1)).
Qed.

(** A later run of [main], under any failure script, changes no table. *)
Lemma main_second (max_chan_bytes : Z) (symbols : list string) (dates : list Time)
    (periodStr adjustStr : string) (acc_Threads acc_RPS : Z) (accCtx : QuoteContext)
    (sched : nat -> Z) (w : World) :
  main_starts max_chan_bytes symbols dates acc_Threads acc_RPS ->
  stable accCtx ->
  tables_exist symbols (tables w) ->
  Forall (job_stored accCtx (getPeriodFromConfig periodStr)
            (getAdjustTypeFromConfig adjustStr) (tables w))
    (cross_product symbols dates) ->
  total (Pipeline.main max_chan_bytes symbols dates periodStr adjustStr acc_Threads
           acc_RPS accCtx sched) w
    (fun _ w' => tables w' = tables w).
Proof.
  intros (Hdots & Hfits & Hrps & Hthreads) Hstable Hexist Hstored.
  unfold Pipeline.main.
  apply total_bind. eapply total_eq; [reflexivity|].
  apply total_bind.
  eapply total_mono; [by apply ensure_second|].
  intros [] w1 Htables1. cbn [tables logged] in Htables1.
  apply total_bind. unfold lift. rewrite make_and_fill by done.
  apply total_ret. cbn [Pipeline.buf].
  apply total_bind. rewrite NewTicker_returns by done. apply total_ret.
  apply total_bind. rewrite wg_Add_returns by done. apply total_ret.
  apply total_bind. eapply total_mono.
  { apply pool_second; [simpl; lia|done|by apply cross_product_dots|].
    by rewrite Htables1. }
  intros c w2 Htables2.
  apply total_bind. eapply total_eq; [reflexivity|].
  apply total_bind. eapply total_eq; [reflexivity|].
  apply total_ret. cbn [tables logged]. congruence.
Qed.

(** X22. Running the whole pipeline again changes nothing.  With a
    configuration that reaches the workers, a service that answers the
    same, and a first run on a store that fails no statement and has one
    row per timestamp: a second run, under any failure script and any
    schedule, returns and leaves every table as the first run left it; the
    tables then have one row per timestamp and every row they had. *)
Theorem Pipeline_main_run_twice (max_chan_bytes : Z) (symbols : list string)
    (dates : list Time) (periodStr adjustStr : string) (acc_Threads acc_RPS : Z)
    (accCtx : QuoteContext) (sched sched' : nat -> Z) (w : World)
    (script : list bool) :
  main_starts max_chan_bytes symbols dates acc_Threads acc_RPS ->
  stable accCtx ->
  faults w = [] ->
  unique_timestamps (tables w) ->
  exists c1 w1 c2 w2,
    Pipeline.main max_chan_bytes symbols dates periodStr adjustStr acc_Threads acc_RPS
      accCtx sched w = Return (c1, w1) /\
    Pipeline.main max_chan_bytes symbols dates periodStr adjustStr acc_Threads acc_RPS
      accCtx sched' (set_faults script w1) = Return (c2, w2) /\
    tables w2 = tables w1 /\
    unique_timestamps (tables w1) /\
    rows_kept (tables w) (tables w1).
Proof.
  intros Hstart Hstable Hnone Huniq.
  destruct (main_first max_chan_bytes symbols dates periodStr adjustStr acc_Threads
              acc_RPS accCtx sched w Hstart Hstable Hnone)
    as (c1 & w1 & Hrun1 & _ & Hkept1 & Huniq1 & Hexist1 & Hstored1).
  destruct (main_second max_chan_bytes symbols dates periodStr adjustStr acc_Threads
              acc_RPS accCtx sched' (set_faults script w1) Hstart Hstable Hexist1
              Hstored1)
    as (c2 & w2 & Hrun2 & Htables2).
  exists c1, w1, c2, w2. split; [done|]. split; [done|]. split; [done|]. by auto.
Qed.

(** X10. A job whose first [k] remote calls fail and whose next call
    answers, with [k] below the three attempts, recovers: it makes exactly
    [k + 1] calls, waits the backoff of the attempts 1 to [k] between them,
    stores the records of the answer, and is counted as succeeded unless
    preparing the insert fails. *)
Theorem job_recovers_after_failed_attempts (accCtx : QuoteContext) (period : Period)
    (adjustType : AdjustType) (totalTasks workerID : Z) (j : Pipeline.job)
    (t : string) (c : Pipeline.Counters) (w : World) (k : nat)
    (pts : list quote.Candlestick) :
  Pipeline.safeTableName (Pipeline.symbol j) = Return t ->
  Z.of_nat k < Pipeline.MaxAttempts Pipeline.retryCfg ->
  (forall i, (i < k)%nat ->
     failed_fetch (accCtx (calls w + i)%nat (Pipeline.symbol j) period adjustType
                     (on_day_of (Pipeline.date j) 0 0 0)
                     (on_day_of (Pipeline.date j) 23 59 59)) = true) ->
  accCtx (calls w + k)%nat (Pipeline.symbol j) period adjustType
    (on_day_of (Pipeline.date j) 0 0 0) (on_day_of (Pipeline.date j) 23 59 59)
    = inl pts ->
  total (Pipeline.process accCtx period adjustType Pipeline.retryCfg totalTasks
           workerID j c) w
    (fun c' w' =>
      calls w' = (calls w + S k)%nat /\
      c' = (if prepare_fails t w
            then Pipeline.add_failCount (Pipeline.add_currentTask c)
            else Pipeline.add_successCount (Pipeline.add_currentTask c)) /\
      table_grows t (Pipeline.transform (Pipeline.symbol j) pts) w w' /\
      exists evs,
        trace w' = trace w ++ LimiterTick :: evs /\
        fetches evs = S k /\
        sleeps evs = Pipeline.backoff Pipeline.retryCfg <$> seqZ 1 (Z.of_nat k)).
Proof.
  intros Hname Hk Hfailed Hanswer.
  eapply total_mono;
    [apply (process_spec accCtx period adjustType Pipeline.retryCfg totalTasks
              workerID j t c w Hname); simpl; lia|].
  intros c' w' (evs & n & Htrace & Hcalls & _ & Hfet & Hsl & Hle & Hfirst & Hlast).
  assert (n = k) as ->.
  { destruct (Nat.lt_trichotomy n k) as [Hlt|[Heq|Hgt]]; [|done|].
    - destruct (failed_fetch_inr _ (Hfailed n Hlt)) as [err Herr].
      rewrite Herr in Hlast. destruct Hlast as [Hlast _]. lia.
    - specialize (Hfirst k Hgt). by rewrite Hanswer in Hfirst. }
  rewrite Hanswer in Hlast. destruct Hlast as [-> Hgrows].
  split; [done|]. split; [done|]. split; [done|]. by exists evs.
Qed.

(** ** The sequential program from start to end *)

Lemma makes_no_call_ret {A} (a : A) : makes_no_call (ret a).
Proof. intros w. by apply total_ret. Qed.

Lemma makes_no_call_bind {A B} (m : M A) (k : A -> M B) :
  makes_no_call m -> (forall a, makes_no_call (k a)) -> makes_no_call (bind m k).
Proof.
  intros Hm Hk w. apply total_bind. eapply total_mono; [apply Hm|].
  intros a w1 Hcalls1. eapply total_mono; [apply Hk|].
  intros b w' Hcalls. by rewrite Hcalls.
Qed.

Lemma makes_no_call_range {A S} (xs : list A) (body : A -> S -> M S) (s : S) :
  (forall x s, makes_no_call (body x s)) -> makes_no_call (range xs body s).
Proof.
  intros Hbody. revert s. induction xs as [|x xs IH]; intros s.
  - apply makes_no_call_ret.
  - cbn [range]. apply makes_no_call_bind; [apply Hbody|apply IH].
Qed.

Lemma makes_no_call_Printf (l : Line) : makes_no_call (Printf l).
Proof. intros w. by eapply total_eq; [reflexivity|]. Qed.

Lemma makes_no_call_Prepare (s : Statement) (table : string) :
  makes_no_call (db_Prepare s table).
Proof. intros w. by eapply total_eq; [apply db_Prepare_eq|]. Qed.

Lemma makes_no_call_create (table : string) : makes_no_call (db_Exec_create table).
Proof.
  intros w. eapply total_eq; [apply db_Exec_create_eq|].
  destruct (failing w); [done|]. by destruct (tables w !! table).
Qed.

Lemma makes_no_call_insert (table : string) (r : Row) :
  makes_no_call (stmt_Exec_insert table r).
Proof.
  intros w. eapply total_eq; [apply stmt_Exec_insert_eq|].
  destruct (failing w); [done|]. by destruct (tables w !! table).
Qed.

Lemma makes_no_call_exists (table : string) (ts : Time) :
  makes_no_call (stmt_QueryRow_exists table ts).
Proof. intros w. by eapply total_eq; [apply stmt_QueryRow_exists_eq|]. Qed.

Lemma Sequential_insert_no_call (symbol : string) (cs : list Candlestick) :
  makes_no_call (Sequential.InsertCandlesticks symbol cs).
Proof.
  destruct (Sequential_tableName_returns symbol) as [t Hname].
  unfold Sequential.InsertCandlesticks, lift. rewrite Hname.
  apply makes_no_call_bind; [intros w; by eapply total_eq; [reflexivity|]|].
  intros t'. apply makes_no_call_bind; [apply makes_no_call_Prepare|].
  intros [e|]; [apply makes_no_call_ret|].
  apply makes_no_call_bind; [apply makes_no_call_Prepare|].
  intros [e|]; [apply makes_no_call_ret|].
  apply makes_no_call_bind; [|intros; apply makes_no_call_ret].
  apply makes_no_call_range. intros c [].
  unfold Sequential.insert_one.
  apply makes_no_call_bind; [apply makes_no_call_exists|].
  intros [[|]|e]; [apply makes_no_call_ret| |apply makes_no_call_Printf].
  apply makes_no_call_bind; [apply makes_no_call_insert|].
  intros [e|]; [apply makes_no_call_Printf|apply makes_no_call_ret].
Qed.

Lemma Sequential_one_date_spec (qctx : QuoteContext) (period : Period)
    (adjustType : AdjustType) (totalTasks : Z) (symbol : string) (date : Time)
    (currentTask : Z) (w : World) :
  answers_have_all_values qctx ->
  total (Sequential.one_date qctx period adjustType totalTasks symbol date currentTask) w
    (fun currentTask' w' =>
      currentTask' = add64 currentTask 1 /\
      calls w' = S (calls w) /\
      (faults w = [] -> faults w' = []) /\
      rows_kept (tables w) (tables w')).
Proof.
  intros Hfull. destruct (Sequential_tableName_returns symbol) as [t Hname].
  unfold Sequential.one_date.
  apply total_bind. eapply total_eq; [reflexivity|].
  apply total_bind. eapply total_eq; [reflexivity|].
  cbn [calls logged].
  destruct (qctx (calls w) symbol period adjustType (on_day_of date 0 0 0)
              (on_day_of date 23 59 59)) as [pts|err] eqn:Hanswer.
  2:{ apply total_bind. eapply total_eq; [reflexivity|]. apply total_ret.
      split; [done|]. split; [done|]. split; [done|]. apply rows_kept_refl. }
  apply total_bind. unfold Sequential.convert, lift.
  rewrite convert_loop, (Hfull _ _ _ _ _ _ _ Hanswer).
  apply total_ret. apply total_bind.
  set (w1 := called _ _ _ _).
  eapply total_mono.
  { apply total_conj;
      [apply (Sequential_insert_contract symbol t Hname)
      |apply Sequential_insert_no_call]. }
  intros r w2 [(evs & _ & Hfaults & Htables) Hcalls].
  assert (Hkept : rows_kept (tables w) (tables w2)).
  { change (tables w) with (tables w1).
    destruct (tables w1 !! t) as [rows|] eqn:Htable.
    - destruct Htables as (rows' & -> & Hpre & _). by apply (rows_kept_insert _ _ rows).
    - destruct Htables as [-> _]. apply rows_kept_refl. }
  assert (Hnone : faults w = [] -> faults w2 = []).
  { intros Hw. by apply Hfaults. }
  destruct r as [e|]; apply total_bind; (eapply total_eq; [reflexivity|]);
    apply total_ret; by rewrite ?Hcalls.
Qed.

Lemma Sequential_date_loop (qctx : QuoteContext) (period : Period)
    (adjustType : AdjustType) (totalTasks : Z) (symbol : string) (dates : list Time)
    (currentTask : Z) (w : World) :
  answers_have_all_values qctx ->
  total (range dates (Sequential.one_date qctx period adjustType totalTasks symbol)
           currentTask) w
    (fun _ w' =>
      calls w' = (calls w + length dates)%nat /\
      (faults w = [] -> faults w' = []) /\
      rows_kept (tables w) (tables w')).
Proof.
  intros Hfull. revert currentTask w.
  induction dates as [|d ds IH]; intros currentTask w.
  - apply total_ret. split; [simpl; lia|]. split; [done|]. apply rows_kept_refl.
  - cbn [range]. apply total_bind.
    eapply total_mono; [by apply Sequential_one_date_spec|].
    intros ct1 w1 (_ & Hcalls1 & Hfaults1 & Hkept1).
    eapply total_mono; [apply IH|].
    intros ct' w' (Hcalls & Hfaults & Hkept).
    split; [rewrite Hcalls, Hcalls1; simpl; lia|].
    split; [auto|]. by eapply rows_kept_trans.
Qed.

Lemma Sequential_one_symbol_spec (qctx : QuoteContext) (period : Period)
    (adjustType : AdjustType) (totalTasks : Z) (dates : list Time) (symbol : string)
    (currentTask : Z) (w : World) :
  answers_have_all_values qctx ->
  faults w = [] ->
  total (Sequential.one_symbol qctx period adjustType totalTasks dates symbol
           currentTask) w
    (fun _ w' =>
      calls w' = (calls w + length dates)%nat /\
      faults w' = [] /\
      rows_kept (tables w) (tables w') /\
      exists t, Sequential.tableName symbol = Return t /\ is_Some (tables w' !! t)).
Proof.
  intros Hfull Hnone. destruct (Sequential_tableName_returns symbol) as [t Hname].
  unfold Sequential.one_symbol, Sequential.EnsureTable, lift. rewrite Hname.
  apply total_bind. eapply total_eq; [reflexivity|].
  apply total_bind, total_bind, total_ret.
  eapply total_eq; [apply db_Exec_create_eq|].
  rewrite failing_no_faults by done.
  set (w1 := match tables _ !! t with Some _ => _ | None => _ end).
  assert (Hw1 : calls w1 = calls w /\ faults w1 = [] /\
                 rows_kept (tables w) (tables w1) /\ is_Some (tables w1 !! t)).
  { unfold w1. cbn [tables logged].
    destruct (tables w !! t) as [rows|] eqn:Htable; cbn; rewrite Hnone.
    - split; [done|]. split; [done|]. split; [apply rows_kept_refl|].
      by rewrite Htable.
    - split; [done|]. split; [done|]. split; [by apply rows_kept_new_table|].
      by rewrite lookup_insert_eq. }
  destruct Hw1 as (Hcalls1 & Hfaults1 & Hkept1 & Hthere1).
  apply total_bind.
  eapply total_mono; [by apply Sequential_date_loop|].
  intros ct w2 (Hcalls2 & Hfaults2 & Hkept2).
  apply total_bind. eapply total_eq; [reflexivity|]. apply total_ret.
  cbn [calls faults tables logged].
  split; [by rewrite Hcalls2, Hcalls1|]. split; [auto|].
  split; [by eapply rows_kept_trans|].
  exists t. split; [done|]. by eapply rows_kept_is_Some.
Qed.

Lemma Sequential_symbol_loop (qctx : QuoteContext) (period : Period)
    (adjustType : AdjustType) (totalTasks : Z) (dates : list Time)
    (symbols : list string) (currentTask : Z) (w : World) :
  answers_have_all_values qctx ->
  faults w = [] ->
  total (range symbols (Sequential.one_symbol qctx period adjustType totalTasks dates)
           currentTask) w
    (fun _ w' =>
      calls w' = (calls w + length symbols * length dates)%nat /\
      faults w' = [] /\
      rows_kept (tables w) (tables w') /\
      forall s, s ∈ symbols ->
        exists t, Sequential.tableName s = Return t /\ is_Some (tables w' !! t)).
Proof.
  intros Hfull. revert currentTask w.
  induction symbols as [|s ss IH]; intros currentTask w Hnone.
  - apply total_ret. split; [simpl; lia|]. split; [done|].
    split; [apply rows_kept_refl|]. by intros s Hs%elem_of_nil.
  - cbn [range]. apply total_bind.
    eapply total_mono; [by apply Sequential_one_symbol_spec|].
    intros ct1 w1 (Hcalls1 & Hfaults1 & Hkept1 & t & Hname & Hthere).
    eapply total_mono; [by apply IH|].
    intros ct' w' (Hcalls & Hfaults & Hkept & Hall).
    split; [rewrite Hcalls, Hcalls1; simpl; lia|]. split; [done|].
    split; [by eapply rows_kept_trans|].
    intros s' [->|Hs']%elem_of_cons; [|by apply Hall].
    exists t. split; [done|]. by eapply rows_kept_is_Some.
Qed.

(** X11. The sequential program never retries.  On a store that fails no
    statement, with a service whose points have all their values, a run
    returns after exactly one remote call per symbol and date, whether
    the calls fail or not; the table of every symbol is then there, and no
    row that was in the store has been removed or changed. *)
Theorem Sequential_main_one_call_per_task (symbols : list string) (dates : list Time)
    (periodStr adjustStr : string) (qctx : QuoteContext) (w : World) :
  answers_have_all_values qctx ->
  faults w = [] ->
  total (Sequential.main symbols dates periodStr adjustStr qctx) w
    (fun _ w' =>
      calls w' = (calls w + length symbols * length dates)%nat /\
      faults w' = [] /\
      rows_kept (tables w) (tables w') /\
      forall s, s ∈ symbols ->
        exists t, Sequential.tableName s = Return t /\ is_Some (tables w' !! t)).
Proof.
  intros Hfull Hnone. unfold Sequential.main.
  apply total_bind. eapply total_eq; [reflexivity|].
  apply total_bind.
  eapply total_mono; [by apply Sequential_symbol_loop|].
  intros ct w1 (Hcalls & Hfaults & Hkept & Hall).
  apply total_bind. eapply total_eq; [reflexivity|].
  by eapply total_eq; [reflexivity|].
Qed.

(** X12. One point without a price or without its turnover ends a run of
    the sequential program: when the store creates the table of the first
    symbol and the service answers the first task with such a point, [main]
    panics on a nil pointer, whatever symbols and dates follow. *)
Theorem Sequential_main_panics_on_missing_value (symbol : string)
    (symbols : list string) (date : Time) (dates : list Time)
    (periodStr adjustStr : string) (qctx : QuoteContext) (w : World)
    (pts : list quote.Candlestick) :
  failing w = false ->
  qctx (calls w) symbol (getPeriodFromConfig periodStr)
    (getAdjustTypeFromConfig adjustStr)
    (on_day_of date 0 0 0) (on_day_of date 23 59 59) = inl pts ->
  forallb has_all_values pts = false ->
  Sequential.main (symbol :: symbols) (date :: dates) periodStr adjustStr qctx w =
    Panic NilDereference.
Proof.
  intros Hfail Hanswer Hpts.
  destruct (Sequential_tableName_returns symbol) as [t Hname].
  unfold Sequential.main.
  erewrite bind_eq by reflexivity. apply bind_panic.
  cbn [range]. apply bind_panic.
  unfold Sequential.one_symbol.
  erewrite bind_eq by reflexivity.
  unfold Sequential.EnsureTable, lift. rewrite Hname.
  erewrite bind_eq; [|erewrite bind_eq by reflexivity; apply db_Exec_create_eq].
  change (failing (logged _ (logged _ w))) with (failing w). rewrite Hfail.
  apply bind_panic. cbn [range]. apply bind_panic.
  unfold Sequential.one_date.
  erewrite bind_eq by reflexivity.
  erewrite bind_eq by reflexivity.
  match goal with
  | |- context [qctx ?n] => replace n with (calls w) by (by destruct (tables _ !! t))
  end.
  rewrite Hanswer. apply bind_panic.
  unfold Sequential.convert, lift. by rewrite convert_loop, Hpts.
Qed.

(** ** Loading the configuration *)

Lemma parse_from_spec (Parse : string -> Time + error) (dateStrs : list string)
    (dates : list Time) :
  match appconfig.parse_from Parse dateStrs dates with
  | (result, None) =>
      exists parsed,
        result = dates ++ parsed /\
        Forall2 (fun dateStr date => Parse dateStr = inl date) dateStrs parsed
  | (result, Some e) =>
      result = [] /\
      exists good bad rest err,
        dateStrs = good ++ bad :: rest /\
        Forall (fun dateStr => exists date, Parse dateStr = inl date) good /\
        Parse bad = inr err /\
        e = "解析日期 " +:+ bad +:+ " 失败: " +:+ err
  end.
Proof.
  revert dates. induction dateStrs as [|dateStr rest IH]; intros dates.
  - simpl. exists []. by rewrite app_nil_r.
  - cbn [appconfig.parse_from]. destruct (Parse dateStr) as [date|err] eqn:Hparse.
    + specialize (IH (dates ++ [date])).
      destruct (appconfig.parse_from Parse rest (dates ++ [date])) as [result [e|]].
      * destruct IH as (-> & good & bad & rest' & err & -> & Hgood & Hbad & ->).
        split; [done|]. exists (dateStr :: good), bad, rest', err.
        split; [done|]. split; [|done]. constructor; [by eauto|done].
      * destruct IH as (parsed & -> & Hall). exists (date :: parsed).
        split; [by rewrite <- app_assoc|]. by constructor.
    + split; [done|]. by exists [], dateStr, rest, err.
Qed.

(** X13. [ParseDates] is all or nothing.  Without an error, it returns
    one instant per configured string, in the order of the configuration,
    each the parse of its string.  With an error, it returns no date at
    all, and the error names the first string that does not parse, with
    the parser's own message; the strings after it are not looked at. *)
Theorem ParseDates_all_or_nothing (Parse : string -> Time + error)
    (c : appconfig.Config) :
  match appconfig.ParseDates Parse c with
  | (dates, None) =>
      Forall2 (fun dateStr date => Parse dateStr = inl date) (appconfig.Dates c) dates
  | (dates, Some e) =>
      dates = [] /\
      exists good bad rest err,
        appconfig.Dates c = good ++ bad :: rest /\
        Forall (fun dateStr => exists date, Parse dateStr = inl date) good /\
        Parse bad = inr err /\
        e = "解析日期 " +:+ bad +:+ " 失败: " +:+ err
  end.
Proof.
  unfold appconfig.ParseDates.
  pose proof (parse_from_spec Parse (appconfig.Dates c) []) as Hspec.
  destruct (appconfig.parse_from Parse (appconfig.Dates c) []) as [dates [e|]];
    [done|].
  by destruct Hspec as (parsed & -> & Hall).
Qed.

(** X14. An account that [LoadLongportAccount] returns without an error
    has at least one thread, one request per second and one millisecond of
    timeout, so the fallbacks that [main] applies again to the threads and
    to the rate never change a loaded account; with an error the account is
    the zero value. *)
Theorem LoadLongportAccount_fills_defaults (ReadFile : string -> string + error)
    (Unmarshal : string -> appconfig.longportYAML + error) (path : string) :
  match appconfig.LoadLongportAccount ReadFile Unmarshal path with
  | (acc, None) =>
      1 <= appconfig.Threads acc /\ 1 <= appconfig.RPS acc /\
      1 <= appconfig.TimeoutMS acc /\
      main_threads (appconfig.Threads acc) = appconfig.Threads acc /\
      main_interval (appconfig.RPS acc) = Z.quot Second (appconfig.RPS acc)
  | (acc, Some _) => acc = appconfig.zero_AccountConfig
  end.
Proof.
  unfold appconfig.LoadLongportAccount.
  destruct (ReadFile path) as [data|err]; [|done].
  destruct (Unmarshal data) as [cfg|err]; [|done].
  cbn [appconfig.Threads appconfig.RPS appconfig.TimeoutMS].
  unfold main_threads, main_interval.
  destruct (Z.leb_spec (appconfig.Longport_Threads cfg) 0) as [Ht|Ht],
           (Z.leb_spec (appconfig.Longport_RPS cfg) 0) as [Hr|Hr],
           (Z.leb_spec (appconfig.Longport_TimeoutMS cfg) 0) as [Hm|Hm];
    repeat match goal with
           | |- context [?x <=? 0] =>
               destruct (Z.leb_spec x 0); [lia|]
           end;
    repeat split; try lia; try done.
Qed.

(** X15. The period of the limiter's ticker is the second divided by the
    rate, rounded down: [rps] periods never take more than a second, so the
    limiter admits at least the configured rate and, when the rate does not
    divide a second, slightly more.  The period is zero exactly when the
    rate is above 1000000000. *)
Theorem main_interval_rounds_down (acc_RPS : Z) :
  let rps := if acc_RPS <=? 0 then 10 else acc_RPS in
  main_interval acc_RPS * rps <= Second < (main_interval acc_RPS + 1) * rps /\
  0 <= main_interval acc_RPS <= Second /\
  (main_interval acc_RPS = 0 <-> Second < acc_RPS).
Proof.
  unfold main_interval, Second. cbv zeta.
  destruct (Z.leb_spec acc_RPS 0) as [Hle|Hlt].
  - change (Z.quot 1000000000 10) with 100000000.
    split; [lia|]. split; [lia|]. split; lia.
  - rewrite Z.quot_div_nonneg by lia.
    pose proof (Z.mul_div_le 1000000000 acc_RPS Hlt) as Hlow.
    pose proof (Z.mul_succ_div_gt 1000000000 acc_RPS Hlt) as Hhigh.
    assert (Hnn : 0 <= 1000000000 / acc_RPS) by (apply Z.div_pos; lia).
    split; [lia|]. split; [nia|]. split.
    + intros Hzero. rewrite Hzero in Hhigh. lia.
    + intros Hbig. apply Z.div_small. lia.
Qed.

(** ** The connection string *)

Lemma string_of_uint_no_space (d : Decimal.uint) :
  contains_byte (DecimalString.NilEmpty.string_of_uint d) " "%char = false.
Proof. induction d; simpl; by rewrite ?IHd. Qed.

Lemma fmt_d_no_space (n : Z) : contains_byte (dbconn.fmt_d n) " "%char = false.
Proof.
  unfold dbconn.fmt_d, DecimalString.NilZero.string_of_int,
    DecimalString.NilZero.string_of_uint.
  destruct (Z.to_int n) as [d|d]; destruct d; simpl;
    by rewrite ?string_of_uint_no_space.
Qed.

Lemma fmt_d_inj (n n' : Z) : dbconn.fmt_d n = dbconn.fmt_d n' -> n = n'.
Proof.
  unfold dbconn.fmt_d. intros Heq.
  assert (Hgood : forall z, Z.to_int z <> Decimal.Pos Decimal.Nil /\
                            Z.to_int z <> Decimal.Neg Decimal.Nil).
  { intros [|p|p]; simpl; split; try done;
      intros [= Hnil]; by apply DecimalPos.Unsigned.to_uint_nonnil in Hnil. }
  assert (Hint : Some (Z.to_int n) = Some (Z.to_int n')).
  { rewrite <- (DecimalString.NilZero.isi (Z.to_int n)) by apply Hgood.
    rewrite <- (DecimalString.NilZero.isi (Z.to_int n')) by apply Hgood.
    by rewrite Heq. }
  injection Hint as Hint.
  by rewrite <- (DecimalZ.of_to n), <- (DecimalZ.of_to n'), Hint.
Qed.

Lemma append_cancel (k a b : string) : k +:+ a = k +:+ b -> a = b.
Proof.
  induction k as [|c k IH]; [done|].
  change (String c (k +:+ a) = String c (k +:+ b) -> a = b).
  intros [= Heq]. by apply IH.
Qed.

Lemma field_inj (key x x' y y' : string) :
  contains_byte x " "%char = false -> contains_byte x' " "%char = false ->
  key +:+ x +:+ String " "%char y = key +:+ x' +:+ String " "%char y' ->
  x = x' /\ y = y'.
Proof.
  intros Hx Hx' Heq%append_cancel. by apply (append_sep_inj _ _ _ _ " "%char).
Qed.

(** X16. Configurations none of whose fields contains a space have
    different connection strings: the string tells the user, the password,
    the database, the host, the port and the SSL mode apart. *)
Theorem DSN_injective_without_spaces (cfg cfg' : dbconn.Config) :
  space_free cfg = true -> space_free cfg' = true ->
  dbconn.DSN cfg = dbconn.DSN cfg' -> cfg = cfg'.
Proof.
  unfold space_free. rewrite !andb_true_iff, !negb_true_iff.
  intros ((((Hu & Hp) & Hn) & Hh) & Hs) ((((Hu' & Hp') & Hn') & Hh') & Hs').
  destruct cfg as [h p u pw n s], cfg' as [h' p' u' pw' n' s'].
  cbn [dbconn.User dbconn.Password dbconn.Name dbconn.Host dbconn.SSLMode] in *.
  unfold dbconn.DSN.
  cbn [dbconn.User dbconn.Password dbconn.Name dbconn.Host dbconn.SSLMode dbconn.Port].
  intros Heq.
  apply (field_inj "user=" u u') in Heq as [-> Heq]; [|done..].
  apply (field_inj "password=" pw pw') in Heq as [-> Heq]; [|done..].
  apply (field_inj "dbname=" n n') in Heq as [-> Heq]; [|done..].
  apply (field_inj "host=" h h') in Heq as [-> Heq]; [|done..].
  apply (field_inj "port=" (dbconn.fmt_d p) (dbconn.fmt_d p')) in Heq as [Hport Heq];
    [|apply fmt_d_no_space..].
  apply fmt_d_inj in Hport as ->.
  by apply (append_cancel "sslmode=") in Heq as ->.
Qed.

(** X17. The connection string does not quote its values: moving the
    text after a space of the user name into the password gives another
    configuration with the same string. *)
Theorem DSN_confuses_fields_with_spaces (user middle password : string)
    (cfg : dbconn.Config) :
  let cfg1 := {| dbconn.Host := dbconn.Host cfg; dbconn.Port := dbconn.Port cfg;
                 dbconn.User := user +:+ " password=" +:+ middle;
                 dbconn.Password := password;
                 dbconn.Name := dbconn.Name cfg; dbconn.SSLMode := dbconn.SSLMode cfg |} in
  let cfg2 := {| dbconn.Host := dbconn.Host cfg; dbconn.Port := dbconn.Port cfg;
                 dbconn.User := user;
                 dbconn.Password := middle +:+ " password=" +:+ password;
                 dbconn.Name := dbconn.Name cfg; dbconn.SSLMode := dbconn.SSLMode cfg |} in
  dbconn.DSN cfg1 = dbconn.DSN cfg2 /\ cfg1 <> cfg2.
Proof.
  split.
  - unfold dbconn.DSN.
    cbn [dbconn.User dbconn.Password dbconn.Name dbconn.Host dbconn.SSLMode dbconn.Port].
    by rewrite !string_app_assoc.
  - intros [= Huser _]. by apply append_longer in Huser.
Qed.

(** ** What an insert can do to the store *)

Lemma adds_only_same (t : string) (cs : list Candlestick)
    (tbls : gmap string (list Row)) :
  adds_only t cs tbls tbls.
Proof.
  split; [done|]. destruct (tbls !! t) as [rows|]; [|done].
  exists []. rewrite app_nil_r. split; [done|]. apply sublist_nil_l.
Qed.

Lemma adds_only_insert (t : string) (cs : list Candlestick)
    (tbls : gmap string (list Row)) (rows extra : list Row) :
  tbls !! t = Some rows ->
  extra `sublist_of` (row_of <$> cs) ->
  adds_only t cs tbls (<[t := rows ++ extra]> tbls).
Proof.
  intros Htable Hsub. split.
  - intros name Hname. by rewrite lookup_insert_ne.
  - rewrite Htable. exists extra. by rewrite lookup_insert_eq.
Qed.

Lemma loop_adds_records (body : Candlestick -> unit -> M unit) (t : string) :
  (forall c w rows,
     tables w !! t = Some rows ->
     total (body c tt) w (fun _ w' =>
       exists extra, tables w' = <[t := rows ++ extra]> (tables w) /\
                     extra `sublist_of` [row_of c])) ->
  forall cs w rows,
    tables w !! t = Some rows ->
    total (range cs body tt) w (fun _ w' =>
      exists extra, tables w' = <[t := rows ++ extra]> (tables w) /\
                    extra `sublist_of` (row_of <$> cs)).
Proof.
  intros Hbody cs. induction cs as [|c cs IH]; intros w rows Htable.
  - apply total_ret. exists []. rewrite app_nil_r, insert_id by done. done.
  - cbn [range]. apply total_bind.
    eapply total_mono; [by apply Hbody|].
    intros [] w1 (extra1 & Htables1 & Hsub1).
    assert (Htable1 : tables w1 !! t = Some (rows ++ extra1)).
    { by rewrite Htables1, lookup_insert_eq. }
    eapply total_mono; [by apply IH|].
    intros [] w' (extra & Htables & Hsub).
    exists (extra1 ++ extra). split.
    + by rewrite Htables, Htables1, insert_insert_eq, <- app_assoc.
    + change (row_of <$> c :: cs) with ([row_of c] ++ (row_of <$> cs)).
      by apply sublist_app.
Qed.

Lemma on_conflict_adds (r : Row) (rows : list Row) :
  exists extra, on_conflict_do_nothing r rows = rows ++ extra /\
                extra `sublist_of` [r].
Proof.
  unfold on_conflict_do_nothing. destruct (has_timestamp _ _).
  - exists []. rewrite app_nil_r. split; [done|]. apply sublist_nil_l.
  - by exists [r].
Qed.

Lemma Pipeline_step_adds_record (t : string) (c : Candlestick) (w : World)
    (rows : list Row) :
  tables w !! t = Some rows ->
  total (Pipeline.insert_one t c tt) w (fun _ w' =>
    exists extra, tables w' = <[t := rows ++ extra]> (tables w) /\
                  extra `sublist_of` [row_of c]).
Proof.
  intros Htable.
  eapply total_mono; [by apply (insert_one_step t c w rows)|].
  intros [] w' (_ & _ & Htables & _). destruct (failing w).
  - exists []. rewrite app_nil_r, insert_id by done.
    split; [done|]. apply sublist_nil_l.
  - destruct (on_conflict_adds (row_of c) rows) as (extra & Heq & Hsub).
    exists extra. by rewrite Htables, Heq.
Qed.

Lemma Sequential_step_adds_record (t : string) (c : Candlestick) (w : World)
    (rows : list Row) :
  tables w !! t = Some rows ->
  total (Sequential.insert_one t c tt) w (fun _ w' =>
    exists extra, tables w' = <[t := rows ++ extra]> (tables w) /\
                  extra `sublist_of` [row_of c]).
Proof.
  intros Htable.
  assert (Hsame : forall w' : World, tables w' = tables w ->
            exists extra, tables w' = <[t := rows ++ extra]> (tables w) /\
                          extra `sublist_of` [row_of c]).
  { intros w' ->. exists []. rewrite app_nil_r, insert_id by done.
    split; [done|]. apply sublist_nil_l. }
  unfold Sequential.insert_one, total.
  rewrite (bind_eq _ _ _ _ _ (stmt_QueryRow_exists_eq t (Timestamp c) w)), Htable.
  destruct (failing w).
  { eexists _, _. split; [reflexivity|]. by apply Hsame. }
  destruct (has_timestamp (Timestamp c) rows).
  { eexists _, _. split; [reflexivity|]. by apply Hsame. }
  rewrite (bind_eq _ _ _ _ _ (stmt_Exec_insert_eq t (row_of c) _)).
  change (tables (sent (QueryExists t (Timestamp c)) w)) with (tables w).
  rewrite Htable.
  destruct (failing (sent (QueryExists t (Timestamp c)) w)).
  { eexists _, _. split; [reflexivity|]. by apply Hsame. }
  eexists _, _. split; [reflexivity|].
  destruct (on_conflict_adds (row_of c) rows) as (extra & Heq & Hsub).
  exists extra. cbn. by rewrite Heq.
Qed.

(** X18. Whatever the store fails, an insert of either program touches
    the table of its symbol only, and adds to it nothing but rows of the
    given records, after the rows that were there, in the order of the
    records and at most one per record; it creates and drops no table. *)
Theorem InsertCandlesticks_adds_only_records (symbol t t' : string)
    (cs : list Candlestick) (w : World) :
  Pipeline.safeTableName symbol = Return t ->
  Sequential.tableName symbol = Return t' ->
  total (Pipeline.InsertCandlesticks symbol cs) w
    (fun _ w' => adds_only t cs (tables w) (tables w')) /\
  total (Sequential.InsertCandlesticks symbol cs) w
    (fun _ w' => adds_only t' cs (tables w) (tables w')).
Proof.
  intros Hname Hname'. split.
  - unfold Pipeline.InsertCandlesticks, lift. rewrite Hname.
    apply total_bind, total_ret. apply total_bind.
    eapply total_eq; [apply db_Prepare_eq|].
    destruct (failing w); [apply total_ret, adds_only_same|].
    destruct (tables w !! t) as [rows|] eqn:Htable;
      [|apply total_ret, adds_only_same].
    apply total_bind.
    eapply total_mono;
      [apply (loop_adds_records _ t (Pipeline_step_adds_record t) cs
                (sent (PrepareInsert t) w) rows Htable)|].
    intros [] w' (extra & Htables & Hsub). apply total_ret.
    rewrite Htables. by apply adds_only_insert.
  - unfold Sequential.InsertCandlesticks, lift. rewrite Hname'.
    apply total_bind, total_ret. apply total_bind.
    eapply total_eq; [apply db_Prepare_eq|].
    destruct (failing w); [apply total_ret, adds_only_same|].
    destruct (tables w !! t') as [rows|] eqn:Htable;
      [|apply total_ret, adds_only_same].
    apply total_bind. eapply total_eq; [apply db_Prepare_eq|].
    change (tables (sent (PrepareExists t') w)) with (tables w). rewrite Htable.
    destruct (failing (sent (PrepareExists t') w));
      [apply total_ret, adds_only_same|].
    apply total_bind.
    eapply total_mono;
      [apply (loop_adds_records _ t' (Sequential_step_adds_record t') cs
                (sent (PrepareInsert t') (sent (PrepareExists t') w)) rows Htable)|].
    intros [] w' (extra & Htables & Hsub). apply total_ret.
    rewrite Htables. by apply adds_only_insert.
Qed.

(** ** The window of a job *)

(** X19. The window of a job, from 00:00:00 to 23:59:59 on the day of its
    date, contains the date, spans 86399 seconds, and ends before the
    window of any later day starts: jobs of different days ask for
    disjoint windows, and jobs of the same day for the same one. *)
Theorem job_windows_are_disjoint_days (date date' : Time) :
  on_day_of date 0 0 0 <= date <= on_day_of date 23 59 59 /\
  on_day_of date 23 59 59 - on_day_of date 0 0 0 = 86399 /\
  (date / 86400 = date' / 86400 ->
   on_day_of date 0 0 0 = on_day_of date' 0 0 0 /\
   on_day_of date 23 59 59 = on_day_of date' 23 59 59) /\
  (date / 86400 < date' / 86400 -> on_day_of date 23 59 59 < on_day_of date' 0 0 0).
Proof.
  unfold on_day_of.
  pose proof (Z.div_mod date 86400 ltac:(lia)) as Hdiv.
  pose proof (Z.mod_pos_bound date 86400 ltac:(lia)) as Hmod.
  split; [lia|]. split; [lia|]. split; [by intros ->|]. lia.
Qed.

Lemma store_event_no_call (e : Event) : store_event e = true -> is_call e = false.
Proof. by destruct e. Qed.

Lemma attempts_requests (accCtx : QuoteContext) (period : Period)
    (adjustType : AdjustType) (cfg : Pipeline.RetryConfig) (workerID : Z)
    (j : Pipeline.job) (start end_ : Time) (t : string) (remaining : nat)
    (attempt : Z) (c : Pipeline.Counters) (w : World) :
  Pipeline.safeTableName (Pipeline.symbol j) = Return t ->
  total (Pipeline.attempts accCtx period adjustType cfg workerID j start end_
           remaining attempt c) w
    (fun _ w' =>
      exists evs,
        trace w' = trace w ++ evs /\
        Forall (fun e => is_call e = true -> e = Call (Pipeline.symbol j) start end_)
          evs).
Proof.
  intros Hname. revert attempt c w.
  induction remaining as [|r IH]; intros attempt c w.
  { apply total_ret. exists []. by rewrite app_nil_r. }
  cbn [Pipeline.attempts]. apply total_bind.
  eapply total_eq; [reflexivity|].
  destruct (accCtx (calls w) (Pipeline.symbol j) period adjustType start end_)
    as [pts|err].
  - apply total_bind.
    eapply total_mono;
      [apply (InsertCandlesticks_spec _ t _
                (called (Pipeline.symbol j) start end_ w) Hname)|].
    intros res w1 (_ & evs1 & Htrace1 & Hstore1 & _).
    assert (Hquiet : Forall (fun e => is_call e = true ->
                               e = Call (Pipeline.symbol j) start end_) evs1).
    { eapply Forall_impl; [exact Hstore1|].
      intros e He%store_event_no_call Hcall. congruence. }
    destruct res as [e|]; apply total_bind; (eapply total_eq; [reflexivity|]);
      apply total_ret;
      eexists (Call (Pipeline.symbol j) start end_ :: evs1 ++ [Print _]);
      (split; [simpl; rewrite Htrace1; simpl; by rewrite <- !app_assoc|]);
      (constructor; [done|]); (apply Forall_app; split; [done|]);
      by repeat constructor.
  - destruct (attempt <? Pipeline.MaxAttempts cfg).
    + apply total_bind. eapply total_eq; [reflexivity|].
      apply total_bind. eapply total_eq; [reflexivity|].
      eapply total_mono; [apply IH|].
      intros c' w' (evs & Htrace & Hall).
      eexists ([Call (Pipeline.symbol j) start end_; Print _; Sleep _] ++ evs).
      split; [rewrite Htrace; simpl; by rewrite <- !app_assoc|].
      apply Forall_app. split; [by repeat constructor|done].
    + apply total_bind. eapply total_eq; [reflexivity|]. apply total_ret.
      eexists [Call (Pipeline.symbol j) start end_; Print _].
      split; [simpl; by rewrite <- !app_assoc|]. by repeat constructor.
Qed.

(** X20. Every remote call of a job, the first attempt and each retry,
    asks for the symbol of the job and for the window of its date, from
    00:00:00 to 23:59:59 of that day. *)
Theorem job_calls_ask_for_its_day (accCtx : QuoteContext) (period : Period)
    (adjustType : AdjustType) (cfg : Pipeline.RetryConfig) (totalTasks workerID : Z)
    (j : Pipeline.job) (c : Pipeline.Counters) (w : World) :
  contains_byte (Pipeline.symbol j) dot = true ->
  total (Pipeline.process accCtx period adjustType cfg totalTasks workerID j c) w
    (fun _ w' =>
      exists evs,
        trace w' = trace w ++ evs /\
        Forall (fun e => is_call e = true ->
                  e = Call (Pipeline.symbol j) (on_day_of (Pipeline.date j) 0 0 0)
                        (on_day_of (Pipeline.date j) 23 59 59)) evs).
Proof.
  intros Hdot. destruct (safeTableName_returns _ Hdot) as [t Hname].
  unfold Pipeline.process.
  apply total_bind. eapply total_eq; [reflexivity|].
  apply total_bind. eapply total_eq; [reflexivity|].
  eapply total_mono; [by apply (attempts_requests _ _ _ _ _ _ _ _ t)|].
  intros c' w' (evs & Htrace & Hall).
  eexists ([LimiterTick; Print _] ++ evs).
  split; [rewrite Htrace; simpl; by rewrite <- !app_assoc|].
  apply Forall_app. split; [by repeat constructor|done].
Qed.

End Further.

(** * Concrete runs *)

Section Runs.
Context {unicode : strings.Unicode}.

(** C3.  The two programs do not derive the same table name.  For
    "AAPL.US" the pipeline's [safeTableName] gives "aapl_us" (and "0700_hk"
    for "0700.HK"), but [EnsureTable] and [InsertCandlesticks] of the
    sequential program send their statements to the table "aapl": the
    region is dropped, so that "AAPL.US" and "AAPL.HK" share one table. *)
Theorem Sequential_table_name_drops_region :
  Pipeline.safeTableName "AAPL.US" = Return "aapl_us" /\
  Pipeline.safeTableName "0700.HK" = Return "0700_hk" /\
  Sequential.tableName "AAPL.US" = Return "aapl" /\
  Sequential.tableName "AAPL.HK" = Return "aapl" /\
  (exists r w', Sequential.EnsureTable "AAPL.US" empty_store = Return (r, w') /\
     statements (trace w') = [CreateTableIfNotExists "aapl"]) /\
  (exists r w', Sequential.InsertCandlesticks "AAPL.US" [] empty_store = Return (r, w') /\
     statements (trace w') = [PrepareExists "aapl"]).
Proof.
  repeat split; try reflexivity; eexists _, _; split; reflexivity.
Qed.

(** C9.  In the pipeline the jobs of a symbol whose table could not be
    created are not skipped.  With the one symbol "AAPL.US", one date and a
    store that fails the CREATE TABLE statement, [main] prints the failure
    and then runs the job all the same: the job passes the limiter and
    calls the quote service, and only fails when the insert statement is
    prepared on the missing table. *)
Theorem Pipeline_runs_jobs_of_symbol_without_table :
  exists c w',
    Pipeline.main chan_bytes_bound ["AAPL.US"] [oct_15] "OneMinute" "No" 5 10 answers (fun _ => 0)
      failing_store = Return (c, w') /\
    trace w' =
      [ Print (LBanner 1 1 1);
        Sql (CreateTableIfNotExists "aapl_us");
        Print (LCreateTableFailed store_failure);
        LimiterTick;
        Print (LProgress 1 1 1 "AAPL.US" oct_15);
        Call "AAPL.US" 1760486400 1760572799;
        Sql (PrepareInsert "aapl_us");
        Print (LDbInsertFailed 1 no_such_table);
        Print LAllSaved;
        Print (LSummary 0 1 1) ] /\
    fetches (trace w') = 1%nat /\
    Pipeline.failCount c = 1 /\ Pipeline.successCount c = 0.
Proof.
  eexists _, _. split; [vm_compute; reflexivity|]. by vm_compute.
Qed.

(** The same configuration in the sequential program: the symbol is
    skipped, and no call is made. *)
Example Sequential_skips_symbol_without_table :
  exists w',
    Sequential.main ["AAPL.US"] [oct_15] "OneMinute" "No" answers failing_store
      = Return (tt, w') /\
    trace w' =
      [ Print (LBanner 1 1 1);
        Print (LSeqStartSymbol "AAPL.US");
        Sql (CreateTableIfNotExists "aapl");
        Print (LCreateTableFailed store_failure);
        Print LAllSaved;
        Print (LSeqTotal 1) ] /\
    fetches (trace w') = 0%nat.
Proof.
  eexists. split; [vm_compute; reflexivity|]. by vm_compute.
Qed.

End Runs.

(** The examples below are ASCII text, for which the Unicode tables are
    not consulted. *)
#[local] Existing Instance plain_unicode.

(** C4, as the spec states it, fails: a job whose first call fails and
    whose second succeeds makes two remote calls after a single
    admission. *)
Lemma retry_takes_no_new_admission :
  ~ @admission_before_each_attempt plain_decimals plain_unicode.
Proof.
  intros Hclaim.
  destruct (Pipeline.process fails_once PeriodOneMinute AdjustTypeNo
              Pipeline.retryCfg 1 1 aapl_job no_counts aapl_store)
    as [[c' w']|why] eqn:Hrun; [|by vm_compute in Hrun].
  pose proof (Hclaim fails_once PeriodOneMinute AdjustTypeNo 1 1 aapl_job no_counts c'
                aapl_store w' (trace w') Hrun eq_refl) as Heq.
  vm_compute in Hrun. injection Hrun as <- <-. by vm_compute in Heq.
Qed.

Example retried_job_events :
  exists c' w',
    Pipeline.process fails_once PeriodOneMinute AdjustTypeNo Pipeline.retryCfg 1 1
      aapl_job no_counts aapl_store = Return (c', w') /\
    admissions (trace w') = 1%nat /\ fetches (trace w') = 2%nat /\
    sleeps (trace w') = [500 * Millisecond] /\
    Pipeline.successCount c' = 1 /\ Pipeline.failCount c' = 0 /\
    (length <$> tables w' !! "aapl_us") = Some 2%nat.
Proof.
  eexists _, _. split; [vm_compute; reflexivity|]. by vm_compute.
Qed.

(** ** The theorems at concrete inputs, with their hypotheses discharged *)

Lemma aapl_store_unique : unique_timestamps (tables aapl_store).
Proof.
  intros name rows Hlook. unfold aapl_store in Hlook. cbn [tables] in Hlook.
  apply lookup_singleton_Some in Hlook as [_ <-].
  apply NoDup_nil_2.
Qed.

Lemma empty_store_unique : unique_timestamps (tables empty_store).
Proof.
  intros name rows Hlook. unfold empty_store in Hlook. cbn [tables] in Hlook.
  by rewrite lookup_empty in Hlook.
Qed.

Lemma answers_stable : stable answers.
Proof. by intros n m symbol period adjustType start end_. Qed.

Lemma aapl_has_dot : Forall (fun s => contains_byte s dot = true) ["AAPL.US"].
Proof. by repeat constructor. Qed.

Lemma aapl_job_has_dot :
  Forall (fun j => contains_byte (Pipeline.symbol j) dot = true) [aapl_job].
Proof. by repeat constructor. Qed.

Lemma aapl_job_again : [aapl_job] ⊆ [aapl_job].
Proof. by intros j Hj. Qed.

Lemma aapl_table_exists :
  tables_exist (Pipeline.symbol <$> [aapl_job]) (tables aapl_store).
Proof.
  intros s t [->|Hs%elem_of_nil]%elem_of_cons; [|done].
  intros [= <-]. by eexists.
Qed.

Lemma InsertCandlesticks_idempotent_witness :
  (faults aapl_store = [] /\
   unique_timestamps (tables aapl_store) /\
   idempotent_insert Pipeline.InsertCandlesticks "aapl_us" "AAPL.US" three_records
     aapl_store [false; true]) /\
  (Forall (fun j => contains_byte (Pipeline.symbol j) dot = true) [aapl_job] /\
   [aapl_job] ⊆ [aapl_job] /\
   stable answers /\
   faults aapl_store = [] /\
   unique_timestamps (tables aapl_store) /\
   tables_exist (Pipeline.symbol <$> [aapl_job]) (tables aapl_store) /\
   exists c1 w1 c2 w2,
     Pipeline.worker answers PeriodOneMinute AdjustTypeNo Pipeline.retryCfg 1 1
       [aapl_job] no_counts aapl_store = Return (c1, w1) /\
     Pipeline.worker answers PeriodOneMinute AdjustTypeNo Pipeline.retryCfg 1 2
       [aapl_job] no_counts (set_faults [true; false; true] w1) = Return (c2, w2) /\
     tables w2 = tables w1 /\
     unique_timestamps (tables w1) /\
     rows_kept (tables aapl_store) (tables w1)).
Proof.
  split.
  - split; [reflexivity|]. split; [exact aapl_store_unique|].
    exact (proj1 (proj1 InsertCandlesticks_idempotent "AAPL.US" three_records aapl_store
                    [false; true] eq_refl aapl_store_unique) "aapl_us" eq_refl).
  - split; [exact aapl_job_has_dot|]. split; [exact aapl_job_again|].
    split; [exact answers_stable|].
    split; [reflexivity|]. split; [exact aapl_store_unique|].
    split; [exact aapl_table_exists|].
    exact (proj2 InsertCandlesticks_idempotent answers PeriodOneMinute AdjustTypeNo 1 1 2
             [aapl_job] [aapl_job] no_counts no_counts aapl_store [true; false; true]
             aapl_job_has_dot aapl_job_again answers_stable eq_refl aapl_store_unique
             aapl_table_exists).
Defined.

Example insert_keeps_first_of_equal_timestamps :
  exists w',
    Pipeline.InsertCandlesticks "AAPL.US" three_records aapl_store = Return (None, w') /\
    tables w' !! "aapl_us" =
      Some [ row_of (record 1760535000 100 101 102 99 5000 505000);
             row_of (record 1760535120 103 102 104 101 3000 0) ].
Proof. eexists. split; [vm_compute; reflexivity|]. by vm_compute. Qed.

Lemma transform_filters_and_converts_witness :
  Pipeline.transform "AAPL.US" three_points =
    [ record 1760535000 100 101 102 99 5000 505000;
      record 1760535120 103 102 104 101 3000 0 ].
Proof.
  exact (proj1 (transform_filters_and_converts "AAPL.US" three_points)).
Defined.

Lemma safeTableName_total_only_with_dot_witness :
  Pipeline.safeTableName "AAPL" = Panic IndexOutOfRange /\
  (forall w : @World plain_decimals,
     Pipeline.EnsureTable "AAPL" w = Panic IndexOutOfRange) /\
  (forall candlesticks (w : @World plain_decimals),
     Pipeline.InsertCandlesticks "AAPL" candlesticks w = Panic IndexOutOfRange).
Proof.
  exact (safeTableName_total_only_with_dot (H := plain_decimals) "AAPL").
Defined.

Lemma one_admission_per_job_witness :
  contains_byte (Pipeline.symbol aapl_job) dot = true /\
  total (Pipeline.process fails_once PeriodOneMinute AdjustTypeNo Pipeline.retryCfg 1 1
           aapl_job no_counts) aapl_store
    (fun c' w' =>
      exists evs,
        trace w' = trace aapl_store ++ LimiterTick :: evs /\
        admissions (LimiterTick :: evs) = 1%nat /\
        admissions evs = 0%nat /\
        (1 <= fetches evs)%nat /\
        Z.of_nat (fetches evs) <= Pipeline.MaxAttempts Pipeline.retryCfg).
Proof.
  split; [reflexivity|].
  exact (one_admission_per_job fails_once PeriodOneMinute AdjustTypeNo 1 1 aapl_job
           no_counts aapl_store eq_refl).
Defined.



Lemma four_jobs_fit :
  fits_chan chan_bytes_bound (len ["AAPL.US"; "0700.HK"] * len [oct_15; oct_15 + 86400]).
Proof. by vm_compute. Qed.

Lemma task_set_is_cross_product_witness :
  fits_chan chan_bytes_bound (len ["AAPL.US"; "0700.HK"] * len [oct_15; oct_15 + 86400]) /\
  (let! jobs := Pipeline.make_chan chan_bytes_bound
                  (mul64 (len ["AAPL.US"; "0700.HK"]) (len [oct_15; oct_15 + 86400])) in
   Pipeline.fill ["AAPL.US"; "0700.HK"] [oct_15; oct_15 + 86400] jobs) =
    Return {| Pipeline.buf :=
                [ {| Pipeline.symbol := "AAPL.US"; Pipeline.date := oct_15 |};
                  {| Pipeline.symbol := "AAPL.US"; Pipeline.date := oct_15 + 86400 |};
                  {| Pipeline.symbol := "0700.HK"; Pipeline.date := oct_15 |};
                  {| Pipeline.symbol := "0700.HK"; Pipeline.date := oct_15 + 86400 |} ];
              Pipeline.cap := 4 |}.
Proof.
  split; [exact four_jobs_fit|].
  exact (proj1 (task_set_is_cross_product chan_bytes_bound
                  ["AAPL.US"; "0700.HK"] [oct_15; oct_15 + 86400] four_jobs_fit)).
Defined.

Lemma many_symbols_len : len many_symbols = 2 ^ 22.
Proof. unfold many_symbols, len. rewrite length_replicate. apply Z2Nat.id. lia. Qed.

Lemma many_dates_len : len many_dates = 2 ^ 21.
Proof. unfold many_dates, len. rewrite length_replicate. apply Z2Nat.id. lia. Qed.

(** C6, as the spec states it, fails.  With 2^22 symbols and 2^21 dates the
    task count, 2^43, is an [int], but 2^43 jobs of 40 bytes are more than
    2^48 bytes: on every platform that allows a channel at most that much,
    the builder makes no task set, [make] panics. *)
Lemma huge_task_set_panics :
  len many_symbols * len many_dates = 2 ^ 43 /\
  forall max_chan_bytes, max_chan_bytes <= chan_bytes_bound ->
    (let! jobs := Pipeline.make_chan max_chan_bytes
                    (mul64 (len many_symbols) (len many_dates)) in
     Pipeline.fill many_symbols many_dates jobs) = Panic MakeChanSize.
Proof.
  assert (Hlen : len many_symbols * len many_dates = 2 ^ 43).
  { rewrite many_symbols_len, many_dates_len. reflexivity. }
  split; [exact Hlen|].
  intros max_chan_bytes Hbound.
  apply make_chan_out_of_range; rewrite Hlen.
  - reflexivity.
  - unfold chan_bytes_bound, Pipeline.sizeof_job in *. lia.
Qed.

Lemma two_jobs_have_dots :
  Forall (fun j => contains_byte (Pipeline.symbol j) dot = true) [aapl_job; aapl_job].
Proof. by repeat constructor. Qed.

Lemma exhausted_job_is_counted_failed_witness :
  (contains_byte (Pipeline.symbol aapl_job) dot = true /\
   total (Pipeline.process always_fails PeriodOneMinute AdjustTypeNo Pipeline.retryCfg 1 1
            aapl_job no_counts) aapl_store
     (fun c' w' =>
       Pipeline.failCount c' = add64 (Pipeline.failCount no_counts) 1 /\
       (- 2 ^ 63 <= Pipeline.failCount no_counts < 2 ^ 63 - 1 ->
        Pipeline.failCount c' = Pipeline.failCount no_counts + 1) /\
       Pipeline.successCount c' = Pipeline.successCount no_counts /\
       tables w' = tables aapl_store /\
       exists evs, trace w' = trace aapl_store ++ evs /\ fetches evs = 3%nat)) /\
  total (Pipeline.process fails_once PeriodOneMinute AdjustTypeNo Pipeline.retryCfg 1 1
           aapl_job no_counts) aapl_store
    (fun c' w' =>
      Pipeline.successCount c' = add64 (Pipeline.successCount no_counts) 1 /\
      Pipeline.failCount c' = Pipeline.failCount no_counts \/
      Pipeline.failCount c' = add64 (Pipeline.failCount no_counts) 1 /\
      Pipeline.successCount c' = Pipeline.successCount no_counts) /\
  (Forall (fun j => contains_byte (Pipeline.symbol j) dot = true) [aapl_job; aapl_job] /\
   total (Pipeline.worker always_fails PeriodOneMinute AdjustTypeNo Pipeline.retryCfg
            2 1 [aapl_job; aapl_job] no_counts) aapl_store
     (fun c' w' =>
       Pipeline.successCount c' + Pipeline.failCount c' =
         Pipeline.successCount no_counts + Pipeline.failCount no_counts +
         len [aapl_job; aapl_job] /\
       0 <= Pipeline.successCount c' /\ 0 <= Pipeline.failCount c' /\
       exists evs, trace w' = trace aapl_store ++ evs /\
                   admissions evs = length [aapl_job; aapl_job])).
Proof.
  split; [|split].
  - split; [reflexivity|].
    exact (proj1 exhausted_job_is_counted_failed always_fails PeriodOneMinute AdjustTypeNo
             1 1 aapl_job no_counts aapl_store eq_refl (fun _ _ => eq_refl)).
  - exact (proj1 (proj2 exhausted_job_is_counted_failed) fails_once PeriodOneMinute
             AdjustTypeNo 1 1 aapl_job no_counts aapl_store eq_refl).
  - split; [exact two_jobs_have_dots|].
    exact (proj2 (proj2 exhausted_job_is_counted_failed) always_fails PeriodOneMinute
             AdjustTypeNo 2 1 [aapl_job; aapl_job] no_counts aapl_store
             two_jobs_have_dots ltac:(reflexivity) ltac:(reflexivity)
             ltac:(reflexivity) ltac:(reflexivity) ltac:(reflexivity)).
Defined.

Lemma failed_inserts_are_logged_and_skipped_witness :
  Pipeline.safeTableName "AAPL.US" = Return "aapl_us" /\
  total (Pipeline.InsertCandlesticks "AAPL.US" three_records)
    (set_faults [false; true; false; false] aapl_store)
    (fun r w' =>
      exists evs,
        trace w' = trace aapl_store ++ evs /\
        r = None /\
        statements evs =
          PrepareInsert "aapl_us" ::
            ((fun c => ExecInsert "aapl_us" (row_of c)) <$> three_records) /\
        printed evs = [LInsertFailed store_failure]) /\
  answers (calls empty_store) "AAPL.US" PeriodOneMinute AdjustTypeNo
    (on_day_of oct_15 0 0 0) (on_day_of oct_15 23 59 59) = inl three_points /\
  total (Pipeline.process answers PeriodOneMinute AdjustTypeNo Pipeline.retryCfg 1 1
           {| Pipeline.symbol := "AAPL.US"; Pipeline.date := oct_15 |} no_counts)
    empty_store
    (fun c' w' =>
      c' = Pipeline.add_failCount (Pipeline.add_currentTask no_counts)).
Proof.
  split; [reflexivity|]. split; [|split; [reflexivity|]].
  - exact (proj1 (failed_inserts_are_logged_and_skipped "AAPL.US" "aapl_us" eq_refl)
             three_records (set_faults [false; true; false; false] aapl_store)).
  - exact (proj2 (failed_inserts_are_logged_and_skipped "AAPL.US" "aapl_us" eq_refl)
             answers PeriodOneMinute AdjustTypeNo 1 1 oct_15 no_counts empty_store
             three_points eq_refl).
Defined.

Example exhausted_job_events :
  exists c' w',
    Pipeline.process always_fails PeriodOneMinute AdjustTypeNo Pipeline.retryCfg 1 1
      aapl_job no_counts aapl_store = Return (c', w') /\
    admissions (trace w') = 1%nat /\ fetches (trace w') = 3%nat /\
    sleeps (trace w') = [500 * Millisecond; 1000 * Millisecond] /\
    Pipeline.successCount c' = 0 /\ Pipeline.failCount c' = 1.
Proof.
  eexists _, _. split; [vm_compute; reflexivity|]. by vm_compute.
Qed.

Example pipeline_run_twice :
  exists c1 w1 c2 w2,
    Pipeline.main chan_bytes_bound ["AAPL.US"] [oct_15] "OneMinute" "No" 5 10 answers (fun _ => 0)
      empty_store = Return (c1, w1) /\
    Pipeline.main chan_bytes_bound ["AAPL.US"] [oct_15] "OneMinute" "No" 5 10 answers (fun _ => 0)
      w1 = Return (c2, w2) /\
    tables w1 !! "aapl_us" =
      Some [ row_of (record 1760535000 100 101 102 99 5000 505000);
             row_of (record 1760535120 103 102 104 101 3000 0) ] /\
    tables w2 !! "aapl_us" = tables w1 !! "aapl_us" /\
    Pipeline.successCount c1 = 1 /\ Pipeline.successCount c2 = 1.
Proof.
  eexists _, _, _, _. split; [vm_compute; reflexivity|].
  split; [vm_compute; reflexivity|]. by vm_compute.
Qed.

(** ** The further properties at concrete inputs *)

Example DSN_of_local_db :
  dbconn.DSN local_db =
    "user=postgres password=secret dbname=stocks host=127.0.0.1 port=5432 sslmode=disable".
Proof. reflexivity. Qed.

Lemma safeTableName_ignores_case_witness :
  strings.isASCII "Aapl.us" = true /\ strings.isASCII "AAPL.US" = true /\
  strings.ToLower "Aapl.us" = strings.ToLower "AAPL.US" /\
  Pipeline.safeTableName "Aapl.us" = Pipeline.safeTableName "AAPL.US".
Proof.
  split; [reflexivity|]. split; [reflexivity|]. split; [reflexivity|].
  exact (safeTableName_ignores_case "Aapl.us" "AAPL.US" eq_refl eq_refl eq_refl).
Defined.

Lemma safeTableName_ignores_third_piece_witness :
  contains_byte "BRK" dot = false /\ contains_byte "A" dot = false /\
  Pipeline.safeTableName ("BRK" +:+ "." +:+ "A" +:+ "." +:+ "US") = Return "brk_a" /\
  Pipeline.safeTableName ("BRK" +:+ "." +:+ "A" +:+ "." +:+ "HK") = Return "brk_a".
Proof.
  split; [reflexivity|]. split; [reflexivity|]. split.
  - exact (safeTableName_ignores_third_piece "BRK" "A" "US" eq_refl eq_refl).
  - exact (safeTableName_ignores_third_piece "BRK" "A" "HK" eq_refl eq_refl).
Defined.

Lemma safeTableName_has_no_dot_witness :
  strings.isASCII "AAPL.US" = true /\
  Pipeline.safeTableName "AAPL.US" = Return "aapl_us" /\
  contains_byte "aapl_us" dot = false.
Proof.
  split; [reflexivity|]. split; [reflexivity|].
  exact (safeTableName_has_no_dot "AAPL.US" "aapl_us" eq_refl eq_refl).
Defined.

Lemma safeTableName_injective_without_underscore_witness :
  Pipeline.safeTableName ("AAPL" +:+ "." +:+ "US") =
    Pipeline.safeTableName ("aapl" +:+ "." +:+ "us") /\
  strings.ToLower "AAPL" = strings.ToLower "aapl" /\
  strings.ToLower "US" = strings.ToLower "us".
Proof.
  split; [reflexivity|].
  exact (safeTableName_injective_without_underscore "AAPL" "US" "aapl" "us"
           eq_refl eq_refl eq_refl eq_refl
           eq_refl eq_refl eq_refl eq_refl eq_refl eq_refl eq_refl).
Defined.

Lemma safeTableName_underscore_collision_witness :
  contains_byte "A" dot = false /\ contains_byte "B" dot = false /\
  contains_byte "C" dot = false /\
  Pipeline.safeTableName (("A" +:+ "_" +:+ "B") +:+ "." +:+ "C") =
    Pipeline.safeTableName ("A" +:+ "." +:+ ("B" +:+ "_" +:+ "C")).
Proof.
  split; [reflexivity|]. split; [reflexivity|]. split; [reflexivity|].
  exact (safeTableName_underscore_collision "A" "B" "C"
           eq_refl eq_refl eq_refl eq_refl eq_refl eq_refl).
Defined.

Lemma programs_use_different_tables_witness :
  Pipeline.safeTableName "AAPL.US" = Return "aapl_us" /\
  exists base region,
    Sequential.tableName "AAPL.US" = Return base /\
    "aapl_us" = base +:+ "_" +:+ region /\
    "aapl_us" <> base.
Proof.
  split; [reflexivity|].
  exact (programs_use_different_tables "AAPL.US" "aapl_us" eq_refl).
Defined.

Lemma one_symbol_without_dot :
  Exists (fun s => contains_byte s dot = false) ["AAPL.US"; "TSLA"].
Proof. apply Exists_cons_tl, Exists_cons_hd. reflexivity. Qed.

Lemma Pipeline_main_panics_without_dot_witness :
  Exists (fun s => contains_byte s dot = false) ["AAPL.US"; "TSLA"] /\
  Pipeline.main chan_bytes_bound ["AAPL.US"; "TSLA"] two_days "OneMinute" "No" 5 10
    answers (fun _ => 0) empty_store = Panic IndexOutOfRange.
Proof.
  split; [exact one_symbol_without_dot|].
  exact (Pipeline_main_panics_without_dot chan_bytes_bound ["AAPL.US"; "TSLA"] two_days
           "OneMinute" "No" 5 10 answers (fun _ => 0) empty_store
           one_symbol_without_dot).
Defined.

(** One symbol, two days, five threads and ten requests a second. *)
Lemma aapl_two_days_start : main_starts chan_bytes_bound ["AAPL.US"] two_days 5 10.
Proof. split; [exact aapl_has_dot|]. by vm_compute. Qed.

Lemma Pipeline_main_call_budget_witness :
  main_starts chan_bytes_bound ["AAPL.US"] two_days 5 10 /\
  total (Pipeline.main chan_bytes_bound ["AAPL.US"] two_days "OneMinute" "No" 5 10
           fails_once (fun _ => 0))
    empty_store
    (fun _ w' =>
      Z.of_nat (calls empty_store) + len ["AAPL.US"] * len two_days
        <= Z.of_nat (calls w') /\
      Z.of_nat (calls w')
        <= Z.of_nat (calls empty_store) + 3 * (len ["AAPL.US"] * len two_days)).
Proof.
  split; [exact aapl_two_days_start|].
  exact (Pipeline_main_call_budget chan_bytes_bound ["AAPL.US"] two_days "OneMinute" "No"
           5 10 fails_once (fun _ => 0) empty_store aapl_two_days_start).
Defined.

Lemma Pipeline_main_counts_every_job_witness :
  main_starts chan_bytes_bound ["AAPL.US"] two_days 5 10 /\
  total (Pipeline.main chan_bytes_bound ["AAPL.US"] two_days "OneMinute" "No" 5 10
           always_fails (fun _ => 0))
    aapl_store
    (fun c w' =>
      Pipeline.currentTask c = len ["AAPL.US"] * len two_days /\
      0 <= Pipeline.successCount c /\ 0 <= Pipeline.failCount c /\
      Pipeline.successCount c + Pipeline.failCount c = len ["AAPL.US"] * len two_days /\
      exists evs, trace w' = trace aapl_store ++ evs /\
                  admissions evs = (length ["AAPL.US"] * length two_days)%nat).
Proof.
  split; [exact aapl_two_days_start|].
  exact (Pipeline_main_counts_every_job chan_bytes_bound ["AAPL.US"] two_days
           "OneMinute" "No" 5 10 always_fails (fun _ => 0) aapl_store
           aapl_two_days_start).
Defined.

Lemma Pipeline_main_run_twice_witness :
  main_starts chan_bytes_bound ["AAPL.US"] two_days 5 10 /\
  stable answers /\
  faults empty_store = [] /\
  unique_timestamps (tables empty_store) /\
  exists c1 w1 c2 w2,
    Pipeline.main chan_bytes_bound ["AAPL.US"] two_days "OneMinute" "No" 5 10
      answers (fun _ => 0) empty_store = Return (c1, w1) /\
    Pipeline.main chan_bytes_bound ["AAPL.US"] two_days "OneMinute" "No" 5 10
      answers (fun _ => 1) (set_faults [true; false; true] w1) = Return (c2, w2) /\
    tables w2 = tables w1 /\
    unique_timestamps (tables w1) /\
    rows_kept (tables empty_store) (tables w1).
Proof.
  split; [exact aapl_two_days_start|]. split; [exact answers_stable|].
  split; [reflexivity|]. split; [exact empty_store_unique|].
  exact (Pipeline_main_run_twice chan_bytes_bound ["AAPL.US"] two_days "OneMinute" "No"
           5 10 answers (fun _ => 0) (fun _ => 1) empty_store [true; false; true]
           aapl_two_days_start answers_stable eq_refl empty_store_unique).
Defined.

Lemma fails_once_first :
  forall i, (i < 1)%nat ->
    failed_fetch (fails_once (calls aapl_store + i)%nat (Pipeline.symbol aapl_job)
                    PeriodOneMinute AdjustTypeNo
                    (on_day_of (Pipeline.date aapl_job) 0 0 0)
                    (on_day_of (Pipeline.date aapl_job) 23 59 59)) = true.
Proof. intros [|i] Hi; [reflexivity|lia]. Qed.

Lemma job_recovers_after_failed_attempts_witness :
  Pipeline.safeTableName (Pipeline.symbol aapl_job) = Return "aapl_us" /\
  Z.of_nat 1 < Pipeline.MaxAttempts Pipeline.retryCfg /\
  fails_once (calls aapl_store + 1)%nat (Pipeline.symbol aapl_job)
    PeriodOneMinute AdjustTypeNo
    (on_day_of (Pipeline.date aapl_job) 0 0 0)
    (on_day_of (Pipeline.date aapl_job) 23 59 59) = inl three_points /\
  total (Pipeline.process fails_once PeriodOneMinute AdjustTypeNo Pipeline.retryCfg 1 1
           aapl_job no_counts) aapl_store
    (fun c' w' =>
      calls w' = (calls aapl_store + 2)%nat /\
      c' = (if prepare_fails "aapl_us" aapl_store
            then Pipeline.add_failCount (Pipeline.add_currentTask no_counts)
            else Pipeline.add_successCount (Pipeline.add_currentTask no_counts)) /\
      table_grows "aapl_us" (Pipeline.transform (Pipeline.symbol aapl_job) three_points)
        aapl_store w' /\
      exists evs,
        trace w' = trace aapl_store ++ LimiterTick :: evs /\
        fetches evs = 2%nat /\
        sleeps evs = Pipeline.backoff Pipeline.retryCfg <$> seqZ 1 (Z.of_nat 1)).
Proof.
  split; [reflexivity|]. split; [reflexivity|]. split; [reflexivity|].
  exact (job_recovers_after_failed_attempts fails_once PeriodOneMinute AdjustTypeNo 1 1
           aapl_job "aapl_us" no_counts aapl_store 1 three_points
           eq_refl eq_refl fails_once_first eq_refl).
Defined.

Lemma answers_in_full_have_all_values : answers_have_all_values answers_in_full.
Proof. intros n symbol period adjustType start end_ pts [= <-]. reflexivity. Qed.

Lemma Sequential_main_one_call_per_task_witness :
  answers_have_all_values answers_in_full /\
  faults empty_store = [] /\
  total (Sequential.main ["AAPL.US"; "0700.HK"] two_days "OneMinute" "No"
           answers_in_full) empty_store
    (fun _ w' =>
      calls w' = (calls empty_store + length ["AAPL.US"; "0700.HK"] * length two_days)%nat /\
      faults w' = [] /\
      rows_kept (tables empty_store) (tables w') /\
      forall s, s ∈ ["AAPL.US"; "0700.HK"] ->
        exists t, Sequential.tableName s = Return t /\ is_Some (tables w' !! t)).
Proof.
  split; [exact answers_in_full_have_all_values|]. split; [reflexivity|].
  exact (Sequential_main_one_call_per_task ["AAPL.US"; "0700.HK"] two_days
           "OneMinute" "No" answers_in_full empty_store
           answers_in_full_have_all_values eq_refl).
Defined.

Lemma Sequential_main_panics_on_missing_value_witness :
  failing empty_store = false /\
  forallb has_all_values three_points = false /\
  Sequential.main ("AAPL.US" :: ["0700.HK"]) (oct_15 :: [oct_15 + 86400])
    "OneMinute" "No" answers empty_store = Panic NilDereference.
Proof.
  split; [reflexivity|]. split; [reflexivity|].
  exact (Sequential_main_panics_on_missing_value "AAPL.US" ["0700.HK"] oct_15
           [oct_15 + 86400] "OneMinute" "No" answers empty_store three_points
           eq_refl eq_refl eq_refl).
Defined.

Lemma main_interval_rounds_down_witness :
  main_interval 3 = 333333333 /\
  main_interval 3 * 3 <= Second < (main_interval 3 + 1) * 3 /\
  (main_interval 2000000000 = 0 <-> Second < 2000000000).
Proof.
  split; [reflexivity|].
  split; [exact (proj1 (main_interval_rounds_down 3))|].
  exact (proj2 (proj2 (main_interval_rounds_down 2000000000))).
Defined.

Lemma DSN_injective_without_spaces_witness :
  space_free local_db = true /\
  dbconn.DSN local_db =
    dbconn.DSN {| dbconn.Host := "127.0.0.1"; dbconn.Port := 5000 + 432;
                  dbconn.User := "post" +:+ "gres"; dbconn.Password := "secret";
                  dbconn.Name := "stocks"; dbconn.SSLMode := "disable" |} /\
  local_db =
    {| dbconn.Host := "127.0.0.1"; dbconn.Port := 5000 + 432;
       dbconn.User := "post" +:+ "gres"; dbconn.Password := "secret";
       dbconn.Name := "stocks"; dbconn.SSLMode := "disable" |}.
Proof.
  split; [reflexivity|]. split; [reflexivity|].
  exact (DSN_injective_without_spaces local_db
           {| dbconn.Host := "127.0.0.1"; dbconn.Port := 5000 + 432;
              dbconn.User := "post" +:+ "gres"; dbconn.Password := "secret";
              dbconn.Name := "stocks"; dbconn.SSLMode := "disable" |}
           eq_refl eq_refl eq_refl).
Defined.

Lemma DSN_confuses_fields_with_spaces_witness :
  dbconn.DSN {| dbconn.Host := "127.0.0.1"; dbconn.Port := 5432;
                dbconn.User := "postgres password=x"; dbconn.Password := "secret";
                dbconn.Name := "stocks"; dbconn.SSLMode := "disable" |} =
  dbconn.DSN {| dbconn.Host := "127.0.0.1"; dbconn.Port := 5432;
                dbconn.User := "postgres"; dbconn.Password := "x password=secret";
                dbconn.Name := "stocks"; dbconn.SSLMode := "disable" |}.
Proof.
  exact (proj1 (DSN_confuses_fields_with_spaces "postgres" "x" "secret" local_db)).
Defined.

Lemma InsertCandlesticks_adds_only_records_witness :
  Pipeline.safeTableName "AAPL.US" = Return "aapl_us" /\
  Sequential.tableName "AAPL.US" = Return "aapl" /\
  total (Pipeline.InsertCandlesticks "AAPL.US" three_records)
    (set_faults [false; true] aapl_store)
    (fun _ w' =>
      adds_only "aapl_us" three_records
        (tables (set_faults [false; true] aapl_store)) (tables w')) /\
  total (Sequential.InsertCandlesticks "AAPL.US" three_records)
    (set_faults [false; true] aapl_store)
    (fun _ w' =>
      adds_only "aapl" three_records
        (tables (set_faults [false; true] aapl_store)) (tables w')).
Proof.
  split; [reflexivity|]. split; [reflexivity|].
  exact (InsertCandlesticks_adds_only_records "AAPL.US" "aapl_us" "aapl" three_records
           (set_faults [false; true] aapl_store) eq_refl eq_refl).
Defined.

Lemma job_windows_are_disjoint_days_witness :
  on_day_of (oct_15 + 3600) 0 0 0 = oct_15 /\
  on_day_of (oct_15 + 3600) 23 59 59 = oct_15 + 86399 /\
  (oct_15 + 3600) / 86400 < (oct_15 + 86400) / 86400 /\
  on_day_of (oct_15 + 3600) 23 59 59 < on_day_of (oct_15 + 86400) 0 0 0.
Proof.
  split; [reflexivity|]. split; [reflexivity|]. split; [reflexivity|].
  exact (proj2 (proj2 (proj2
           (job_windows_are_disjoint_days (oct_15 + 3600) (oct_15 + 86400))))
           eq_refl).
Defined.

Lemma job_calls_ask_for_its_day_witness :
  contains_byte (Pipeline.symbol aapl_job) dot = true /\
  total (Pipeline.process fails_once PeriodOneMinute AdjustTypeNo Pipeline.retryCfg 1 1
           aapl_job no_counts) aapl_store
    (fun _ w' =>
      exists evs,
        trace w' = trace aapl_store ++ evs /\
        Forall (fun e => is_call e = true ->
                  e = Call "AAPL.US" oct_15 (oct_15 + 86399)) evs).
Proof.
  split; [reflexivity|].
  exact (job_calls_ask_for_its_day fails_once PeriodOneMinute AdjustTypeNo
           Pipeline.retryCfg 1 1 aapl_job no_counts aapl_store eq_refl).
Defined.
